(** * clickhouse-backup: archive engine, table selection and backup workflow

    A shallow embedding of [archive.go] (the hard-link aware tar writer) and
    of the command implementations ([parseArgsForFreeze],
    [parseArgsForRestore], [parseArgsForDownload], [getTables],
    [createTables], [freeze], [restore], [upload], [download], [clean],
    [removeOldBackups]), with the properties the specification states about
    them and further properties read off the code.

    Conventions.
    - A Go [error] is a value of [option error]: [None] is [nil].
    - Go strings are byte strings; where the library reads a rune it decodes
      UTF-8 ([utf8.DecodeRuneInString]), elsewhere it works byte by byte.
    - Functions of the Go standard library that the code calls
      ([strings.Replace], [filepath.Match], [filepath.Walk],
      [archive/tar.Writer], [sort.Slice], ...) are modelled next to the code
      that uses them and say so in their comments.
    - The ClickHouse and S3 clients are collaborators whose code is not part
      of the analysed sources: they are records of state transformers over
      an arbitrary world state. *)

From Stdlib Require Import ZArith String Ascii List Lia Bool.
From stdpp Require Import gmap strings list sorting pretty.

Open Scope string_scope.
Open Scope list_scope.
Open Scope Z_scope.

(** ** Errors *)

(** A Go error value: its message, and whether [os.IsNotExist] holds of it. *)
Record error : Type := mkError {
  Error : string;
  IsNotExist : bool
}.

(** [fmt.Errorf]: a fresh error carrying only a message. *)
Definition Errorf (msg : string) : error := mkError msg false.

#[global] Instance error_eq_dec : EqDecision error.
Proof. solve_decision. Defined.

(** [%v] of a possibly nil error inside a format string. *)
Definition fmt_v (e : option error) : string :=
  match e with
  | Some e => Error e
  | None => "<nil>"
  end.

(** ** Go's [unicode/utf8] package *)

(** The rune that stands for a decoding error. *)
Definition RuneError : N := 65533.

(** The table [first] of the package: for a leading byte that starts a
    sequence of several bytes, the length of the sequence and the range the
    second byte must lie in. *)
Definition utf8_first (s0 : N) : option (nat * N * N) :=
  (if (194 <=? s0) && (s0 <=? 223) then Some (2%nat, 128, 191)
   else if s0 =? 224 then Some (3%nat, 160, 191)
   else if s0 =? 237 then Some (3%nat, 128, 159)
   else if (225 <=? s0) && (s0 <=? 239) then Some (3%nat, 128, 191)
   else if s0 =? 240 then Some (4%nat, 144, 191)
   else if (241 <=? s0) && (s0 <=? 243) then Some (4%nat, 128, 191)
   else if s0 =? 244 then Some (4%nat, 128, 143)
   else None)%N.

(** A byte outside the range of continuation bytes. *)
Definition not_continuation (b : N) : bool := ((b <? 128) || (191 <? b))%N.

(** [utf8.DecodeRuneInString]: the first rune of [s] and its width in
    bytes; [(RuneError, 0)] for the empty string and [(RuneError, 1)] for
    bytes that start no well-formed sequence. *)
Definition utf8_DecodeRuneInString (s : string) : N * nat :=
  match s with
  | EmptyString => (RuneError, 0%nat)
  | String c0 t0 =>
      let s0 := N_of_ascii c0 in
      if (s0 <? 128)%N then (s0, 1%nat)
      else
        match utf8_first s0 with
        | None => (RuneError, 1%nat)
        | Some (sz, lo, hi) =>
            if (String.length s <? sz)%nat then (RuneError, 1%nat)
            else
              match t0 with
              | EmptyString => (RuneError, 1%nat)
              | String c1 t1 =>
                  let s1 := N_of_ascii c1 in
                  if ((s1 <? lo) || (hi <? s1))%N then (RuneError, 1%nat)
                  else if (sz <=? 2)%nat then
                    (N.lor (N.shiftl (N.land s0 31) 6) (N.land s1 63), 2%nat)
                  else
                    match t1 with
                    | EmptyString => (RuneError, 1%nat)
                    | String c2 t2 =>
                        let s2 := N_of_ascii c2 in
                        if not_continuation s2 then (RuneError, 1%nat)
                        else if (sz <=? 3)%nat then
                          (N.lor (N.lor (N.shiftl (N.land s0 15) 12)
                                    (N.shiftl (N.land s1 63) 6))
                             (N.land s2 63), 3%nat)
                        else
                          match t2 with
                          | EmptyString => (RuneError, 1%nat)
                          | String c3 _ =>
                              let s3 := N_of_ascii c3 in
                              if not_continuation s3 then (RuneError, 1%nat)
                              else
                                (N.lor (N.lor (N.lor (N.shiftl (N.land s0 7) 18)
                                                 (N.shiftl (N.land s1 63) 12))
                                          (N.shiftl (N.land s2 63) 6))
                                   (N.land s3 63), 4%nat)
                          end
                    end
              end
        end
  end.

(** ** Go's [strings] package, on byte strings *)

Definition strings_HasPrefix (s pre : string) : bool := String.prefix pre s.

Definition strings_HasSuffix (s suffix : string) : bool :=
  (String.length suffix <=? String.length s)%nat &&
  String.eqb
    (substring (String.length s - String.length suffix) (String.length suffix) s)
    suffix.

Fixpoint string_drop (n : nat) (s : string) : string :=
  match n, s with
  | O, _ => s
  | S _, EmptyString => EmptyString
  | S n', String _ s' => string_drop n' s'
  end.

Definition strings_TrimPrefix (s pre : string) : string :=
  if strings_HasPrefix s pre then string_drop (String.length pre) s else s.

Fixpoint strings_Contains (s substr : string) : bool :=
  String.prefix substr s ||
  match s with
  | EmptyString => false
  | String _ s' => strings_Contains s' substr
  end.

(** [strings.Replace] for a non-empty [old]: scan left to right, replacing
    non-overlapping occurrences while [n] is not exhausted ([n < 0]: no
    limit).  [skip] counts the bytes of the occurrence still to drop. *)
Fixpoint replace_scan (skip : nat) (n : Z) (old new s : string) : string :=
  match s with
  | EmptyString => EmptyString
  | String c s' =>
      match skip with
      | S k => replace_scan k n old new s'
      | O =>
          if n =? 0 then s
          else if String.prefix old s
               then new +:+ replace_scan (String.length old - 1) (n - 1) old new s'
               else String c (replace_scan O n old new s')
      end
  end.

(** [strings.Replace] for an empty [old]: [new] goes before each rune and
    after the last one, up to [n] insertions.  [skip] counts the bytes of
    the rune under way still to copy. *)
Fixpoint replace_empty (skip : nat) (n : Z) (new s : string) : string :=
  match s with
  | EmptyString => if n =? 0 then EmptyString else new
  | String c s' =>
      match skip with
      | S k => String c (replace_empty k n new s')
      | O =>
          if n =? 0 then s
          else new +:+ String c (replace_empty
                                   (snd (utf8_DecodeRuneInString s) - 1)
                                   (n - 1) new s')
      end
  end.

Definition strings_Replace (s old new : string) (n : Z) : string :=
  if String.eqb old new || (n =? 0) then s
  else match old with
       | EmptyString => replace_empty O n new s
       | String _ _ => replace_scan O n old new s
       end.

Fixpoint strings_Join (elems : list string) (sep : string) : string :=
  match elems with
  | [] => ""
  | [e] => e
  | e :: rest => e +:+ sep +:+ strings_Join rest sep
  end.

(** ** Go's [path] / [path/filepath] packages (Unix) *)

Definition Separator : ascii := "/"%char.

(** Split at every separator; ["a//b"] gives ["a"; ""; "b"]. *)
Fixpoint split_sep (s : string) : list string :=
  match s with
  | EmptyString => [EmptyString]
  | String c s' =>
      if Ascii.eqb c Separator then EmptyString :: split_sep s'
      else match split_sep s' with
           | [] => [String c EmptyString]
           | w :: ws => String c w :: ws
           end
  end.

(** The element stack of [Clean]: [acc] holds the kept elements, last first. *)
Fixpoint clean_elems (rooted : bool) (acc : list string) (elems : list string)
  : list string :=
  match elems with
  | [] => rev acc
  | e :: rest =>
      if String.eqb e "" || String.eqb e "." then clean_elems rooted acc rest
      else if String.eqb e ".." then
        match acc with
        | top :: acc' =>
            if String.eqb top ".." then clean_elems rooted (e :: acc) rest
            else clean_elems rooted acc' rest
        | [] =>
            if rooted then clean_elems rooted acc rest
            else clean_elems rooted (e :: acc) rest
        end
      else clean_elems rooted (e :: acc) rest
  end.

(** [path.Clean]: the shortest equivalent path by lexical processing. *)
Definition path_Clean (p : string) : string :=
  match p with
  | EmptyString => "."
  | String c _ =>
      let rooted := Ascii.eqb c Separator in
      let body := strings_Join (clean_elems rooted [] (split_sep p)) "/" in
      if rooted then "/" +:+ body
      else if String.eqb body "" then "." else body
  end.

(** [path.Join] and, on Unix, [filepath.Join]: empty elements are ignored,
    the rest is joined with a slash and cleaned. *)
Definition path_Join (elems : list string) : string :=
  match List.filter (fun e => negb (String.eqb e "")) elems with
  | [] => ""
  | nonempty => path_Clean (strings_Join nonempty "/")
  end.

Definition filepath_Join := path_Join.

(** Remove the trailing separators of a reversed path. *)
Fixpoint drop_seps (r : list ascii) : list ascii :=
  match r with
  | c :: r' => if Ascii.eqb c Separator then drop_seps r' else r
  | [] => []
  end.

(** The bytes before the first separator (of a reversed path: the last
    element). *)
Fixpoint take_elem (r : list ascii) : list ascii :=
  match r with
  | c :: r' => if Ascii.eqb c Separator then [] else c :: take_elem r'
  | [] => []
  end.

(** [filepath.Base]: the last element of the path. *)
Definition filepath_Base (p : string) : string :=
  match p with
  | EmptyString => "."
  | _ =>
      let r := drop_seps (rev (list_ascii_of_string p)) in
      match rev (take_elem r) with
      | [] => "/"
      | b => string_of_list_ascii b
      end
  end.

(** *** [filepath.Match] *)

Definition ErrBadPattern : error := Errorf "syntax error in pattern".

(** [scanChunk]'s scan loop: the chunk runs up to the first star outside a
    character class; [esc] is set when the previous byte was a backslash. *)
Fixpoint scan_loop (inrange esc : bool) (p : string) : string * string :=
  match p with
  | EmptyString => (EmptyString, EmptyString)
  | String c p' =>
      let keep '(chunk, rest) := (String c chunk, rest) in
      if esc then keep (scan_loop inrange false p')
      else if Ascii.eqb c "\" then keep (scan_loop inrange true p')
      else if Ascii.eqb c "[" then keep (scan_loop true false p')
      else if Ascii.eqb c "]" then keep (scan_loop false false p')
      else if Ascii.eqb c "*" && negb inrange then (EmptyString, p)
      else keep (scan_loop inrange false p')
  end.

Fixpoint drop_stars (p : string) : bool * string :=
  match p with
  | String c p' =>
      if Ascii.eqb c "*" then (true, snd (drop_stars p')) else (false, p)
  | EmptyString => (false, p)
  end.

(** [scanChunk]: the next segment of the pattern, a non-star string possibly
    preceded by stars. *)
Definition scanChunk (pattern : string) : bool * string * string :=
  let '(star, p) := drop_stars pattern in
  let '(chunk, rest) := scan_loop false false p in
  (star, chunk, rest).

(** [getEsc]: a possibly escaped rune of a character class. *)
Definition getEsc (chunk : string) : N * string * option error :=
  match chunk with
  | EmptyString => (0%N, EmptyString, Some ErrBadPattern)
  | String c rest =>
      if Ascii.eqb c "-" || Ascii.eqb c "]" then
        (0%N, EmptyString, Some ErrBadPattern)
      else
        match (if Ascii.eqb c "\" then rest else chunk) with
        | EmptyString => (0%N, EmptyString, Some ErrBadPattern)
        | String _ _ as chunk1 =>
            let '(r, n) := utf8_DecodeRuneInString chunk1 in
            let nchunk := string_drop n chunk1 in
            (r, nchunk,
             if ((r =? RuneError)%N && (n =? 1)%nat) || String.eqb nchunk ""
             then Some ErrBadPattern else None)
        end
  end.

Definition rune_le (a b : N) : bool := (a <=? b)%N.

(** The range loop of a character class: [r] is the rune under test,
    [matched] whether a range contained it so far. *)
Fixpoint class_ranges (fuel : nat) (r : N) (chunk : string)
    (matched : bool) (nrange : nat) : (bool * string) + error :=
  match fuel with
  | O => inr ErrBadPattern
  | S fuel' =>
      let ranges :=
        match getEsc chunk with
        | (_, _, Some e) => inr e
        | (lo, chunk1, None) =>
            match chunk1 with
            | String c chunk2 =>
                if Ascii.eqb c "-" then
                  match getEsc chunk2 with
                  | (_, _, Some e) => inr e
                  | (hi, chunk3, None) =>
                      class_ranges fuel' r chunk3
                        (matched || (rune_le lo r && rune_le r hi)) (S nrange)
                  end
                else
                  class_ranges fuel' r chunk1
                    (matched || (rune_le lo r && rune_le r lo)) (S nrange)
            | EmptyString => inr ErrBadPattern
            end
        end in
      match chunk with
      | String c rest =>
          if Ascii.eqb c "]" && (0 <? nrange)%nat then inl (matched, rest)
          else ranges
      | EmptyString => ranges
      end
  end.

(** [matchChunk]'s loop.  [failed] records that the match has failed: the
    loop goes on checking that the chunk is well formed but reads [s] no
    more.  A character class and [?] consume one rune of [s], a literal one
    byte. *)
Fixpoint chunk_loop (fuel : nat) (chunk s : string) (failed : bool)
  : string * bool * option error :=
  match fuel with
  | O => (EmptyString, false, None)
  | S fuel' =>
      match chunk with
      | EmptyString =>
          if failed then (EmptyString, false, None) else (s, true, None)
      | String c chunk1 =>
          let failed := failed || String.eqb s "" in
          let s0 := match s with String a _ => a | EmptyString => zero end in
          let s1 := match s with String _ t => t | EmptyString => s end in
          let '(rune, n) := utf8_DecodeRuneInString s in
          if Ascii.eqb c "[" then
            let r := if failed then 0%N else rune in
            let s' := if failed then s else string_drop n s in
            let '(negated, chunk2) :=
              match chunk1 with
              | String n chunk2 =>
                  if Ascii.eqb n "^" then (true, chunk2) else (false, chunk1)
              | EmptyString => (false, chunk1)
              end in
            match class_ranges (S (String.length chunk2)) r chunk2 false O with
            | inr e => (EmptyString, false, Some e)
            | inl (matched, chunk3) =>
                chunk_loop fuel' chunk3 s' (failed || Bool.eqb matched negated)
            end
          else if Ascii.eqb c "?" then
            if failed then chunk_loop fuel' chunk1 s failed
            else chunk_loop fuel' chunk1 (string_drop n s) (Ascii.eqb s0 Separator)
          else
            let lit (chunk : string) :=
              match chunk with
              | String l chunk' =>
                  if failed then chunk_loop fuel' chunk' s failed
                  else chunk_loop fuel' chunk' s1 (negb (Ascii.eqb l s0))
              | EmptyString => (EmptyString, false, Some ErrBadPattern)
              end in
            if Ascii.eqb c "\" then lit chunk1 else lit chunk
      end
  end.

(** [matchChunk]: does the chunk match the beginning of [s]?  If so, the
    remainder of [s]. *)
Definition matchChunk (chunk s : string) : string * bool * option error :=
  chunk_loop (S (String.length chunk)) chunk s false.

Inductive star_result : Type :=
| StarFound (t : string)
| StarError (e : error)
| StarNone.

(** The search of [Match] after a star: try the chunk after skipping
    [i + 1] bytes of the name, never skipping a separator.  [name] is the
    name from byte [i] on. *)
Fixpoint star_loop (chunk : string) (last : bool) (name : string) : star_result :=
  match name with
  | EmptyString => StarNone
  | String c rest =>
      if Ascii.eqb c Separator then StarNone
      else match matchChunk chunk rest with
           | (t, true, _) =>
               if last && (0 <? String.length t)%nat
               then star_loop chunk last rest
               else StarFound t
           | (_, false, Some e) => StarError e
           | (_, false, None) => star_loop chunk last rest
           end
  end.

(** Before answering "no match", the rest of the pattern is checked for
    syntax. *)
Fixpoint check_rest (fuel : nat) (pattern : string) : option error :=
  match fuel with
  | O => None
  | S fuel' =>
      match pattern with
      | EmptyString => None
      | _ =>
          let '(_, chunk, rest) := scanChunk pattern in
          match matchChunk chunk "" with
          | (_, _, Some e) => Some e
          | (_, _, None) => check_rest fuel' rest
          end
      end
  end.

Fixpoint match_loop (fuel : nat) (pattern name : string) : bool * option error :=
  match fuel with
  | O => (false, None)
  | S fuel' =>
      match pattern with
      | EmptyString => (String.eqb name "", None)
      | _ =>
          let '(star, chunk, rest) := scanChunk pattern in
          if star && String.eqb chunk "" then
            (negb (strings_Contains name "/"), None)
          else
            let no_match := (false, check_rest (S (String.length rest)) rest) in
            match matchChunk chunk name with
            | (t, ok, err) =>
                if ok && (String.eqb t "" || negb (String.eqb rest "")) then
                  match_loop fuel' rest t
                else
                  match err with
                  | Some e => (false, Some e)
                  | None =>
                      if star then
                        match star_loop chunk (String.eqb rest "") name with
                        | StarFound t => match_loop fuel' rest t
                        | StarError e => (false, Some e)
                        | StarNone => no_match
                        end
                      else no_match
                  end
            end
      end
  end.

(** [filepath.Match]: shell-style matching of a whole name. *)
Definition filepath_Match (pattern name : string) : bool * option error :=
  match_loop (S (String.length pattern)) pattern name.

(** ** Data model *)

(** Modelled from the spec: the [Table] struct is declared outside the
    analysed sources; the code reads its [Database] and [Name] fields. *)
Record Table : Type := mkTable {
  Database : string;
  Name : string
}.

(** Modelled from the spec: the [BackupTable] struct is declared outside the
    analysed sources; the code reads [Database], [Name] and [Increment], the
    spec adds the on-disk partition paths. *)
Record BackupTable : Type := mkBackupTable {
  bt_Database : string;
  bt_Name : string;
  bt_Increment : Z;
  bt_Partitions : list string
}.

(** Modelled from the spec: the [RestoreTable] struct is declared outside the
    analysed sources; [createTables] builds it from these two fields. *)
Record RestoreTable : Type := mkRestoreTable {
  rt_Database : string;
  rt_Query : string
}.

#[global] Instance Table_eq_dec : EqDecision Table.
Proof. solve_decision. Defined.
#[global] Instance BackupTable_eq_dec : EqDecision BackupTable.
Proof. solve_decision. Defined.
#[global] Instance RestoreTable_eq_dec : EqDecision RestoreTable.
Proof. solve_decision. Defined.

(** [fmt.Sprintf("%s.%s", db, name)] *)
Definition Sprintf_dot (db name : string) : string := db +:+ "." +:+ name.

(** ** Table selection *)

(** The body of the inner loop of [parseArgsForFreeze]. *)
Definition freeze_step (arg : string) (result : list Table) (t : Table)
  : list Table :=
  let '(matched, _) := filepath_Match arg (Sprintf_dot (Database t) (Name t)) in
  if matched then result ++ [t] else result.

Definition parseArgsForFreeze (tables : list Table) (args : list string)
  : list Table * option error :=
  if (length args =? 0)%nat then (tables, None)
  else
    (fold_left (fun result arg => fold_left (freeze_step arg) tables result)
       args [],
     None).

(** The loop over [increments] with its [break]: is [n] listed? *)
Fixpoint has_increment (increments : list Z) (n : Z) : bool :=
  match increments with
  | [] => false
  | i :: rest => if i =? n then true else has_increment rest n
  end.

(** The body of the inner loop of [parseArgsForRestore]. *)
Definition restore_step (arg : string) (increments : list Z)
    (result : list BackupTable) (t : BackupTable) : list BackupTable :=
  let tableName := Sprintf_dot (bt_Database t) (bt_Name t) in
  let '(matched, _) := filepath_Match arg tableName in
  if matched then
    if (length increments =? 0)%nat then result ++ [t]
    else if has_increment increments (bt_Increment t) then result ++ [t]
    else result
  else result.

(** The order in which one [range] statement visits a Go map is chosen by
    the runtime, anew for each statement: the [i]-th pass over the catalog
    visits [iter i] applied to the map's entries. *)
Definition range_order : Type :=
  nat -> list (string * BackupTable) -> list (string * BackupTable).

Definition range_values (iter : range_order) (i : nat)
    (tables : gmap string BackupTable) : list BackupTable :=
  map snd (iter i (map_to_list tables)).

(** The outer loop of [parseArgsForRestore]; [i] counts the passes made over
    the catalog so far. *)
Fixpoint restore_loop (iter : range_order) (tables : gmap string BackupTable)
    (increments : list Z) (i : nat) (args : list string)
    (result : list BackupTable) : list BackupTable :=
  match args with
  | [] => result
  | arg :: rest =>
      restore_loop iter tables increments (S i) rest
        (fold_left (restore_step arg increments) (range_values iter i tables)
           result)
  end.

Definition parseArgsForRestore (iter : range_order)
    (tables : gmap string BackupTable) (args : list string)
    (increments : list Z) : list BackupTable * option error :=
  let args := if (length args =? 0)%nat then ["*"] else args in
  (restore_loop iter tables increments O args [], None).

Definition parseArgsForDownload (args : list string) : string :=
  match args with
  | [a] => a
  | _ => ""
  end.

(** ** Files *)

(** The type bits of an [os.FileMode], as [archive/tar.FileInfoHeader]
    distinguishes them. *)
Inductive FileType : Type :=
| ModeRegular
| ModeDir
| ModeSymlink
| ModeDevice
| ModeCharDevice
| ModeNamedPipe
| ModeSocket
| ModeIrregular.

#[global] Instance FileType_eq_dec : EqDecision FileType.
Proof. solve_decision. Defined.

(** [devino]: the device and inode numbers of a file, both [uint64]. *)
Record devino : Type := mkDevino {
  Dev : N;
  Ino : N
}.

#[global] Instance devino_eq_dec : EqDecision devino.
Proof. solve_decision. Defined.

#[global] Instance devino_countable : Countable devino.
Proof.
  refine (inj_countable' (fun d => (Dev d, Ino d))
            (fun p => mkDevino (fst p) (snd p)) _).
  intros []; reflexivity.
Defined.

(** An [os.FileInfo] whose [Sys()] is a [*syscall.Stat_t]. *)
Record FileInfo : Type := mkFileInfo {
  fi_Name : string;
  fi_Size : Z;
  fi_Type : FileType;
  fi_Perm : Z;
  fi_Setuid : bool;
  fi_Setgid : bool;
  fi_Sticky : bool;
  fi_ModTime : Z;
  fi_Sys : devino
}.

Definition IsDir (fi : FileInfo) : bool := bool_decide (fi_Type fi = ModeDir).

(** ** The tar writer ([archive/tar]) *)

Inductive Typeflag : Type :=
| TypeReg
| TypeLink
| TypeSymlink
| TypeChar
| TypeBlock
| TypeDir
| TypeFifo.

#[global] Instance Typeflag_eq_dec : EqDecision Typeflag.
Proof. solve_decision. Defined.

Record Header : Type := mkHeader {
  h_Typeflag : Typeflag;
  h_Name : string;
  h_Linkname : string;
  h_Size : Z;
  h_Mode : Z;
  h_ModTime : Z
}.

#[global] Instance Header_eq_dec : EqDecision Header.
Proof. solve_decision. Defined.

(** The mode bits of a header: set-uid, set-gid and sticky. *)
Definition c_ISUID : Z := 2048.
Definition c_ISGID : Z := 1024.
Definition c_ISVTX : Z := 512.

(** The [Mode] that [tar.FileInfoHeader] gives the header of [fi]: the
    permission bits, or-ed with the bits of the set-uid, set-gid and sticky
    flags. *)
Definition header_mode (fi : FileInfo) : Z :=
  let m := fi_Perm fi in
  let m := if fi_Setuid fi then Z.lor m c_ISUID else m in
  let m := if fi_Setgid fi then Z.lor m c_ISGID else m in
  if fi_Sticky fi then Z.lor m c_ISVTX else m.

(** [FileMode.String] on the bits of the model: the letters of the bits
    that are set, in the order of "dalTLDpSugct?", or a dash when none is,
    and then the nine permission bits. *)
Definition FileMode_String (fi : FileInfo) : string :=
  let flag (b : bool) (l : string) := if b then l else "" in
  let has (t : FileType) := bool_decide (fi_Type fi = t) in
  let letters :=
    flag (has ModeDir) "d" +:+ flag (has ModeSymlink) "L"
    +:+ flag (has ModeDevice || has ModeCharDevice) "D"
    +:+ flag (has ModeNamedPipe) "p" +:+ flag (has ModeSocket) "S"
    +:+ flag (fi_Setuid fi) "u" +:+ flag (fi_Setgid fi) "g"
    +:+ flag (has ModeCharDevice) "c" +:+ flag (fi_Sticky fi) "t"
    +:+ flag (has ModeIrregular) "?" in
  (if String.eqb letters "" then "-" else letters)
  +:+ string_of_list_ascii
        (map (fun '(i, l) => if Z.testbit (fi_Perm fi) i then l else "-"%char)
           [(8, "r"%char); (7, "w"%char); (6, "x"%char);
            (5, "r"%char); (4, "w"%char); (3, "x"%char);
            (2, "r"%char); (1, "w"%char); (0, "x"%char)]).

(** [tar.FileInfoHeader(fi, link)]: the header describing [fi]. *)
Definition FileInfoHeader (fi : FileInfo) (link : string)
  : Header * option error :=
  let h := mkHeader TypeReg (fi_Name fi) "" 0 (header_mode fi) (fi_ModTime fi) in
  match fi_Type fi with
  | ModeRegular =>
      (mkHeader TypeReg (h_Name h) "" (fi_Size fi) (h_Mode h) (h_ModTime h), None)
  | ModeDir =>
      (mkHeader TypeDir (h_Name h +:+ "/") "" 0 (h_Mode h) (h_ModTime h), None)
  | ModeSymlink =>
      (mkHeader TypeSymlink (h_Name h) link 0 (h_Mode h) (h_ModTime h), None)
  | ModeCharDevice =>
      (mkHeader TypeChar (h_Name h) "" 0 (h_Mode h) (h_ModTime h), None)
  | ModeDevice =>
      (mkHeader TypeBlock (h_Name h) "" 0 (h_Mode h) (h_ModTime h), None)
  | ModeNamedPipe =>
      (mkHeader TypeFifo (h_Name h) "" 0 (h_Mode h) (h_ModTime h), None)
  | ModeSocket => (h, Some (Errorf "archive/tar: sockets not supported"))
  | ModeIrregular =>
      (h, Some (Errorf ("archive/tar: unknown file mode " +:+ FileMode_String fi)))
  end.

(** The [io.Writer] under the archive: it accepts bytes until its capacity,
    if it has one, is used up, and then fails with a short write. *)
Record Sink : Type := mkSink {
  sk_accepted : Z;
  sk_capacity : option Z
}.

Definition ErrNoSpace : error := Errorf "no space left on device".

(** Write [n] bytes: the number accepted and the error, if any. *)
Definition sink_Write (s : Sink) (n : Z) : Z * option error * Sink :=
  match sk_capacity s with
  | None => (n, None, mkSink (sk_accepted s + n) None)
  | Some cap =>
      if sk_accepted s + n <=? cap
      then (n, None, mkSink (sk_accepted s + n) (Some cap))
      else (Z.max 0 (cap - sk_accepted s), Some ErrNoSpace,
            mkSink (Z.max (sk_accepted s) cap) (Some cap))
  end.

(** One archive member as written: its header and the bytes of its body
    that reached the archive. *)
Record Entry : Type := mkEntry {
  e_hdr : Header;
  e_body : string
}.

(** [tar.Writer]: the members written so far, the bytes the current member
    still owes ([tw_nb]), the padding due after it, and the sticky error. *)
Record Writer : Type := mkWriter {
  tw_w : Sink;
  tw_entries : list Entry;
  tw_nb : Z;
  tw_pad : Z;
  tw_err : option error
}.

Definition blockSize : Z := 512.

Definition NewWriter (w : Sink) : Writer := mkWriter w [] 0 0 None.

Definition ErrWriteTooLong : error := Errorf "archive/tar: write too long".

(** The error of a member left short of [nb] bytes. *)
Definition ErrMissedWriting (nb : Z) : error :=
  Errorf ("archive/tar: missed writing " +:+ pretty nb +:+ " bytes").

(** [tw.Flush]: finish the current member; it is an error to have written
    fewer bytes than its header announced. *)
Definition Flush (tw : Writer) : Writer * option error :=
  match tw_err tw with
  | Some e => (tw, Some e)
  | None =>
      if 0 <? tw_nb tw then (tw, Some (ErrMissedWriting (tw_nb tw)))
      else
        let '(_, err, w') := sink_Write (tw_w tw) (tw_pad tw) in
        match err with
        | Some e => (mkWriter w' (tw_entries tw) (tw_nb tw) (tw_pad tw) (Some e), Some e)
        | None => (mkWriter w' (tw_entries tw) (tw_nb tw) 0 None, None)
        end
  end.

(** Members without a body, whatever size their header carries. *)
Definition isHeaderOnlyType (flag : Typeflag) : bool :=
  match flag with
  | TypeReg => false
  | _ => true
  end.

(** [tw.WriteHeader]: flush the previous member and write one header block
    (the extra blocks of long names are not counted). *)
Definition WriteHeader (tw : Writer) (hdr : Header) : Writer * option error :=
  match Flush tw with
  | (tw1, Some e) => (tw1, Some e)
  | (tw1, None) =>
      let '(_, err, w') := sink_Write (tw_w tw1) blockSize in
      match err with
      | Some e =>
          (mkWriter w' (tw_entries tw1) (tw_nb tw1) (tw_pad tw1) (Some e), Some e)
      | None =>
          let size := if isHeaderOnlyType (h_Typeflag hdr) then 0 else h_Size hdr in
          (mkWriter w' (tw_entries tw1 ++ [mkEntry hdr ""]) size
             ((- size) mod blockSize) None, None)
      end
  end.

(** Append bytes to the body of the member written last. *)
Definition append_body (entries : list Entry) (b : string) : list Entry :=
  match rev entries with
  | [] => []
  | e :: before => rev before ++ [mkEntry (e_hdr e) (e_body e +:+ b)]
  end.

(** [tw.Write]: body bytes of the current member; bytes beyond the announced
    size are refused with [ErrWriteTooLong]. *)
Definition Write (tw : Writer) (b : string) : Writer * Z * option error :=
  match tw_err tw with
  | Some e => (tw, 0, Some e)
  | None =>
      let len := Z.of_nat (String.length b) in
      let overwrite := tw_nb tw <? len in
      let m := if overwrite then Z.max 0 (tw_nb tw) else len in
      if 0 <? m then
        let '(n, err, w') := sink_Write (tw_w tw) m in
        let entries := append_body (tw_entries tw) (substring 0 (Z.to_nat n) b) in
        match err with
        | Some e =>
            (mkWriter w' entries (tw_nb tw - n) (tw_pad tw) (Some e), n, Some e)
        | None =>
            (mkWriter w' entries (tw_nb tw - n) (tw_pad tw) None, n,
             if overwrite then Some ErrWriteTooLong else None)
        end
      else (tw, 0, if overwrite then Some ErrWriteTooLong else None)
  end.

(** [tw.Close]: flush, then the two zero blocks that end an archive. *)
Definition Close (tw : Writer) : Writer * option error :=
  match Flush tw with
  | (tw1, Some e) => (tw1, Some e)
  | (tw1, None) =>
      let '(_, err, w') := sink_Write (tw_w tw1) (2 * blockSize) in
      (mkWriter w' (tw_entries tw1) (tw_nb tw1) (tw_pad tw1) err, err)
  end.

(** [io.Copy(tw, f)] for an open file that delivers [data] and then ends,
    with [rerr] when reading fails ([None]: end of file). *)
Definition io_Copy (tw : Writer) (data : string) (rerr : option error)
  : Writer * Z * option error :=
  if (String.length data =? 0)%nat then (tw, 0, rerr)
  else
    match Write tw data with
    | (tw', n, Some e) => (tw', n, Some e)
    | (tw', n, None) => (tw', n, rerr)
    end.

(** ** The file system seen by one archive pass *)

(** One call that [filepath.Walk] makes to its callback: the path, its
    [FileInfo] and the error Walk met there; and, for a file, what
    [os.Open] answers and what reading the opened file delivers. *)
Record WalkStep : Type := mkWalkStep {
  ws_file : string;
  ws_info : FileInfo;
  ws_err : option error;
  ws_open_err : option error;
  ws_data : string;
  ws_read_err : option error
}.

(** The file system: the answer of [os.Stat] for a path, and for a root the
    calls Walk makes, in lexical order. *)
Record FileSystem : Type := mkFileSystem {
  os_Stat : string -> FileInfo * option error;
  walk_steps : string -> list WalkStep
}.

(** [filepath.Walk]: the callback runs on every step until it returns an
    error, which ends the walk and is returned (the callback of [tarDir]
    never asks to skip a directory). *)
Fixpoint filepath_Walk {S : Type} (steps : list WalkStep)
    (fn : S -> WalkStep -> S * option error) (st : S) : S * option error :=
  match steps with
  | [] => (st, None)
  | step :: rest =>
      match fn st step with
      | (st', Some e) => (st', Some e)
      | (st', None) => filepath_Walk rest fn st'
      end
  end.

(** ** [archive.go] *)

(** What a call ends with: a returned error value, or a run-time panic. *)
Inductive outcome : Type :=
| Return (err : option error)
| Panic (msg : string).

(** The line [tarDir] logs when it ends (without the elapsed time). *)
Inductive logline : Type :=
| LogAdded (nFiles hLinks : Z)
| LogFailed (nFiles hLinks : Z) (err : error).

(** The variables the callback of [tarDir] closes over. *)
Record pass : Type := mkPass {
  p_tw : Writer;
  p_seen : gmap devino string;
  p_nFiles : Z;
  p_hLinks : Z
}.

(** The member name of [file] under root [dir]. *)
Definition archive_name (dir file : string) : string :=
  strings_TrimPrefix (strings_Replace file dir (filepath_Base dir) (-1)) "/".

(** The callback [tarDir] hands to [filepath.Walk]. *)
Definition walkFn (dir : string) (st : pass) (step : WalkStep)
  : pass * option error :=
  match ws_err step with
  | Some e => (st, Some e)
  | None =>
      let fi := ws_info step in
      if IsDir fi then (st, None)
      else
        match FileInfoHeader fi "" with
        | (_, Some e) => (st, Some e)
        | (header, None) =>
            let filename := archive_name dir (ws_file step) in
            let header :=
              mkHeader (h_Typeflag header) filename (h_Linkname header)
                (h_Size header) (h_Mode header) (h_ModTime header) in
            let di := mkDevino (Dev (fi_Sys fi)) (Ino (fi_Sys fi)) in
            match p_seen st !! di with
            | Some orig =>
                let header :=
                  mkHeader TypeLink (h_Name header) orig 0
                    (h_Mode header) (h_ModTime header) in
                match WriteHeader (p_tw st) header with
                | (tw, Some e) =>
                    (mkPass tw (p_seen st) (p_nFiles st) (p_hLinks st), Some e)
                | (tw, None) =>
                    (mkPass tw (p_seen st) (p_nFiles st) (p_hLinks st + 1), None)
                end
            | None =>
                match WriteHeader (p_tw st) header with
                | (tw, Some e) =>
                    (mkPass tw (p_seen st) (p_nFiles st) (p_hLinks st), Some e)
                | (tw, None) =>
                    match ws_open_err step with
                    | Some e =>
                        (mkPass tw (p_seen st) (p_nFiles st) (p_hLinks st), Some e)
                    | None =>
                        (* io.Copy(tw, f): its results are dropped *)
                        let '(tw, _, _) :=
                          io_Copy tw (ws_data step) (ws_read_err step) in
                        (mkPass tw (<[di := filename]> (p_seen st))
                           (p_nFiles st + 1) (p_hLinks st), None)
                    end
                end
            end
        end
  end.

(** The deferred log call of [tarDir], run with the final value of [err]. *)
Definition tarDir_log (st : pass) (err : option error) : logline :=
  match err with
  | None => LogAdded (p_nFiles st) (p_hLinks st)
  | Some e => LogFailed (p_nFiles st) (p_hLinks st) e
  end.

(** [tarDir]: the writer afterwards, the line logged, and how the call
    ended.  When [dir] is not a directory the error message is built from
    [err.Error()] with [err] still nil, which panics. *)
Definition tarDir (fs : FileSystem) (tw : Writer) (dir : string)
  : Writer * logline * outcome :=
  let st0 := mkPass tw ∅ 0 0 in
  match os_Stat fs dir with
  | (_, Some e) =>
      let err := Errorf ("unable to tar files - " +:+ Error e) in
      (tw, tarDir_log st0 (Some err), Return (Some err))
  | (fi, None) =>
      if negb (IsDir fi) then
        (tw, tarDir_log st0 None,
         Panic "runtime error: invalid memory address or nil pointer dereference")
      else
        let '(st, err) := filepath_Walk (walk_steps fs dir) (walkFn dir) st0 in
        (p_tw st, tarDir_log st err, Return err)
  end.

Definition TarDir (fs : FileSystem) (tw : Writer) (dir : string)
  : Writer * logline * outcome :=
  tarDir fs tw dir.

(** The loop of [TarDirs]. *)
Fixpoint TarDirs_loop (fs : FileSystem) (tw : Writer) (dirs : list string)
  : Writer * list logline * outcome :=
  match dirs with
  | [] => (tw, [], Return None)
  | dir :: rest =>
      match TarDir fs tw dir with
      | (tw', l, Return None) =>
          let '(tw'', ls, r) := TarDirs_loop fs tw' rest in (tw'', l :: ls, r)
      | (tw', l, r) => (tw', [l], r)
      end
  end.

(** [TarDirs]: archive the directories into the stream [w].  The deferred
    [tw.Close()] runs however the loop ends; what it returns is dropped. *)
Definition TarDirs (fs : FileSystem) (w : Sink) (dirs : list string)
  : Writer * list logline * outcome :=
  let '(tw, logs, r) := TarDirs_loop fs (NewWriter w) dirs in
  (fst (Close tw), logs, r).

(** ** Configuration and collaborators *)

(** Modelled from the spec: the [Config] struct and the structs of its
    sections are declared outside the analysed sources; these are the
    fields the code reads. *)
Record ClickHouseConfig : Type := mkClickHouseConfig {
  DataPath : string
}.

Record S3Config : Type := mkS3Config {
  Path : string
}.

Record BackupConfig : Type := mkBackupConfig {
  Strategy : string;
  BackupsToKeep : Z
}.

Record Config : Type := mkConfig {
  cfg_ClickHouse : ClickHouseConfig;
  cfg_S3 : S3Config;
  cfg_Backup : BackupConfig
}.

(** The client structs as the commands build them. *)
Record ClickHouse : Type := mkClickHouse {
  ch_DryRun : bool;
  ch_Config : ClickHouseConfig
}.

Record S3 : Type := mkS3 {
  s3_DryRun : bool;
  s3_Config : S3Config
}.

(** Modelled from the spec: a stored object, of which [removeOldBackups]
    reads the last-modified time (nanoseconds, as an integer). *)
Record Object : Type := mkObject {
  Key : string;
  LastModified : Z
}.

#[global] Instance Object_eq_dec : EqDecision Object.
Proof. solve_decision. Defined.

(** What a command does to the outside, call by call, each with the answer
    it got. *)
Inductive event : Type :=
| EvLog (msg : string)
| EvChConnect (r : option error)
| EvChClose
| EvGetDataPath (r : string * option error)
| EvGetTables (r : list Table * option error)
| EvFreezeTable (t : Table) (r : option error)
| EvCreateDatabase (db : string) (r : option error)
| EvCreateTable (t : RestoreTable) (r : option error)
| EvReadDir (dir : string) (r : list FileInfo * option error)
| EvReadFile (file : string) (r : string * option error)
| EvS3Connect (r : option error)
| EvDownloadTree (remote local : string) (r : option error)
| EvDownloadArchive (name dst : string) (r : option error)
| EvListObjects (pfx : string) (r : list Object * option error)
| EvDeleteObjects (objs : list Object) (r : option error)
| EvOpen (file : string) (r : option error)
| EvUntar (file dst : string) (r : option error)
| EvRemove (file : string).

(** The methods of the ClickHouse and S3 clients, the file-system calls of
    the commands and [Untar], none of which is part of the analysed
    sources: each is an arbitrary transformer of the world state [W]. *)
Record Collaborators (W : Type) : Type := mkCollaborators {
  ch_Connect : ClickHouse -> W -> option error * W;
  ch_Close : ClickHouse -> W -> unit * W;
  ch_GetDataPath : ClickHouse -> W -> (string * option error) * W;
  ch_GetTables : ClickHouse -> W -> (list Table * option error) * W;
  ch_FreezeTable : ClickHouse -> Table -> W -> option error * W;
  ch_CreateDatabase : ClickHouse -> string -> W -> option error * W;
  ch_CreateTable : ClickHouse -> RestoreTable -> W -> option error * W;
  s3_Connect : S3 -> W -> option error * W;
  s3_DownloadTree : S3 -> string -> string -> W -> option error * W;
  s3_DownloadArchive : S3 -> string -> string -> W -> option error * W;
  s3_ListObjects : S3 -> string -> W -> (list Object * option error) * W;
  s3_DeleteObjects : S3 -> list Object -> W -> option error * W;
  ioutil_ReadDir : string -> W -> (list FileInfo * option error) * W;
  ioutil_ReadFile : string -> W -> (string * option error) * W;
  os_Open : string -> W -> option error * W;
  os_Remove : string -> W -> unit * W;
  Untar : string -> string -> W -> option error * W
}.

Arguments ch_Connect {W}.
Arguments ch_Close {W}.
Arguments ch_GetDataPath {W}.
Arguments ch_GetTables {W}.
Arguments ch_FreezeTable {W}.
Arguments ch_CreateDatabase {W}.
Arguments ch_CreateTable {W}.
Arguments s3_Connect {W}.
Arguments s3_DownloadTree {W}.
Arguments s3_DownloadArchive {W}.
Arguments s3_ListObjects {W}.
Arguments s3_DeleteObjects {W}.
Arguments ioutil_ReadDir {W}.
Arguments ioutil_ReadFile {W}.
Arguments os_Open {W}.
Arguments os_Remove {W}.
Arguments Untar {W}.

(** ** Commands as computations over the world *)

(** A command step: from a world, a result, the world afterwards and the
    events that happened, oldest first. *)
Definition M (W A : Type) : Type := W -> A * W * list event.

Definition ret {W A : Type} (a : A) : M W A := fun w => (a, w, []).

Definition bind {W A B : Type} (m : M W A) (f : A -> M W B) : M W B :=
  fun w =>
    let '(a, w1, t1) := m w in
    let '(b, w2, t2) := f a w1 in
    (b, w2, t1 ++ t2).

Notation "'let*' x ':=' c1 'in' c2" := (bind c1 (fun x => c2))
  (at level 10, x pattern, c1 at level 100, c2 at level 200, only parsing).

(** Call a collaborator and record the call with its answer. *)
Definition perform {W A : Type} (op : W -> A * W) (ev : A -> event) : M W A :=
  fun w => let '(a, w') := op w in (a, w', [ev a]).

(** [log.Printf] *)
Definition log {W : Type} (msg : string) : M W unit :=
  fun w => (tt, w, [EvLog msg]).

(** [defer cleanup]: [cleanup] runs when the rest of the function is done. *)
Definition defer {W A : Type} (cleanup : M W unit) (body : M W A) : M W A :=
  let* r := body in let* _ := cleanup in ret r.

Definition result {W A : Type} (r : A * W * list event) : A := fst (fst r).
Definition world {W A : Type} (r : A * W * list event) : W := snd (fst r).
Definition trace {W A : Type} (r : A * W * list event) : list event := snd r.

Section Commands.
Context {W : Type} (c : Collaborators W).

Definition Connect (ch : ClickHouse) : M W (option error) :=
  perform (ch_Connect c ch) EvChConnect.
Definition ChClose (ch : ClickHouse) : M W unit :=
  perform (ch_Close c ch) (fun _ => EvChClose).
Definition GetDataPath (ch : ClickHouse) : M W (string * option error) :=
  perform (ch_GetDataPath c ch) EvGetDataPath.
Definition GetTables (ch : ClickHouse) : M W (list Table * option error) :=
  perform (ch_GetTables c ch) EvGetTables.
Definition FreezeTable (ch : ClickHouse) (t : Table) : M W (option error) :=
  perform (ch_FreezeTable c ch t) (EvFreezeTable t).
Definition CreateDatabase (ch : ClickHouse) (db : string) : M W (option error) :=
  perform (ch_CreateDatabase c ch db) (EvCreateDatabase db).
Definition CreateTable (ch : ClickHouse) (t : RestoreTable) : M W (option error) :=
  perform (ch_CreateTable c ch t) (EvCreateTable t).
Definition S3Connect (s3 : S3) : M W (option error) :=
  perform (s3_Connect c s3) EvS3Connect.
Definition DownloadTree (s3 : S3) (remote local : string) : M W (option error) :=
  perform (s3_DownloadTree c s3 remote local) (EvDownloadTree remote local).
Definition DownloadArchive (s3 : S3) (name dst : string) : M W (option error) :=
  perform (s3_DownloadArchive c s3 name dst) (EvDownloadArchive name dst).
Definition ListObjects (s3 : S3) (pfx : string) : M W (list Object * option error) :=
  perform (s3_ListObjects c s3 pfx) (EvListObjects pfx).
Definition DeleteObjects (s3 : S3) (objs : list Object) : M W (option error) :=
  perform (s3_DeleteObjects c s3 objs) (EvDeleteObjects objs).
Definition ReadDir (dir : string) : M W (list FileInfo * option error) :=
  perform (ioutil_ReadDir c dir) (EvReadDir dir).
Definition ReadFile (file : string) : M W (string * option error) :=
  perform (ioutil_ReadFile c file) (EvReadFile file).
Definition Open (file : string) : M W (option error) :=
  perform (os_Open c file) (EvOpen file).
Definition Remove (file : string) : M W unit :=
  perform (os_Remove c file) (fun _ => EvRemove file).
Definition DoUntar (file dst : string) : M W (option error) :=
  perform (Untar c file dst) (EvUntar file dst).

(** Shared by the commands: the error for an unusable data path. *)
Definition data_path_error (err : option error) : error :=
  Errorf ("can't get data path from clickhouse with: " +:+ fmt_v err +:+
          "
you can set data_path in config file").

(** *** [freeze] *)

(** The loop of [freeze] over the selected tables: the first failure is
    returned. *)
Fixpoint freeze_loop (ch : ClickHouse) (tables : list Table)
  : M W (option error) :=
  match tables with
  | [] => ret None
  | table :: rest =>
      let* err := FreezeTable ch table in
      match err with
      | Some e => ret (Some e)
      | None => freeze_loop ch rest
      end
  end.

(** The check of the shadow directory listing in [freeze]: the error to
    return, if the freeze may not go on. *)
Definition shadow_check (shadowPath : string)
    (r : list FileInfo * option error) : option error :=
  match r with
  | (_, Some err) =>
      if negb (IsNotExist err) then
        Some (Errorf ("can't read " +:+ shadowPath +:+ " directory: " +:+ Error err))
      else None
  | (files, None) =>
      if (0 <? length files)%nat then
        Some (Errorf (shadowPath +:+ " is not empty, won't execute freeze"))
      else None
  end.

Definition freeze (config : Config) (args : list string) (dryRun : bool)
  : M W (option error) :=
  let ch := mkClickHouse dryRun (cfg_ClickHouse config) in
  let* err := Connect ch in
  match err with
  | Some e => ret (Some (Errorf ("can't connect to clickouse with: " +:+ Error e)))
  | None =>
      defer (ChClose ch) (
        let* (dataPath, err) := GetDataPath ch in
        if bool_decide (err ≠ None) || String.eqb dataPath "" then
          ret (Some (data_path_error err))
        else
          let* _ := log ("Found clickhouse data path: " +:+ dataPath) in
          let shadowPath := filepath_Join [dataPath; "shadow"] in
          let* listing := ReadDir shadowPath in
          match shadow_check shadowPath listing with
          | Some e => ret (Some e)
          | None =>
              let* (allTables, err) := GetTables ch in
              match err with
              | Some e =>
                  ret (Some (Errorf ("can't get Clickhouse tables with: " +:+ Error e)))
              | None =>
                  let '(backupTables, err) := parseArgsForFreeze allTables args in
                  match err with
                  | Some e => ret (Some e)
                  | None =>
                      if (length backupTables =? 0)%nat then
                        let* _ := log "There are no tables in Clickhouse, create something to freeze." in
                        ret None
                      else freeze_loop ch backupTables
                  end
              end
          end)
  end.
(** *** [createTables] *)

(** The creation statement of a definition file: the first [ATTACH] becomes
    [CREATE]. *)
Definition rewrite_query (dat : string) : string :=
  strings_Replace dat "ATTACH" "CREATE" 1.

(** Is this creation statement one of a distributed table? *)
Definition is_distributed (query : string) : bool :=
  strings_Contains query "ENGINE = Distributed".

(** What follows a call of [CreateTable]: a failure is logged, and that is
    all. *)
Definition log_failure (err : option error) : M W unit :=
  match err with
  | Some e => log ("ERROR Table creation failed: " +:+ Error e)
  | None => ret tt
  end.

(** The loop of [createTables] over the files of one database directory.
    [distributedTables] collects the tables left for later; a file that
    cannot be read ends the command with an error ([inl]). *)
Fixpoint tables_loop (ch : ClickHouse) (databaseName databaseDir : string)
    (tableFiles : list FileInfo) (distributedTables : list RestoreTable)
  : M W (error + list RestoreTable) :=
  match tableFiles with
  | [] => ret (inr distributedTables)
  | table :: rest =>
      if strings_HasSuffix (fi_Name table) "sql" then
        let tablePath := path_Join [databaseDir; fi_Name table] in
        let* _ := log ("Found table: " +:+ tablePath) in
        let* (dat, err) := ReadFile tablePath in
        match err with
        | Some e =>
            ret (inl (Errorf ("can't read file " +:+ tablePath +:+ ": " +:+ Error e)))
        | None =>
            let tableCreateQuery := rewrite_query dat in
            if is_distributed tableCreateQuery then
              let* _ := log "This is a distributed table, saving for later" in
              tables_loop ch databaseName databaseDir rest
                (distributedTables ++ [mkRestoreTable databaseName tableCreateQuery])
            else
              let* err := CreateTable ch (mkRestoreTable databaseName tableCreateQuery) in
              let* _ := log_failure err in
              tables_loop ch databaseName databaseDir rest distributedTables
        end
      else tables_loop ch databaseName databaseDir rest distributedTables
  end.

(** The loop of [createTables] over the entries of the metadata directory. *)
Fixpoint databases_loop (ch : ClickHouse) (metadataPath : string)
    (files : list FileInfo) (distributedTables : list RestoreTable)
  : M W (error + list RestoreTable) :=
  match files with
  | [] => ret (inr distributedTables)
  | file :: rest =>
      if IsDir file then
        let databaseName := fi_Name file in
        if String.eqb databaseName "system" then
          databases_loop ch metadataPath rest distributedTables
        else
          let* _ := log ("Found metadata files for database: " +:+ databaseName) in
          let* _ := CreateDatabase ch databaseName in
          let databaseDir := path_Join [metadataPath; databaseName] in
          let* _ := log ("Will analyze table information from here: " +:+ databaseDir) in
          let* (tableFiles, err) := ReadDir databaseDir in
          match err with
          | Some e =>
              ret (inl (Errorf ("can't read database directory in metadata dir: "
                                +:+ Error e)))
          | None =>
              let* r := tables_loop ch databaseName databaseDir tableFiles
                          distributedTables in
              match r with
              | inl e => ret (inl e)
              | inr distributedTables =>
                  databases_loop ch metadataPath rest distributedTables
              end
          end
      else databases_loop ch metadataPath rest distributedTables
  end.

(** The last loop of [createTables]: the tables left for later. *)
Fixpoint distributed_loop (ch : ClickHouse) (tables : list RestoreTable)
  : M W unit :=
  match tables with
  | [] => ret tt
  | table :: rest =>
      let* err := CreateTable ch table in
      let* _ := log_failure err in
      distributed_loop ch rest
  end.

Definition createTables (config : Config) (args : list string) (dryRun : bool)
  : M W (option error) :=
  let ch := mkClickHouse dryRun (cfg_ClickHouse config) in
  let* err := Connect ch in
  match err with
  | Some e => ret (Some (Errorf ("can't connect to clickouse with: " +:+ Error e)))
  | None =>
      defer (ChClose ch) (
        let* (dataPath, err) := GetDataPath ch in
        if bool_decide (err ≠ None) || String.eqb dataPath "" then
          ret (Some (data_path_error err))
        else
          let* _ := log ("Found clickhouse data path: " +:+ dataPath) in
          let metadataPath := path_Join [dataPath; "backup"; "metadata"] in
          let* _ := log ("Will analyze restored metadata from here: " +:+ metadataPath) in
          let* (files, err) := ReadDir metadataPath in
          match err with
          | Some e =>
              ret (Some (Errorf ("can't read metadata directory for creating tables: "
                                 +:+ Error e)))
          | None =>
              let* r := databases_loop ch metadataPath files [] in
              match r with
              | inl e => ret (Some e)
              | inr distributedTables =>
                  let* _ := log "Creating distributed tables" in
                  let* _ := distributed_loop ch distributedTables in
                  ret None
              end
          end)
  end.
(** *** [download] *)

Definition downloadTree (s3 : S3) (dataPath : string) : M W (option error) :=
  let* err := DownloadTree s3 "metadata" (path_Join [dataPath; "backup"; "metadata"]) in
  match err with
  | Some e => ret (Some (Errorf ("cat't download metadata from s3 with " +:+ Error e)))
  | None =>
      let* err := DownloadTree s3 "shadow" (path_Join [dataPath; "backup"; "shadow"]) in
      match err with
      | Some e => ret (Some (Errorf ("can't download shadow from s3 with " +:+ Error e)))
      | None => ret None
      end
  end.

Definition downloadArchive (s3 : S3) (dataPath filename : string)
  : M W (option error) :=
  let* err := DownloadTree s3 "metadata" (path_Join [dataPath; "backup"; "metadata"]) in
  match err with
  | Some e => ret (Some (Errorf ("cat't download metadata from s3 with " +:+ Error e)))
  | None =>
      let dstPath := path_Join [dataPath; "backup"] in
      let* err := DownloadArchive s3 filename dstPath in
      match err with
      | Some e => ret (Some (Errorf ("error downloading shadow from s3 with " +:+ Error e)))
      | None =>
          let archivePath := filepath_Join [dstPath; filepath_Base filename] in
          defer (Remove archivePath) (
            let* err := Open archivePath in
            match err with
            | Some e => ret (Some (Errorf ("error opening archive: " +:+ Error e)))
            | None =>
                let* err := DoUntar archivePath dstPath in
                match err with
                | Some e => ret (Some (Errorf ("error unarchiving: " +:+ Error e)))
                | None => ret None
                end
            end)
      end
  end.

Definition ErrNoArchiveName : error :=
  Errorf "an argument needs to be passed to download with archive strategy".

Definition ErrUnsupportedStrategy : error := Errorf "unsupported backup strategy".

(** [download] once the data path is known. *)
Definition download_from (config : Config) (args : list string) (dryRun : bool)
    (dataPath : string) : M W (option error) :=
  let s3 := mkS3 dryRun (cfg_S3 config) in
  let* err := S3Connect s3 in
  match err with
  | Some e => ret (Some (Errorf ("can't connect to s3 with: " +:+ Error e)))
  | None =>
      let backupStrategy := Strategy (cfg_Backup config) in
      if String.eqb backupStrategy "tree" then
        let* err := downloadTree s3 dataPath in
        match err with
        | Some e => ret (Some e)
        | None => ret None
        end
      else if String.eqb backupStrategy "archive" then
        let filename := parseArgsForDownload args in
        if String.eqb filename "" then ret (Some ErrNoArchiveName)
        else
          let* err := downloadArchive s3 dataPath filename in
          match err with
          | Some e => ret (Some e)
          | None => ret None
          end
      else ret (Some ErrUnsupportedStrategy)
  end.

Definition download (config : Config) (args : list string) (dryRun : bool)
  : M W (option error) :=
  let dataPath := DataPath (cfg_ClickHouse config) in
  if String.eqb dataPath "" then
    let ch := mkClickHouse dryRun (cfg_ClickHouse config) in
    let* err := Connect ch in
    match err with
    | Some e =>
        ret (Some (Errorf ("can't connect to clickhouse for get data path with: "
                           +:+ Error e +:+ "
you can set clickhouse.data_path in config")))
    | None =>
        defer (ChClose ch) (
          let* (dataPath, err) := GetDataPath ch in
          if bool_decide (err ≠ None) || String.eqb dataPath "" then
            ret (Some (data_path_error err))
          else download_from config args dryRun dataPath)
    end
  else download_from config args dryRun dataPath.

(** *** [removeOldBackups] *)

(** [time.Duration] is a 64-bit count of nanoseconds. *)
Definition minDuration : Z := - 2 ^ 63.
Definition maxDuration : Z := 2 ^ 63 - 1.

(** [t.Sub(u)]: the difference, saturated at the ends of [Duration]. *)
Definition time_Sub (t u : Z) : Z :=
  let d := t - u in
  if d <? minDuration then minDuration
  else if maxDuration <? d then maxDuration
  else d.

(** The [less] function handed to [sort.Slice]. *)
Definition older (a b : Object) : bool :=
  time_Sub (LastModified a) (LastModified b) <? 0.

(** [sort.Slice] leaves the order of equal elements open: it is any
    function the theorems assume to sort. *)
Variable sort_Slice : (Object -> Object -> bool) -> list Object -> list Object.

Definition removeOldBackups (config : Config) (s3 : S3) : M W (option error) :=
  if BackupsToKeep (cfg_Backup config) <? 1 then
    let* _ := log "Cleaning old backups is not enabled." in
    ret None
  else
    let* (objects, err) := ListObjects s3 (Path (cfg_S3 config)) in
    match err with
    | Some e => ret (Some e)
    | None =>
        let backupsToDelete :=
          Z.of_nat (length objects) - BackupsToKeep (cfg_Backup config) in
        if 0 <? backupsToDelete then
          let objects := sort_Slice older objects in
          let* _ := log ("Delete " +:+ pretty backupsToDelete +:+ " objects from s3
") in
          let* err := DeleteObjects s3 (take (Z.to_nat backupsToDelete) objects) in
          match err with
          | Some e => ret (Some e)
          | None => ret None
          end
        else ret None
    end.
End Commands.

(** ** The other commands: [getTables], [restore], [upload], [clean] *)

(** What these commands do to the outside: the calls of [event], and the
    calls only they make. *)
Inductive xevent : Type :=
| Core (ev : event)
| EvPrintf (out : string)
| EvGetBackupTables (r : gmap string BackupTable * option error)
| EvCopyData (t : BackupTable) (move : bool) (r : option error)
| EvAttachPatritions (t : BackupTable) (r : option error)
| EvUploadDirectory (local remote : string) (r : option error)
| EvUploadFile (local remote : string) (r : option error)
| EvTempFile (dir pattern : string) (r : string * option error)
| EvTarDirs (file : string) (dirs : list string) (logs : list logline)
    (r : outcome)
| EvStat (name : string) (r : FileInfo * option error)
| EvCleanDir (dir : string) (r : option error).

(** The remaining methods of the clients, [ioutil.TempFile] and [cleanDir],
    none of which is part of the analysed sources, as transformers of the
    world state; and how the world shows its files to [TarDirs] and
    [os.Stat]: [files] is the file system of a world, [writer_of] the
    [io.Writer] that a file opened for writing is, and [written] the world
    after an archive was written into that file. *)
Record Host (W : Type) : Type := mkHost {
  ch_GetBackupTables :
    ClickHouse -> W -> (gmap string BackupTable * option error) * W;
  ch_CopyData : ClickHouse -> BackupTable -> bool -> W -> option error * W;
  ch_AttachPatritions : ClickHouse -> BackupTable -> W -> option error * W;
  s3_UploadDirectory : S3 -> string -> string -> W -> option error * W;
  s3_UploadFile : S3 -> string -> string -> W -> option error * W;
  ioutil_TempFile : string -> string -> W -> (string * option error) * W;
  cleanDir : string -> W -> option error * W;
  files : W -> FileSystem;
  writer_of : string -> W -> Sink;
  written : string -> Writer -> W -> W
}.

Arguments ch_GetBackupTables {W}.
Arguments ch_CopyData {W}.
Arguments ch_AttachPatritions {W}.
Arguments s3_UploadDirectory {W}.
Arguments s3_UploadFile {W}.
Arguments ioutil_TempFile {W}.
Arguments cleanDir {W}.
Arguments files {W}.
Arguments writer_of {W}.
Arguments written {W}.

(** A step of these commands. *)
Definition X (W A : Type) : Type := W -> A * W * list xevent.

Definition xret {W A : Type} (a : A) : X W A := fun w => (a, w, []).

Definition xbind {W A B : Type} (m : X W A) (f : A -> X W B) : X W B :=
  fun w =>
    let '(a, w1, t1) := m w in
    let '(b, w2, t2) := f a w1 in
    (b, w2, t1 ++ t2).

Notation "'let+' x ':=' c1 'in' c2" := (xbind c1 (fun x => c2))
  (at level 10, x pattern, c1 at level 100, c2 at level 200, only parsing).

(** A step of the commands above, taken as it is. *)
Definition lift {W A : Type} (m : M W A) : X W A :=
  fun w => let '(a, w', t) := m w in (a, w', map Core t).

Definition xperform {W A : Type} (op : W -> A * W) (ev : A -> xevent) : X W A :=
  fun w => let '(a, w') := op w in (a, w', [ev a]).

(** [defer cleanup]; it runs as well when the function panics. *)
Definition xdefer {W A : Type} (cleanup : X W unit) (body : X W A) : X W A :=
  let+ r := body in let+ _ := cleanup in xret r.

Definition xresult {W A : Type} (r : A * W * list xevent) : A := fst (fst r).
Definition xworld {W A : Type} (r : A * W * list xevent) : W := snd (fst r).
Definition xtrace {W A : Type} (r : A * W * list xevent) : list xevent := snd r.

(** [os.IsNotExist(err)], which is false of a nil error. *)
Definition os_IsNotExist (err : option error) : bool :=
  match err with
  | Some e => IsNotExist e
  | None => false
  end.

Section OtherCommands.
Context {W : Type} (c : Collaborators W) (h : Host W).

Definition Printf (out : string) : X W unit :=
  fun w => (tt, w, [EvPrintf out]).
Definition GetBackupTables (ch : ClickHouse)
  : X W (gmap string BackupTable * option error) :=
  xperform (ch_GetBackupTables h ch) EvGetBackupTables.
Definition CopyData (ch : ClickHouse) (t : BackupTable) (move : bool)
  : X W (option error) :=
  xperform (ch_CopyData h ch t move) (EvCopyData t move).
Definition AttachPatritions (ch : ClickHouse) (t : BackupTable)
  : X W (option error) :=
  xperform (ch_AttachPatritions h ch t) (EvAttachPatritions t).
Definition UploadDirectory (s3 : S3) (local remote : string)
  : X W (option error) :=
  xperform (s3_UploadDirectory h s3 local remote) (EvUploadDirectory local remote).
Definition UploadFile (s3 : S3) (local remote : string) : X W (option error) :=
  xperform (s3_UploadFile h s3 local remote) (EvUploadFile local remote).
Definition TempFile (dir pattern : string) : X W (string * option error) :=
  xperform (ioutil_TempFile h dir pattern) (EvTempFile dir pattern).
Definition CleanDir (dir : string) : X W (option error) :=
  xperform (cleanDir h dir) (EvCleanDir dir).
Definition Stat (name : string) : X W (FileInfo * option error) :=
  xperform (fun w => (os_Stat (files h w) name, w)) (EvStat name).

(** [TarDirs(file, dirs...)] on the files of the world, into the open file
    [file]. *)
Definition DoTarDirs (file : string) (dirs : list string) : X W outcome :=
  fun w =>
    let '(tw, logs, r) := TarDirs (files h w) (writer_of h file w) dirs in
    (r, written h file tw w, [EvTarDirs file dirs logs r]).

(** *** [getTables] *)

(** The loop of [getTables]: one line per table. *)
Fixpoint print_tables (tables : list Table) : X W unit :=
  match tables with
  | [] => xret tt
  | table :: rest =>
      let+ _ := Printf (Database table +:+ "." +:+ Name table +:+ "
") in
      print_tables rest
  end.

Definition getTables (config : Config) (args : list string)
  : X W (option error) :=
  let ch := mkClickHouse false (cfg_ClickHouse config) in
  let+ err := lift (Connect c ch) in
  match err with
  | Some e => xret (Some (Errorf ("can't connect to clickouse with: " +:+ Error e)))
  | None =>
      xdefer (lift (ChClose c ch)) (
        let+ (allTables, err) := lift (GetTables c ch) in
        match err with
        | Some e => xret (Some (Errorf ("can't get tables with: " +:+ Error e)))
        | None =>
            let+ _ := print_tables allTables in
            xret None
        end)
  end.

(** *** [restore] *)

(** The loop of [restore] over the selected tables: copy the data, then
    attach the partitions; the first failure is returned. *)
Fixpoint copy_attach_loop (ch : ClickHouse) (move : bool)
    (tables : list BackupTable) : X W (option error) :=
  match tables with
  | [] => xret None
  | table :: rest =>
      let+ err := CopyData ch table move in
      match err with
      | Some e =>
          xret (Some (Errorf ("can't restore " +:+ bt_Database table +:+ "."
                              +:+ bt_Name table +:+ " increment "
                              +:+ pretty (bt_Increment table) +:+ " with "
                              +:+ Error e)))
      | None =>
          let+ err := AttachPatritions ch table in
          match err with
          | Some e =>
              xret (Some (Errorf ("can't attach partitions for table "
                                  +:+ bt_Database table +:+ "."
                                  +:+ bt_Name table +:+ " with " +:+ Error e)))
          | None => copy_attach_loop ch move rest
          end
      end
  end.

(** [iter] is the order in which the passes of [parseArgsForRestore] visit
    the map of backup tables. *)
Definition restore (iter : range_order) (config : Config) (args : list string)
    (dryRun : bool) (increments : list Z) (move : bool) : X W (option error) :=
  let ch := mkClickHouse dryRun (cfg_ClickHouse config) in
  let+ err := lift (Connect c ch) in
  match err with
  | Some e => xret (Some (Errorf ("can't connect to clickouse with: " +:+ Error e)))
  | None =>
      xdefer (lift (ChClose c ch)) (
        let+ (allTables, err) := GetBackupTables ch in
        match err with
        | Some e => xret (Some e)
        | None =>
            let '(restoreTables, err) :=
              parseArgsForRestore iter allTables args increments in
            match err with
            | Some e => xret (Some e)
            | None =>
                if (length restoreTables =? 0)%nat then
                  let+ _ := lift (log "Backup doesn't have tables to restore, nothing to do.") in
                  xret None
                else copy_attach_loop ch move restoreTables
            end
        end)
  end.

(** *** [upload] *)

Definition uploadTree (s3 : S3) (dataPath : string) : X W (option error) :=
  let+ _ := lift (log "upload metadata") in
  let+ err := UploadDirectory s3 (path_Join [dataPath; "metadata"]) "metadata" in
  match err with
  | Some e => xret (Some (Errorf ("can't upload metadata: " +:+ Error e)))
  | None =>
      let+ _ := lift (log "upload data") in
      let+ err := UploadDirectory s3 (path_Join [dataPath; "shadow"]) "shadow" in
      match err with
      | Some e => xret (Some (Errorf ("can't upload data: " +:+ Error e)))
      | None => xret None
      end
  end.

(** [uploadArchive] ends as [TarDirs] does when that panics; the deferred
    removal of the temporary file runs all the same. *)
Definition uploadArchive (s3 : S3) (dataPath : string) : X W outcome :=
  let+ (file, err) := TempFile "" "*.tar" in
  match err with
  | Some e => xret (Return (Some e))
  | None =>
      xdefer (lift (Remove c file)) (
        let+ _ := lift (log "archive data") in
        let+ r := DoTarDirs file [path_Join [dataPath; "shadow"];
                                  path_Join [dataPath; "metadata"]] in
        match r with
        | Panic msg => xret (Panic msg)
        | Return (Some e) =>
            xret (Return (Some (Errorf ("error achiving data with: " +:+ Error e))))
        | Return None =>
            let+ _ := lift (log "upload data") in
            let+ err := UploadFile s3 file (filepath_Base file) in
            match err with
            | Some e =>
                xret (Return (Some (Errorf ("can't upload archive to s3 with: "
                                            +:+ Error e))))
            | None => xret (Return None)
            end
        end)
  end.

Variable sort_Slice : (Object -> Object -> bool) -> list Object -> list Object.

(** [upload] once the data path is known. *)
Definition upload_from (config : Config) (dryRun : bool) (dataPath : string)
  : X W outcome :=
  let s3 := mkS3 dryRun (cfg_S3 config) in
  let+ err := lift (S3Connect c s3) in
  match err with
  | Some e => xret (Return (Some (Errorf ("can't connect to s3 with: " +:+ Error e))))
  | None =>
      let backupStrategy := Strategy (cfg_Backup config) in
      if String.eqb backupStrategy "tree" then
        let+ err := uploadTree s3 dataPath in
        match err with
        | Some e => xret (Return (Some e))
        | None => xret (Return None)
        end
      else if String.eqb backupStrategy "archive" then
        let+ r := uploadArchive s3 dataPath in
        match r with
        | Panic msg => xret (Panic msg)
        | Return (Some e) => xret (Return (Some e))
        | Return None =>
            let+ err := lift (removeOldBackups c sort_Slice config s3) in
            match err with
            | Some e =>
                xret (Return (Some (Errorf ("can't remove old backups: " +:+ Error e))))
            | None => xret (Return None)
            end
        end
      else xret (Return (Some ErrUnsupportedStrategy))
  end.

(** The error of [upload] and [clean] when ClickHouse cannot be reached for
    the data path. *)
Definition connect_for_data_path_error (e : error) : error :=
  Errorf ("can't connect to clickhouse to get data path with: " +:+ Error e +:+ "
you can set clickhouse.data_path in config").

Definition upload (config : Config) (dryRun : bool) : X W outcome :=
  let dataPath := DataPath (cfg_ClickHouse config) in
  if String.eqb dataPath "" then
    let ch := mkClickHouse dryRun (cfg_ClickHouse config) in
    let+ err := lift (Connect c ch) in
    match err with
    | Some e => xret (Return (Some (connect_for_data_path_error e)))
    | None =>
        xdefer (lift (ChClose c ch)) (
          let+ (dataPath, err) := lift (GetDataPath c ch) in
          if bool_decide (err ≠ None) || String.eqb dataPath "" then
            xret (Return (Some (data_path_error err)))
          else upload_from config dryRun dataPath)
    end
  else upload_from config dryRun dataPath.

(** *** [clean] *)

(** [clean] once the data path is known. *)
Definition clean_from (dryRun : bool) (dataPath : string) : X W (option error) :=
  let shadowDir := path_Join [dataPath; "shadow"] in
  let+ (_, err) := Stat shadowDir in
  if os_IsNotExist err then
    let+ _ := lift (log (shadowDir +:+ " directory does not exist, nothing to do")) in
    xret None
  else
    let+ _ := lift (log ("remove contents from directory " +:+ shadowDir)) in
    if negb dryRun then
      let+ err := CleanDir shadowDir in
      match err with
      | Some e =>
          xret (Some (Errorf ("can't remove contents from directory "
                              +:+ shadowDir +:+ ": " +:+ Error e)))
      | None => xret None
      end
    else xret None.

Definition clean (config : Config) (dryRun : bool) : X W (option error) :=
  let dataPath := DataPath (cfg_ClickHouse config) in
  if String.eqb dataPath "" then
    let ch := mkClickHouse dryRun (cfg_ClickHouse config) in
    let+ err := lift (Connect c ch) in
    match err with
    | Some e => xret (Some (connect_for_data_path_error e))
    | None =>
        xdefer (lift (ChClose c ch)) (
          let+ (dataPath, err) := lift (GetDataPath c ch) in
          if bool_decide (err ≠ None) || String.eqb dataPath "" then
            xret (Some (data_path_error err))
          else clean_from dryRun dataPath)
    end
  else clean_from dryRun dataPath.
End OtherCommands.

(** * Specification vocabulary *)

(** ** Table selection *)

Definition table_name (t : Table) : string := Sprintf_dot (Database t) (Name t).

Definition backup_name (t : BackupTable) : string :=
  Sprintf_dot (bt_Database t) (bt_Name t).

(** The flag [matched] that the selectors read off [filepath.Match]. *)
Definition matches (arg name : string) : bool := fst (filepath_Match arg name).

(** [filepath.Match] answered "matched" and reported no error. *)
Definition accepts (arg name : string) : bool :=
  bool_decide (filepath_Match arg name = (true, None)).

(** The increment test of [parseArgsForRestore]. *)
Definition wanted (increments : list Z) (t : BackupTable) : bool :=
  (length increments =? 0)%nat || has_increment increments (bt_Increment t).

(** [result] is ordered as [catalog] is: any two of its entries, in the
    order the result lists them, are found in that order in the catalog. *)
Definition follows_order {A : Type} (catalog result : list A) : Prop :=
  forall (i j : nat) (x y : A),
    (i < j)%nat -> result !! i = Some x -> result !! j = Some y ->
    exists p q : nat, (p <= q)%nat /\ catalog !! p = Some x /\ catalog !! q = Some y.

(** The blocks of [parseArgsForRestore], one per pattern; [i] numbers the
    passes over the catalog. *)
Fixpoint restore_blocks (iter : range_order) (tables : gmap string BackupTable)
    (increments : list Z) (i : nat) (args : list string) : list (list BackupTable) :=
  match args with
  | [] => []
  | arg :: rest =>
      List.filter (fun t => matches arg (backup_name t) && wanted increments t)
        (range_values iter i tables)
      :: restore_blocks iter tables increments (S i) rest
  end.

(** ** An archive pass *)

(** The steps of a walk that are files: everything but directories. *)
Definition is_file (s : WalkStep) : bool := negb (IsDir (ws_info s)).

Definition identity (s : WalkStep) : devino := fi_Sys (ws_info s).

Definition same_identity (d : devino) (s : WalkStep) : bool :=
  bool_decide (identity s = d).

(** The header [walkFn] writes for a file met for the first time. *)
Definition first_header (dir : string) (s : WalkStep) : Header :=
  let h := fst (FileInfoHeader (ws_info s) "") in
  mkHeader (h_Typeflag h) (archive_name dir (ws_file s)) (h_Linkname h)
    (h_Size h) (h_Mode h) (h_ModTime h).

(** The same for a regular file: a content entry. *)
Definition content_header (dir : string) (s : WalkStep) : Header :=
  mkHeader TypeReg (archive_name dir (ws_file s)) "" (fi_Size (ws_info s))
    (header_mode (ws_info s)) (fi_ModTime (ws_info s)).

(** The header [walkFn] writes for a file whose identity was seen at [orig]:
    a link entry. *)
Definition link_header (dir orig : string) (s : WalkStep) : Header :=
  mkHeader TypeLink (archive_name dir (ws_file s)) orig 0
    (header_mode (ws_info s)) (fi_ModTime (ws_info s)).

(** The headers of a pass over [files] that starts from the map [seen]. *)
Fixpoint plan (dir : string) (seen : gmap devino string) (files : list WalkStep)
  : list Header :=
  match files with
  | [] => []
  | f :: rest =>
      match seen !! identity f with
      | Some orig => link_header dir orig f :: plan dir seen rest
      | None =>
          first_header dir f
          :: plan dir (<[identity f := archive_name dir (ws_file f)]> seen) rest
      end
  end.

(** Among the headers [hs], written for [files] one by one, those of the
    files of identity [d]. *)
Definition headers_of (d : devino) (files : list WalkStep) (hs : list Header)
  : list Header :=
  map snd (List.filter (fun p => same_identity d (fst p)) (zip files hs)).

Definition is_link (h : Header) : bool := bool_decide (h_Typeflag h = TypeLink).

(** ** Commands *)

(** Every run of [m] ends with a result and a trace that satisfy [Q]. *)
Definition sat {W A : Type} (m : M W A) (Q : A -> list event -> Prop) : Prop :=
  forall w : W, Q (result (m w)) (trace (m w)).

Definition is_freeze_call (ev : event) : bool :=
  match ev with
  | EvFreezeTable _ _ => true
  | _ => false
  end.

(** The listing of the shadow directory forbids a freeze: it failed for
    another reason than the directory being absent, or it is not empty. *)
Definition shadow_blocked (listing : list FileInfo * option error) : bool :=
  match listing with
  | (_, Some err) => negb (IsNotExist err)
  | (files, None) => negb (length files =? 0)%nat
  end.

Definition is_create (ev : event) : bool :=
  match ev with
  | EvCreateTable _ _ => true
  | _ => false
  end.

(** The creation of a table that is not distributed. *)
Definition creates_base (ev : event) : bool :=
  match ev with
  | EvCreateTable t _ => negb (is_distributed (rt_Query t))
  | _ => false
  end.

Definition creates_distributed (ev : event) : bool :=
  match ev with
  | EvCreateTable t _ => is_distributed (rt_Query t)
  | _ => false
  end.

Definition no_distributed (tr : list event) : Prop :=
  Forall (fun ev => creates_distributed ev = false) tr.

Definition no_base (tr : list event) : Prop :=
  Forall (fun ev => creates_base ev = false) tr.

Definition all_distributed (ts : list RestoreTable) : Prop :=
  Forall (fun t => is_distributed (rt_Query t) = true) ts.

(** What the first two loops of [createTables] guarantee: no distributed
    table is created, and the tables left for later are all distributed. *)
Definition first_pass (r : error + list RestoreTable) (tr : list event) : Prop :=
  no_distributed tr
  /\ match r with inr dts => all_distributed dts | inl _ => True end.

(** The trace splits in two: first no distributed creation, then no other. *)
Definition base_then_distributed (tr : list event) : Prop :=
  exists pre post, tr = pre ++ post /\ no_distributed pre /\ no_base post.

(** The collaborators [c], except that [CreateTable] reports success
    whatever happened; it changes the world as before. *)
Definition silence {W : Type} (c : Collaborators W) : Collaborators W :=
  mkCollaborators W
    (ch_Connect c) (ch_Close c) (ch_GetDataPath c) (ch_GetTables c)
    (ch_FreezeTable c) (ch_CreateDatabase c)
    (fun ch t w => (None, snd (ch_CreateTable c ch t w)))
    (s3_Connect c) (s3_DownloadTree c) (s3_DownloadArchive c)
    (s3_ListObjects c) (s3_DeleteObjects c)
    (ioutil_ReadDir c) (ioutil_ReadFile c) (os_Open c) (os_Remove c) (Untar c).

(** A call as seen from outside: log lines are dropped and the answer to
    [CreateTable] is forgotten. *)
Definition observable (ev : event) : option event :=
  match ev with
  | EvLog _ => None
  | EvCreateTable t _ => Some (EvCreateTable t None)
  | _ => Some ev
  end.

Definition calls (tr : list event) : list event := omap observable tr.

(** Every failed [CreateTable] is followed at once by its log line. *)
Fixpoint failures_logged (tr : list event) : bool :=
  match tr with
  | [] => true
  | EvCreateTable _ (Some e) :: rest =>
      match rest with
      | EvLog msg :: rest' =>
          String.eqb msg ("ERROR Table creation failed: " +:+ Error e)
          && failures_logged rest'
      | _ => false
      end
  | _ :: rest => failures_logged rest
  end.

Definition logged (tr : list event) : Prop := failures_logged tr = true.

(** Two runs agree on the world they leave and on the calls they made, and
    their results are related by [rel]. *)
Definition same_run {W A : Type} (rel : A -> A -> Prop)
    (r1 r2 : A * W * list event) : Prop :=
  rel (result r1) (result r2)
  /\ world r1 = world r2
  /\ calls (trace r1) = calls (trace r2).

Definition sim {W A : Type} (rel : A -> A -> Prop) (m1 m2 : M W A) : Prop :=
  forall w : W, same_run rel (m1 w) (m2 w).

(** The answers that end [createTables] early: no connection, no data
    path, a directory or a definition file that cannot be read. *)
Definition aborts (ev : event) : bool :=
  match ev with
  | EvChConnect (Some _) => true
  | EvGetDataPath (dataPath, err) =>
      bool_decide (err <> None) || String.eqb dataPath ""
  | EvReadDir _ (_, Some _) => true
  | EvReadFile _ (_, Some _) => true
  | _ => false
  end.

Definition aborted (tr : list event) : bool := existsb aborts tr.

Definition failed {A : Type} (r : error + A) : bool :=
  match r with inl _ => true | inr _ => false end.

Definition returned_error (r : option error) : bool :=
  match r with Some _ => true | None => false end.

(** A call that moves backup data, or touches the local archive copy. *)
Definition is_transfer (ev : event) : bool :=
  match ev with
  | EvDownloadTree _ _ _ | EvDownloadArchive _ _ _ | EvOpen _ _
  | EvUntar _ _ _ | EvRemove _ => true
  | _ => false
  end.

(** [a] is not newer than [b], as [sort.Slice] is told. *)
Definition not_newer (a b : Object) : Prop := older b a = false.

(** One function that sorts: merge sort by the order [less] induces. *)
Definition merge_sort_by (less : Object -> Object -> bool) (l : list Object)
  : list Object :=
  @merge_sort Object (fun a b => less b a = false)
    (fun a b => bool_eq_dec (less b a) false) l.

(** ** Vocabulary for the further properties *)

(** The name of a directory entry: not empty, not a dot name, no slash. *)
Definition entry_name (n : string) : Prop :=
  n <> "" /\ n <> "." /\ n <> ".." /\ strings_Contains n "/" = false.

(** The path [filepath.Walk] passes for the entry reached from [root]
    through the directory entries [names]: at every level Walk joins the
    path of the directory and the name of the entry with [filepath.Join]. *)
Definition walked (root : string) (names : list string) : string :=
  fold_left (fun p n => filepath_Join [p; n]) names root.

(** The body bytes a header lets the writer take: none for a member that is
    not a regular file. *)
Definition announced (h : Header) : Z :=
  if isHeaderOnlyType (h_Typeflag h) then 0 else Z.max 0 (h_Size h).

(** The body of a member is no longer than its header announces. *)
Definition body_fits (e : Entry) : Prop :=
  Z.of_nat (String.length (e_body e)) <= announced (e_hdr e).

(** What the writer keeps: the bodies fit, and the last member has room for
    the bytes the writer still accepts. *)
Definition writer_ok (tw : Writer) : Prop :=
  Forall body_fits (tw_entries tw)
  /\ match last (tw_entries tw) with
     | None => tw_nb tw <= 0
     | Some e =>
         Z.of_nat (String.length (e_body e)) + Z.max 0 (tw_nb tw)
         <= announced (e_hdr e)
     end.

(** A symbolic link entry that names no target. *)
Definition no_target (h : Header) : Prop :=
  h_Typeflag h = TypeSymlink -> h_Linkname h = "".

(** A writer that owes no bytes, on a stream that takes whatever is written. *)
Definition ready (tw : Writer) : Prop :=
  tw_err tw = None /\ tw_nb tw <= 0 /\ sk_capacity (tw_w tw) = None.

(** A regular file whose reading delivers fewer bytes than its size. *)
Definition reads_short (s : WalkStep) : Prop :=
  ws_err s = None /\ fi_Type (ws_info s) = ModeRegular /\ ws_open_err s = None
  /\ Z.of_nat (String.length (ws_data s)) < fi_Size (ws_info s).

(** Every link among the headers [hs] names a member stored before it that
    is not a link itself. *)
Definition links_resolve (hs : list Header) : Prop :=
  forall pre h post,
    hs = pre ++ h :: post -> h_Typeflag h = TypeLink ->
    exists h0, In h0 pre /\ h_Name h0 = h_Linkname h /\ h_Typeflag h0 <> TypeLink.

(** Every name the map of seen identities holds is the name of a member of
    [hs] that is not a link. *)
Definition seen_stored (seen : gmap devino string) (hs : list Header) : Prop :=
  forall d name, seen !! d = Some name ->
    exists h0, In h0 hs /\ h_Name h0 = name /\ h_Typeflag h0 <> TypeLink.

(** The headers of the members of a writer. *)
Definition headers (tw : Writer) : list Header := map e_hdr (tw_entries tw).

(** What the callback keeps: links resolve, and the map of seen identities
    holds names of stored members. *)
Definition pass_ok (st : pass) : Prop :=
  links_resolve (headers (p_tw st)) /\ seen_stored (p_seen st) (headers (p_tw st)).

(** The number of links among the headers [hs]. *)
Definition links_in (hs : list Header) : Z :=
  Z.of_nat (length (List.filter is_link hs)).

(** From [st] to [st'] the headers [hs] were added, and counted. *)
Definition counted (st st' : pass) (hs : list Header) : Prop :=
  headers (p_tw st') = headers (p_tw st) ++ hs
  /\ p_hLinks st' - p_hLinks st = links_in hs
  /\ (p_nFiles st' - p_nFiles st) + (p_hLinks st' - p_hLinks st)
     = Z.of_nat (length hs).

(** The headers of one pass over the root [dir]: the plan of its files,
    started from the empty map. *)
Definition root_plan (fs : FileSystem) (dir : string) : list Header :=
  plan dir ∅ (List.filter is_file (walk_steps fs dir)).

(** How often [x] occurs in [l]. *)
Definition occurrences {A : Type} `{EqDecision A} (x : A) (l : list A) : nat :=
  length (List.filter (fun y => bool_decide (y = x)) l).

(** Every event of every run of [m] satisfies [P], and its result [R]. *)
Definition yields {W A : Type} (P : event -> Prop) (R : A -> Prop) (m : M W A)
  : Prop :=
  forall w : W, Forall P (trace (m w)) /\ R (result (m w)).

(** A call to ClickHouse that opens or closes the connection. *)
Definition is_connection (ev : event) : bool :=
  match ev with
  | EvChConnect _ | EvChClose => true
  | _ => false
  end.

(** A call to ClickHouse. *)
Definition is_clickhouse (ev : event) : bool :=
  match ev with
  | EvChConnect _ | EvChClose | EvGetDataPath _ | EvGetTables _
  | EvFreezeTable _ _ | EvCreateDatabase _ _ | EvCreateTable _ _ => true
  | _ => false
  end.

(** The trace of a command that needs ClickHouse: either the connection
    failed and nothing else happened, or it was made first and closed last,
    and not touched in between. *)
Definition opens_and_closes (tr : list event) : Prop :=
  (exists e, tr = [EvChConnect (Some e)])
  \/ (exists mid, tr = EvChConnect None :: mid ++ [EvChClose]
                  /\ Forall (fun ev => is_connection ev = false) mid).

(** A creation in the [system] database. *)
Definition touches_system (ev : event) : bool :=
  match ev with
  | EvCreateDatabase db _ => String.eqb db "system"
  | EvCreateTable t _ => String.eqb (rt_Database t) "system"
  | _ => false
  end.

(** The calls of [FreezeTable] in a trace, with their answers. *)
Definition freeze_calls (tr : list event) : list (Table * option error) :=
  omap (fun ev => match ev with
                  | EvFreezeTable t r => Some (t, r)
                  | _ => None
                  end) tr.

(** A call of [os.Remove]. *)
Definition is_remove (ev : event) : bool :=
  match ev with
  | EvRemove _ => true
  | _ => false
  end.

(** A call of [DownloadArchive] that succeeded. *)
Definition archive_fetched (ev : event) : bool :=
  match ev with
  | EvDownloadArchive _ _ None => true
  | _ => false
  end.

(** Starting after any history that satisfies [Pre], every run of [m] ends
    with a result and a history that satisfy [Post]. *)
Definition hoare {W A : Type} (Pre : list event -> Prop) (m : M W A)
    (Post : A -> list event -> Prop) : Prop :=
  forall (w : W) (t0 : list event),
    Pre t0 -> Post (result (m w)) (t0 ++ trace (m w)).

(** The statement [q] is the content of a definition file read in [tr], its
    first ATTACH replaced by CREATE. *)
Definition sourced (tr : list event) (q : string) : Prop :=
  exists file dat,
    In (EvReadFile file (dat, None)) tr
    /\ q = strings_Replace dat "ATTACH" "CREATE" 1.

(** Every table creation of [tr] executes a statement read before it. *)
Definition creations_sourced (tr : list event) : Prop :=
  forall pre t r post,
    tr = pre ++ EvCreateTable t r :: post -> sourced pre (rt_Query t).

(** What the loops of [createTables] keep: the creations so far are
    sourced, and so are the tables left for later. *)
Definition sourced_so_far (dts : list RestoreTable) (tr : list event) : Prop :=
  creations_sourced tr /\ Forall (fun t => sourced tr (rt_Query t)) dts.

(** The same, for what a loop returns: the tables left for later, or an
    error. *)
Definition left_sourced (r : error + list RestoreTable) (tr : list event) : Prop :=
  match r with
  | inr dts => sourced_so_far dts tr
  | inl _ => creations_sourced tr
  end.

(** The tables handed to [CreateTable] in [tr], in the order of the calls. *)
Definition created (tr : list event) : list RestoreTable :=
  omap (fun ev => match ev with EvCreateTable t _ => Some t | _ => None end) tr.

(** The database created last in [tr]; [db] when there is none. *)
Fixpoint database_after (db : string) (tr : list event) : string :=
  match tr with
  | [] => db
  | EvCreateDatabase db' _ :: rest => database_after db' rest
  | _ :: rest => database_after db rest
  end.

(** The tables that the definition files read with success in [tr] define,
    in the order of the reads: the statement is the content of the file, its
    first ATTACH replaced by CREATE, and the database is the one created
    last before the file was read ([db] when there is none). *)
Fixpoint definitions_read (db : string) (tr : list event) : list RestoreTable :=
  match tr with
  | [] => []
  | EvCreateDatabase db' _ :: rest => definitions_read db' rest
  | EvReadFile _ (dat, None) :: rest =>
      mkRestoreTable db (rewrite_query dat) :: definitions_read db rest
  | _ :: rest => definitions_read db rest
  end.

Definition distributed_table (t : RestoreTable) : bool :=
  is_distributed (rt_Query t).

Definition base_table (t : RestoreTable) : bool :=
  negb (is_distributed (rt_Query t)).

(** What the first two loops of [createTables] keep: the tables created so
    far are the tables read so far that are not distributed, and the tables
    left for later are the distributed ones. *)
Definition created_so_far (dts : list RestoreTable) (tr : list event) : Prop :=
  created tr = List.filter base_table (definitions_read "" tr)
  /\ dts = List.filter distributed_table (definitions_read "" tr).

(** What the last loop keeps: with the tables still to create, the tables
    created are the tables read, the distributed ones last. *)
Definition owed (dts : list RestoreTable) (tr : list event) : Prop :=
  created tr ++ dts
  = List.filter base_table (definitions_read "" tr)
    ++ List.filter distributed_table (definitions_read "" tr).

(** What a run of [createTables] that returned [r] has created: the tables
    read that are not distributed and then, unless the run was stopped, the
    distributed ones. *)
Definition all_created (r : option error) (tr : list event) : Prop :=
  created tr
  = List.filter base_table (definitions_read "" tr)
    ++ match r with
       | None => List.filter distributed_table (definitions_read "" tr)
       | Some _ => []
       end.

(** The table that the definition read after [pre] defines. *)
Definition table_read (pre : list event) (dat : string) : RestoreTable :=
  mkRestoreTable (database_after "" pre) (rewrite_query dat).

(** Every definition file read with success in [tr] has had its table
    created since, or the table is among [dts]. *)
Definition owing (dts : list RestoreTable) (tr : list event) : Prop :=
  forall pre file dat post,
    tr = pre ++ EvReadFile file (dat, None) :: post ->
    In (table_read pre dat) (created post ++ dts).

(** The same inside the loops over the metadata: the tables left for later
    are distributed. *)
Definition pending (dts : list RestoreTable) (tr : list event) : Prop :=
  owing dts tr /\ Forall (fun t => distributed_table t = true) dts.

(** In a run that returned [r], the table of a definition file read with
    success was created after the file was read, if the table is not
    distributed or the run was not stopped. *)
Definition reaches_CreateTable (r : option error) (tr : list event) : Prop :=
  forall pre file dat post,
    tr = pre ++ EvReadFile file (dat, None) :: post ->
    is_distributed (rewrite_query dat) = false \/ r = None ->
    In (table_read pre dat) (created post).

(** An event that neither creates nor reads a definition. *)
Definition neutral (ev : event) : bool :=
  match ev with
  | EvCreateTable _ _ | EvCreateDatabase _ _ | EvReadFile _ (_, None) => false
  | _ => true
  end.

Definition is_listing (ev : event) : bool :=
  match ev with
  | EvReadDir _ _ => true
  | _ => false
  end.

(** The error [createTables] returns when the call [ev], made after the
    calls of [pre], stops it: the first listing is that of the metadata
    directory, the later ones list database directories. *)
Definition abort_error (pre : list event) (ev : event) : option error :=
  match ev with
  | EvChConnect (Some e) =>
      Some (Errorf ("can't connect to clickouse with: " +:+ Error e))
  | EvGetDataPath (dataPath, err) =>
      if bool_decide (err <> None) || String.eqb dataPath ""
      then Some (data_path_error err) else None
  | EvReadDir _ (_, Some e) =>
      Some (Errorf ((if existsb is_listing pre
                     then "can't read database directory in metadata dir: "
                     else "can't read metadata directory for creating tables: ")
                    +:+ Error e))
  | EvReadFile file (_, Some e) =>
      Some (Errorf ("can't read file " +:+ file +:+ ": " +:+ Error e))
  | _ => None
  end.

(** The run so far met no failure that stops it; [listed] tells whether a
    directory was listed. *)
Definition running (listed : bool) (tr : list event) : Prop :=
  aborted tr = false /\ existsb is_listing tr = listed.

(** The run has just been stopped, with the error [e], by its last call. *)
Definition stopped (e : error) (tr : list event) : Prop :=
  exists pre ev,
    tr = pre ++ [ev] /\ aborted pre = false /\ aborts ev = true
    /\ abort_error pre ev = Some e /\ (forall r, ev <> EvChConnect r).

(** How a run that was stopped looks: the calls before the failing one met
    no such failure, the error returned is the one of the failing call, and
    nothing follows but the closing of the connection, if there is one. *)
Definition stops_at_once (r : option error) (tr : list event) : Prop :=
  aborted tr = true ->
  exists pre ev post,
    tr = pre ++ ev :: post
    /\ aborted pre = false /\ aborts ev = true
    /\ r = abort_error pre ev
    /\ post = match ev with EvChConnect _ => [] | _ => [EvChClose] end.

(** The collaborators [c], except that [CreateDatabase] reports success
    whatever happened; it changes the world as before. *)
Definition trusting {W : Type} (c : Collaborators W) : Collaborators W :=
  mkCollaborators W
    (ch_Connect c) (ch_Close c) (ch_GetDataPath c) (ch_GetTables c)
    (ch_FreezeTable c)
    (fun ch db w => (None, snd (ch_CreateDatabase c ch db w)))
    (ch_CreateTable c)
    (s3_Connect c) (s3_DownloadTree c) (s3_DownloadArchive c)
    (s3_ListObjects c) (s3_DeleteObjects c)
    (ioutil_ReadDir c) (ioutil_ReadFile c) (os_Open c) (os_Remove c) (Untar c).

(** An event, the answer to [CreateDatabase] forgotten. *)
Definition forget_database (ev : event) : event :=
  match ev with
  | EvCreateDatabase db _ => EvCreateDatabase db None
  | _ => ev
  end.

(** Two commands that return the same, leave the same world and do the
    same, up to the answers to [CreateDatabase]. *)
Definition agree {W A : Type} (m1 m2 : M W A) : Prop :=
  forall w : W,
    result (m1 w) = result (m2 w)
    /\ world (m1 w) = world (m2 w)
    /\ map forget_database (trace (m1 w)) = map forget_database (trace (m2 w)).

(** The lines written by [fmt.Printf]. *)
Definition printed (tr : list xevent) : list string :=
  omap (fun ev => match ev with EvPrintf out => Some out | _ => None end) tr.

(** The line [getTables] prints for a table. *)
Definition table_line (t : Table) : string :=
  Database t +:+ "." +:+ Name t +:+ "
".

(** The calls of [restore] that move data, in the order they were made. *)
Definition restore_calls (tr : list xevent) : list xevent :=
  List.filter (fun ev => match ev with
                         | EvCopyData _ _ _ | EvAttachPatritions _ _ => true
                         | _ => false
                         end) tr.

(** What [restore] does for [tables] when nothing fails. *)
Definition restore_plan (move : bool) (tables : list BackupTable) : list xevent :=
  flat_map (fun t => [EvCopyData t move None; EvAttachPatritions t None]) tables.

(** [yields], for the other commands. *)
Definition xyields {W A : Type} (P : xevent -> Prop) (R : A -> Prop) (m : X W A)
  : Prop :=
  forall w : W, Forall P (xtrace (m w)) /\ R (xresult (m w)).

(** [is_connection], [is_clickhouse] and [opens_and_closes], for the other
    commands. *)
Definition is_xconnection (ev : xevent) : bool :=
  match ev with
  | Core ev => is_connection ev
  | _ => false
  end.

Definition is_xclickhouse (ev : xevent) : bool :=
  match ev with
  | Core ev => is_clickhouse ev
  | EvGetBackupTables _ | EvCopyData _ _ _ | EvAttachPatritions _ _ => true
  | _ => false
  end.

Definition xopens_and_closes (tr : list xevent) : Prop :=
  (exists e, tr = [Core (EvChConnect (Some e))])
  \/ (exists mid, tr = Core (EvChConnect None) :: mid ++ [Core EvChClose]
                  /\ Forall (fun ev => is_xconnection ev = false) mid).

(** A call that lists or deletes stored backups. *)
Definition is_retention (ev : xevent) : bool :=
  match ev with
  | Core (EvListObjects _ _) | Core (EvDeleteObjects _ _) => true
  | _ => false
  end.

(** No stored backup is listed or deleted before an archive was uploaded
    with success. *)
Definition uploaded_first (tr : list xevent) : Prop :=
  Forall (fun ev => is_retention ev = false) tr
  \/ exists pre file remote post,
       tr = pre ++ EvUploadFile file remote None :: post
       /\ Forall (fun ev => is_retention ev = false) pre.

(** A call that uploads. *)
Definition is_upload (ev : xevent) : bool :=
  match ev with
  | EvUploadDirectory _ _ _ | EvUploadFile _ _ _ => true
  | _ => false
  end.

(** A call of [os.Remove]. *)
Definition is_xremove (ev : xevent) : bool :=
  match ev with
  | Core (EvRemove _) => true
  | _ => false
  end.

(** [TarDirs] was called and panicked with [msg]. *)
Definition panicked (tr : list xevent) (msg : string) : Prop :=
  exists file dirs logs, In (EvTarDirs file dirs logs (Panic msg)) tr.

(** The calls of [cleanDir], with their answers. *)
Definition cleaned (tr : list xevent) : list (string * option error) :=
  omap (fun ev => match ev with EvCleanDir d r => Some (d, r) | _ => None end) tr.

(** A call of [TarDirs]. *)
Definition is_tar (ev : xevent) : bool :=
  match ev with
  | EvTarDirs _ _ _ _ => true
  | _ => false
  end.

(** * Example data *)

(** ** File systems *)

Definition dir_info (name : string) (ino : N) : FileInfo :=
  mkFileInfo name 4096 ModeDir 493 false false false 0 (mkDevino 1 ino).

Definition file_info (name : string) (size : Z) (ino : N) : FileInfo :=
  mkFileInfo name size ModeRegular 420 false false false 0 (mkDevino 1 ino).

Definition visit_dir (file name : string) (ino : N) : WalkStep :=
  mkWalkStep file (dir_info name ino) None None "" None.

Definition visit_file (file name data : string) (ino : N) : WalkStep :=
  mkWalkStep file (file_info name (Z.of_nat (String.length data)) ino)
    None None data None.

Definition no_such_file (p : string) : FileInfo * option error :=
  (dir_info "" 0,
   Some (mkError ("stat " +:+ p +:+ ": no such file or directory") true)).

(** A snapshot directory with three links to one file and one other file; a
    metadata directory with one more link to that file; and a plain file. *)
Definition shadow_fs : FileSystem :=
  mkFileSystem
    (fun p =>
       if String.eqb p "/data/shadow" then (dir_info "shadow" 2, None)
       else if String.eqb p "/data/metadata" then (dir_info "metadata" 6, None)
       else if String.eqb p "/data/notes.txt" then (file_info "notes.txt" 3 9, None)
       else no_such_file p)
    (fun p =>
       if String.eqb p "/data/shadow" then
         [visit_dir "/data/shadow" "shadow" 2;
          visit_dir "/data/shadow/1" "1" 3;
          visit_file "/data/shadow/1/a.bin" "a.bin" "hello" 10;
          visit_dir "/data/shadow/2" "2" 4;
          visit_file "/data/shadow/2/a.bin" "a.bin" "hello" 10;
          visit_file "/data/shadow/2/b.bin" "b.bin" "xy" 11;
          visit_dir "/data/shadow/3" "3" 5;
          visit_file "/data/shadow/3/a.bin" "a.bin" "hello" 10]
       else if String.eqb p "/data/metadata" then
         [visit_dir "/data/metadata" "metadata" 6;
          visit_file "/data/metadata/a.bin" "a.bin" "hello" 10]
       else []).

(** A stream that never fills up. *)
Definition disk : Sink := mkSink 0 None.

Definition hardlinked : devino := mkDevino 1 10.

Definition EIO : error :=
  mkError "read /data/shadow/a.bin: input/output error" false.

(** One file of five bytes; reading it fails after two. *)
Definition torn_file : WalkStep :=
  mkWalkStep "/data/shadow/a.bin" (file_info "a.bin" 5 10) None None "he" (Some EIO).

Definition torn_fs : FileSystem :=
  mkFileSystem
    (fun p => if String.eqb p "/data/shadow" then (dir_info "shadow" 2, None)
              else no_such_file p)
    (fun p => if String.eqb p "/data/shadow"
              then [visit_dir "/data/shadow" "shadow" 2; torn_file]
              else []).

(** ** Catalogs *)

Definition ta : Table := mkTable "a" "t".
Definition tb : Table := mkTable "b" "t".
Definition bta : BackupTable := mkBackupTable "a" "t" 1 [].
Definition btb : BackupTable := mkBackupTable "b" "t" 2 [].

Definition two_backups : gmap string BackupTable :=
  <["k2" := btb]> (<["k1" := bta]> ∅).

(** A runtime that visits the map in the same order on every pass. *)
Definition iter_stable : range_order := fun _ l => l.

(** ** Worlds *)

(** Collaborators without state: every call succeeds, but for the answers
    given here. *)
Definition quiet_world (dataPath : string) (tables : list Table)
    (readDir : string -> list FileInfo * option error)
    (readFile : string -> string * option error)
    (createTable : RestoreTable -> option error)
    (objects : list Object) : Collaborators unit :=
  mkCollaborators unit
    (fun _ w => (None, w)) (fun _ w => (tt, w))
    (fun _ w => ((dataPath, None), w))
    (fun _ w => ((tables, None), w))
    (fun _ _ w => (None, w))
    (fun _ _ w => (None, w))
    (fun _ t w => (createTable t, w))
    (fun _ w => (None, w))
    (fun _ _ _ w => (None, w))
    (fun _ _ _ w => (None, w))
    (fun _ _ w => ((objects, None), w))
    (fun _ _ w => (None, w))
    (fun dir w => (readDir dir, w))
    (fun file w => (readFile file, w))
    (fun _ w => (None, w))
    (fun _ w => (tt, w))
    (fun _ _ w => (None, w)).

Definition config_with (dataPath strategy : string) (keep : Z) : Config :=
  mkConfig (mkClickHouseConfig dataPath) (mkS3Config "backups/")
    (mkBackupConfig strategy keep).

Definition cfg : Config := config_with "" "archive" 2.

Definition no_dir (dir : string) : list FileInfo * option error :=
  ([], Some (mkError ("open " +:+ dir +:+ ": no such file or directory") true)).

Definition no_file (file : string) : string * option error :=
  ("", Some (mkError ("open " +:+ file +:+ ": no such file or directory") true)).

Definition entry (name : string) (type : FileType) : FileInfo :=
  mkFileInfo name 0 type 420 false false false 0 (mkDevino 1 0).

Definition metadata_dir : string := "/var/lib/clickhouse/backup/metadata".

(** A metadata tree: a stray file, the [system] database, and database
    [shop] with a distributed table listed before the table it is based
    on.  The shadow directory is empty. *)
Definition shop_readDir (dir : string) : list FileInfo * option error :=
  if String.eqb dir metadata_dir then
    ([entry "notes.txt" ModeRegular; entry "shop" ModeDir; entry "system" ModeDir],
     None)
  else if String.eqb dir (metadata_dir +:+ "/shop") then
    ([entry "all_orders.sql" ModeRegular; entry "orders.sql" ModeRegular;
      entry "readme.md" ModeRegular], None)
  else if String.eqb dir "/var/lib/clickhouse/shadow" then ([], None)
  else no_dir dir.

Definition all_orders_sql : string :=
  "ATTACH TABLE all_orders (id UInt64) ENGINE = Distributed(cluster, shop, orders)".

Definition orders_sql : string :=
  "ATTACH TABLE orders (id UInt64) ENGINE = MergeTree ORDER BY id".

Definition shop_readFile (file : string) : string * option error :=
  if String.eqb file (metadata_dir +:+ "/shop/all_orders.sql")
  then (all_orders_sql, None)
  else if String.eqb file (metadata_dir +:+ "/shop/orders.sql")
  then (orders_sql, None)
  else no_file file.

Definition all_orders : RestoreTable :=
  mkRestoreTable "shop"
    "CREATE TABLE all_orders (id UInt64) ENGINE = Distributed(cluster, shop, orders)".

Definition orders : RestoreTable :=
  mkRestoreTable "shop"
    "CREATE TABLE orders (id UInt64) ENGINE = MergeTree ORDER BY id".

Definition already_exists : error :=
  Errorf "code: 57, message: Table shop.orders already exists".

(** Creating [orders] fails; everything else succeeds. *)
Definition shop_createTable (t : RestoreTable) : option error :=
  if is_distributed (rt_Query t) then None else Some already_exists.

Definition four_backups : list Object :=
  [mkObject "c.tar" 3000; mkObject "a.tar" 1000;
   mkObject "d.tar" 4000; mkObject "b.tar" 2000].

Definition shop_world : Collaborators unit :=
  quiet_world "/var/lib/clickhouse" [mkTable "shop" "orders"]
    shop_readDir shop_readFile shop_createTable four_backups.

Definition permission_denied (file : string) : error :=
  mkError ("open " +:+ file +:+ ": permission denied") false.

(** The same tree, where the first definition file cannot be read. *)
Definition unreadable_readFile (file : string) : string * option error :=
  if String.eqb file (metadata_dir +:+ "/shop/all_orders.sql")
  then ("", Some (permission_denied file))
  else shop_readFile file.

Definition unreadable_world : Collaborators unit :=
  quiet_world "/var/lib/clickhouse" [] shop_readDir unreadable_readFile
    (fun _ => None) [].

(** A world whose shadow directory still holds an old snapshot. *)
Definition stale_readDir (dir : string) : list FileInfo * option error :=
  if String.eqb dir "/var/lib/clickhouse/shadow" then ([entry "1" ModeDir], None)
  else no_dir dir.

Definition stale_world : Collaborators unit :=
  quiet_world "/var/lib/clickhouse" [mkTable "shop" "orders"]
    stale_readDir no_file (fun _ => None) [].

(** ** A host *)

(** A snapshot directory that holds a symbolic link to a file of five
    bytes. *)
Definition link_fs : FileSystem :=
  mkFileSystem
    (fun p => if String.eqb p "/data/shadow" then (dir_info "shadow" 2, None)
              else no_such_file p)
    (fun p => if String.eqb p "/data/shadow"
              then [visit_dir "/data/shadow" "shadow" 2;
                    mkWalkStep "/data/shadow/current"
                      (mkFileInfo "current" 9 ModeSymlink 511 false false false 0 (mkDevino 1 20))
                      None None "hello" None]
              else []).

(** The data path holds a plain file where the snapshot directory should
    be. *)
Definition plain_shadow_fs : FileSystem :=
  mkFileSystem
    (fun p => if String.eqb p "/data/shadow" then (file_info "shadow" 3 9, None)
              else no_such_file p)
    (fun _ => []).

(** A host without state: every call succeeds, but for the answers given
    here; the temporary file is ["/tmp/backup.tar"]. *)
Definition quiet_host (fs : FileSystem) (backups : gmap string BackupTable)
    (attach : BackupTable -> option error) : Host unit :=
  mkHost unit
    (fun _ w => ((backups, None), w))
    (fun _ _ _ w => (None, w))
    (fun _ t w => (attach t, w))
    (fun _ _ _ w => (None, w))
    (fun _ _ _ w => (None, w))
    (fun _ _ w => (("/tmp/backup.tar", None), w))
    (fun _ w => (None, w))
    (fun _ => fs) (fun _ _ => disk) (fun _ _ w => w).

Definition detached : error := Errorf "code: 226, message: no such part".

(** Attaching the partitions of [btb] fails. *)
Definition shop_host : Host unit :=
  quiet_host shadow_fs two_backups
    (fun t => if bool_decide (t = btb) then Some detached else None).

Definition data_cfg (strategy : string) : Config := config_with "/data" strategy 2.

(** * Properties *)

(** ** The model of [filepath.Match] on cases of Go's own test table *)

Example filepath_Match_cases :
  map (fun '(p, n) => filepath_Match p n)
    [("abc", "abc"); ("*", "abc"); ("*c", "abc"); ("a*", "ab/c");
     ("a*/b", "abc/b"); ("a*b?c*x", "abxbbxdbxebxczzx"); ("ab[b-d]", "abc");
     ("ab[^e-g]", "abc"); ("a?b", "a/b"); ("a\*b", "ab"); ("[x\-]", "-");
     ("[-x]", "x"); ("a[", "x"); ("salesdb.*", "salesdb.orders");
     ("salesdb.*", "hr.orders")]
  = [(true, None); (true, None); (true, None); (false, None);
     (true, None); (true, None); (true, None);
     (true, None); (false, None); (false, None); (true, None);
     (false, Some ErrBadPattern); (false, Some ErrBadPattern); (true, None);
     (false, None)].
Proof. vm_compute. reflexivity. Qed.

(** Where [Match] reads a rune, it reads a UTF-8 sequence: more cases of
    Go's test table, with the names "a☺b" (the middle rune takes three
    bytes), "α" and the range end "ζ" (two bytes each). *)
Example filepath_Match_runes :
  let bytes (l : list N) := string_of_list_ascii (map ascii_of_N l) in
  let smile := bytes [226; 152; 186]%N in
  let alpha := bytes [206; 177]%N in
  let zeta := bytes [206; 182]%N in
  map (fun '(p, n) => filepath_Match p n)
    [("a?b", "a" +:+ smile +:+ "b"); ("a[^a]b", "a" +:+ smile +:+ "b");
     ("a???b", "a" +:+ smile +:+ "b");
     ("a[^a][^a][^a]b", "a" +:+ smile +:+ "b");
     ("[a-" +:+ zeta +:+ "]*", alpha); ("*[a-" +:+ zeta +:+ "]", "A")]
  = [(true, None); (true, None); (false, None); (false, None);
     (true, None); (false, None)].
Proof. vm_compute. reflexivity. Qed.

(** A character class that is never closed is a syntax error, whatever the
    name. *)
Lemma matchChunk_unclosed_class (s : string) :
  matchChunk "[" s = ("", false, Some ErrBadPattern).
Proof.
  unfold matchChunk. cbn [String.length chunk_loop].
  destruct (utf8_DecodeRuneInString s) as [r n]. reflexivity.
Qed.

Lemma Match_unclosed_class (name : string) :
  filepath_Match "[" name = (false, Some ErrBadPattern).
Proof.
  unfold filepath_Match. cbn [String.length match_loop].
  change (scanChunk "[") with (false, "[", "").
  cbn iota beta. rewrite matchChunk_unclosed_class. reflexivity.
Qed.

(** [Match] never answers "matched" together with an error. *)
Lemma match_loop_true_no_error (fuel : nat) (pattern name : string) :
  fst (match_loop fuel pattern name) = true ->
  snd (match_loop fuel pattern name) = None.
Proof.
  revert pattern name.
  induction fuel as [|fuel IH]; intros pattern name; simpl; [discriminate|].
  destruct pattern as [|c p]; [reflexivity|].
  destruct (scanChunk (String c p)) as [[star chunk] rest].
  destruct (star && String.eqb chunk ""); [reflexivity|].
  destruct (matchChunk chunk name) as [[t ok] err].
  destruct (ok && (String.eqb t "" || negb (String.eqb rest ""))); [apply IH|].
  destruct err; [discriminate|].
  destruct star; [|discriminate].
  destruct (star_loop chunk (String.eqb rest "") name); try discriminate.
  apply IH.
Qed.

Lemma matches_accepts (arg name : string) : matches arg name = accepts arg name.
Proof.
  unfold matches, accepts, filepath_Match.
  pose proof (match_loop_true_no_error (S (String.length arg)) arg name) as H.
  destruct (match_loop (S (String.length arg)) arg name) as [m e]; simpl in *.
  destruct m.
  - rewrite H by reflexivity. rewrite bool_decide_eq_true_2; reflexivity.
  - rewrite bool_decide_eq_false_2; [reflexivity|congruence].
Qed.

(** ** Table selection *)

(** The inner loop of [parseArgsForFreeze] appends the matching tables, in
    catalog order. *)
Lemma freeze_inner (arg : string) (tables result : list Table) :
  fold_left (freeze_step arg) tables result =
  result ++ List.filter (fun t => matches arg (table_name t)) tables.
Proof.
  revert result. induction tables as [|t tables IH]; intros result; simpl.
  - by rewrite app_nil_r.
  - rewrite IH. unfold freeze_step, matches, table_name.
    destruct (filepath_Match arg (Sprintf_dot (Database t) (Name t))) as [m e]; simpl.
    destruct m; [by rewrite <- app_assoc | reflexivity].
Qed.

Lemma freeze_outer (tables : list Table) (args : list string) (result : list Table) :
  fold_left (fun result arg => fold_left (freeze_step arg) tables result) args result =
  result
  ++ concat (map (fun arg => List.filter (fun t => matches arg (table_name t)) tables)
               args).
Proof.
  revert result. induction args as [|arg args IH]; intros result; simpl.
  - by rewrite app_nil_r.
  - rewrite IH, freeze_inner. by rewrite <- app_assoc.
Qed.

Lemma restore_inner (arg : string) (increments : list Z)
    (tables result : list BackupTable) :
  fold_left (restore_step arg increments) tables result =
  result
  ++ List.filter (fun t => matches arg (backup_name t) && wanted increments t) tables.
Proof.
  revert result. induction tables as [|t tables IH]; intros result; simpl.
  - by rewrite app_nil_r.
  - rewrite IH. unfold restore_step, matches, backup_name, wanted.
    destruct (filepath_Match arg (Sprintf_dot (bt_Database t) (bt_Name t)))
      as [m e]; simpl.
    destruct m; simpl; [|reflexivity].
    destruct (length increments =? 0)%nat; simpl; [by rewrite <- app_assoc|].
    destruct (has_increment increments (bt_Increment t));
      [by rewrite <- app_assoc | reflexivity].
Qed.

Lemma restore_outer (iter : range_order) (tables : gmap string BackupTable)
    (increments : list Z) (args : list string) (i : nat) (result : list BackupTable) :
  restore_loop iter tables increments i args result =
  result ++ concat (restore_blocks iter tables increments i args).
Proof.
  revert i result. induction args as [|arg args IH]; intros i result; simpl.
  - by rewrite app_nil_r.
  - rewrite IH, restore_inner. by rewrite <- app_assoc.
Qed.

Lemma filter_sublist_bool {A : Type} (f : A -> bool) (l : list A) :
  sublist (List.filter f l) l.
Proof.
  induction l as [|x l IH]; simpl; [constructor|].
  destruct (f x); by constructor.
Qed.

(** C4, as amended: the result of both selectors is ordered by pattern
    first and by catalog second.  [parseArgsForFreeze] returns the catalog
    itself when no pattern is given, and otherwise the concatenation, pattern
    after pattern, of the catalog entries that pattern matches, each block in
    catalog order.  [parseArgsForRestore] returns the concatenation, pattern
    after pattern (the single pattern "*" when none is given), of the entries
    that the pattern matches and whose increment is wanted, each block in the
    order in which that pass visited the map.  So the result follows the
    catalog order, as a subsequence of it, when there is at most one pattern. *)
Theorem selectors_order_by_pattern_then_catalog
    (tables : list Table) (iter : range_order)
    (catalog : gmap string BackupTable) (args : list string) (increments : list Z) :
  fst (parseArgsForFreeze tables args) =
    (if (length args =? 0)%nat then tables
     else concat (map (fun arg =>
                         List.filter (fun t => matches arg (table_name t)) tables)
                    args))
  /\ fst (parseArgsForRestore iter catalog args increments) =
       concat (restore_blocks iter catalog increments O
                 (if (length args =? 0)%nat then ["*"] else args))
  /\ (forall arg : string, sublist (fst (parseArgsForFreeze tables [arg])) tables)
  /\ (forall arg : string,
        sublist (fst (parseArgsForRestore iter catalog [arg] increments))
          (range_values iter O catalog))
  /\ sublist (fst (parseArgsForRestore iter catalog [] increments))
       (range_values iter O catalog).
Proof.
  split; [|split; [|split; [|split]]].
  - unfold parseArgsForFreeze. destruct (length args =? 0)%nat; [reflexivity|].
    simpl. by rewrite freeze_outer.
  - unfold parseArgsForRestore. simpl. by rewrite restore_outer.
  - intros arg. unfold parseArgsForFreeze. simpl. rewrite freeze_inner. simpl.
    apply filter_sublist_bool.
  - intros arg. unfold parseArgsForRestore. simpl. rewrite restore_inner. simpl.
    apply filter_sublist_bool.
  - unfold parseArgsForRestore. simpl. rewrite restore_inner. simpl.
    apply filter_sublist_bool.
Qed.

(** C4 as stated fails: with the catalog [a.t; b.t] the patterns
    ["b.*"; "a.*"] select [b.t; a.t] and the patterns ["a.*"; "b.*"] select
    [a.t; b.t], so the order of the patterns decides the order of the two
    tables, and the first result does not follow the catalog order.  The same
    happens in [parseArgsForRestore], also when every pass visits the map in
    the same order. *)
Lemma selectors_pattern_order_decides :
  parseArgsForFreeze [ta; tb] ["b.*"; "a.*"] = ([tb; ta], None)
  /\ parseArgsForFreeze [ta; tb] ["a.*"; "b.*"] = ([ta; tb], None)
  /\ ~ follows_order [ta; tb] (fst (parseArgsForFreeze [ta; tb] ["b.*"; "a.*"]))
  /\ range_values iter_stable 0 two_backups = [bta; btb]
  /\ range_values iter_stable 1 two_backups = [bta; btb]
  /\ parseArgsForRestore iter_stable two_backups ["b.*"; "a.*"] [] = ([btb; bta], None)
  /\ ~ follows_order [bta; btb]
         (fst (parseArgsForRestore iter_stable two_backups ["b.*"; "a.*"] [])).
Proof.
  assert (Hf : parseArgsForFreeze [ta; tb] ["b.*"; "a.*"] = ([tb; ta], None))
    by (vm_compute; reflexivity).
  assert (Hr : parseArgsForRestore iter_stable two_backups ["b.*"; "a.*"] []
               = ([btb; bta], None)) by (vm_compute; reflexivity).
  split; [exact Hf|]. split; [vm_compute; reflexivity|].
  split.
  { rewrite Hf. intros H.
    destruct (H O 1%nat tb ta) as (p & q & Hle & Hp & Hq);
      [lia|reflexivity|reflexivity|].
    destruct p as [|[|p]]; simpl in Hp; try discriminate.
    destruct q as [|[|q]]; simpl in Hq; try discriminate; lia. }
  split; [vm_compute; reflexivity|]. split; [vm_compute; reflexivity|].
  split; [exact Hr|].
  rewrite Hr. intros H.
  destruct (H O 1%nat btb bta) as (p & q & Hle & Hp & Hq);
    [lia|reflexivity|reflexivity|].
  destruct p as [|[|p]]; simpl in Hp; try discriminate.
  destruct q as [|[|q]]; simpl in Hq; try discriminate; lia.
Qed.

(** C9: the selectors never fail.  Both return a nil error for every
    catalog, pattern list and increment list, and a table is selected by a
    pattern only where [filepath.Match] answered "matched" without an error:
    the error of [Match] is dropped, and a pattern it rejects selects
    nothing.  The malformed pattern "[" is rejected for every name, and both
    selectors answer it with the empty list and a nil error. *)
Theorem selectors_never_fail
    (tables : list Table) (iter : range_order)
    (catalog : gmap string BackupTable) (args : list string) (increments : list Z) :
  snd (parseArgsForFreeze tables args) = None
  /\ snd (parseArgsForRestore iter catalog args increments) = None
  /\ fst (parseArgsForFreeze tables args) =
       (if (length args =? 0)%nat then tables
        else concat (map (fun arg =>
                            List.filter (fun t => accepts arg (table_name t)) tables)
                       args))
  /\ (forall pat : string,
        fst (parseArgsForRestore iter catalog [pat] increments) =
        List.filter (fun t => accepts pat (backup_name t) && wanted increments t)
          (range_values iter O catalog))
  /\ (forall name : string, filepath_Match "[" name = (false, Some ErrBadPattern))
  /\ parseArgsForFreeze tables ["["] = ([], None)
  /\ parseArgsForRestore iter catalog ["["] increments = ([], None).
Proof.
  assert (Hbad : forall name : string,
             filepath_Match "[" name = (false, Some ErrBadPattern)).
  { exact Match_unclosed_class. }
  split; [by unfold parseArgsForFreeze; destruct (length args =? 0)%nat|].
  split; [reflexivity|].
  split.
  { unfold parseArgsForFreeze. destruct (length args =? 0)%nat; [reflexivity|]. simpl.
    rewrite freeze_outer. simpl. f_equal. apply map_ext. intros arg.
    apply filter_ext. intros t. apply matches_accepts. }
  split.
  { intros pat. unfold parseArgsForRestore. simpl. rewrite restore_inner. simpl.
    apply filter_ext. intros t. by rewrite matches_accepts. }
  split; [exact Hbad|].
  assert (Hm : forall name : string, matches "[" name = false)
    by (intros name; unfold matches; by rewrite Hbad).
  assert (Hnone : forall (A : Type) (f : A -> string) (g : A -> bool) (l : list A),
             List.filter (fun t => matches "[" (f t) && g t) l = []).
  { intros A f g l. induction l as [|t l IH]; [reflexivity|].
    cbn [List.filter]. by rewrite Hm. }
  split.
  - unfold parseArgsForFreeze. cbn [length Nat.eqb fold_left fst].
    rewrite freeze_inner. cbn [app]. f_equal.
    rewrite <- (Hnone Table table_name (fun _ => true) tables).
    apply filter_ext. intros t. by rewrite andb_true_r.
  - unfold parseArgsForRestore. cbn [length Nat.eqb restore_loop].
    rewrite restore_inner. cbn [app]. f_equal. apply Hnone.
Qed.

(** ** The archive *)

Lemma devino_eta (d : devino) : mkDevino (Dev d) (Ino d) = d.
Proof. by destruct d. Qed.

Lemma Flush_entries (tw tw' : Writer) (e : option error) :
  Flush tw = (tw', e) -> tw_entries tw' = tw_entries tw.
Proof.
  unfold Flush. destruct (tw_err tw); [by intros [= <- _]|].
  destruct (0 <? tw_nb tw); [by intros [= <- _]|].
  destruct (sink_Write (tw_w tw) (tw_pad tw)) as [[n err] w'].
  destruct err; by intros [= <- _].
Qed.

Lemma WriteHeader_ok (tw tw' : Writer) (hdr : Header) :
  WriteHeader tw hdr = (tw', None) ->
  tw_entries tw' = tw_entries tw ++ [mkEntry hdr ""].
Proof.
  unfold WriteHeader. destruct (Flush tw) as [tw1 e] eqn:Hf.
  apply Flush_entries in Hf. destruct e; [discriminate|].
  destruct (sink_Write (tw_w tw1) blockSize) as [[n err] w'].
  destruct err; [discriminate|]. intros [= <-]. simpl. by rewrite Hf.
Qed.

Lemma append_body_last (entries : list Entry) (e : Entry) (b : string) :
  append_body (entries ++ [e]) b = entries ++ [mkEntry (e_hdr e) (e_body e +:+ b)].
Proof. unfold append_body. rewrite rev_app_distr. simpl. by rewrite rev_involutive. Qed.

Lemma Write_last (tw tw' : Writer) (b : string) (n : Z) (err : option error)
    (entries : list Entry) (e : Entry) :
  tw_entries tw = entries ++ [e] ->
  Write tw b = (tw', n, err) ->
  exists body, tw_entries tw' = entries ++ [mkEntry (e_hdr e) body].
Proof.
  intros He. unfold Write. destruct (tw_err tw).
  { intros [= <- _ _]. exists (e_body e). rewrite He. by destruct e. }
  destruct (0 <? _).
  - destruct (sink_Write _ _) as [[k err'] w']. rewrite He, append_body_last.
    destruct err'; intros [= <- _ _]; eauto.
  - intros [= <- _ _]. exists (e_body e). rewrite He. by destruct e.
Qed.

Lemma io_Copy_last (tw tw' : Writer) (data : string) (rerr err : option error)
    (n : Z) (entries : list Entry) (e : Entry) :
  tw_entries tw = entries ++ [e] ->
  io_Copy tw data rerr = (tw', n, err) ->
  exists body, tw_entries tw' = entries ++ [mkEntry (e_hdr e) body].
Proof.
  intros He. unfold io_Copy. destruct (String.length data =? 0)%nat.
  { intros [= <- _ _]. exists (e_body e). rewrite He. by destruct e. }
  destruct (Write tw data) as [[tw1 k] werr] eqn:Hw.
  destruct (Write_last _ _ _ _ _ _ _ He Hw) as [body Hb].
  destruct werr; intros [= <- _ _]; eauto.
Qed.

(** One successful call of the callback: what it appends to the archive and
    how the map of seen identities changes. *)
Lemma walkFn_ok (dir : string) (st st' : pass) (step : WalkStep) :
  walkFn dir st step = (st', None) ->
  exists added : list Entry,
    tw_entries (p_tw st') = tw_entries (p_tw st) ++ added
    /\ map e_hdr added = plan dir (p_seen st) (List.filter is_file [step])
    /\ (forall f, plan dir (p_seen st') f
                  = drop (length added) (plan dir (p_seen st) (List.filter is_file [step] ++ f))).
Proof.
  unfold walkFn. destruct (ws_err step); [discriminate|].
  cbn [List.filter]. unfold is_file.
  destruct (IsDir (ws_info step)) eqn:Hdir; cbn [negb].
  { intros [= <-]. exists []. rewrite app_nil_r. by repeat split. }
  destruct (FileInfoHeader (ws_info step) "") as [h herr] eqn:Hh.
  destruct herr; [discriminate|].
  rewrite devino_eta. cbn [plan app]. fold (identity step).
  destruct (p_seen st !! identity step) as [orig|] eqn:Hseen.
  - destruct (WriteHeader _ _) as [tw e] eqn:Hw. destruct e; [discriminate|].
    intros [= <-]. apply WriteHeader_ok in Hw. cbn [p_tw p_seen].
    eexists; split; [exact Hw|]. split.
    + simpl. unfold link_header. f_equal. f_equal.
      all: unfold FileInfoHeader in Hh; destruct (fi_Type (ws_info step));
        inversion Hh; subst; reflexivity.
    + intros f. simpl. by rewrite drop_0.
  - destruct (WriteHeader _ _) as [tw e] eqn:Hw. destruct e; [discriminate|].
    apply WriteHeader_ok in Hw.
    destruct (ws_open_err step); [discriminate|].
    destruct (io_Copy tw (ws_data step) (ws_read_err step)) as [[tw2 k] cerr] eqn:Hc.
    intros [= <-]. cbn [p_tw p_seen].
    destruct (io_Copy_last _ _ _ _ _ _ _ _ Hw Hc) as [body Hb].
    eexists; split; [exact Hb|]. split.
    + simpl. unfold first_header. by rewrite Hh.
    + intros f. simpl. by rewrite drop_0.
Qed.

(** A successful walk appends to the archive exactly the planned headers. *)
Lemma Walk_ok (dir : string) (steps : list WalkStep) (st st' : pass) :
  filepath_Walk steps (walkFn dir) st = (st', None) ->
  exists added : list Entry,
    tw_entries (p_tw st') = tw_entries (p_tw st) ++ added
    /\ map e_hdr added = plan dir (p_seen st) (List.filter is_file steps).
Proof.
  revert st. induction steps as [|step steps IH]; intros st; cbn [filepath_Walk].
  { intros [= <-]. exists []. by rewrite app_nil_r. }
  destruct (walkFn dir st step) as [st1 e] eqn:Hstep. destruct e; [discriminate|].
  intros Hrest. apply walkFn_ok in Hstep as (a1 & Ha1 & Hh1 & Hplan).
  apply IH in Hrest as (a2 & Ha2 & Hh2).
  exists (a1 ++ a2). split; [by rewrite Ha2, Ha1, app_assoc|].
  rewrite map_app, Hh1, Hh2, Hplan.
  change (step :: steps) with ([step] ++ steps). rewrite List.filter_app.
  assert (Hlen : length a1 = length (plan dir (p_seen st) (List.filter is_file [step])))
    by (by rewrite <- Hh1, length_map).
  rewrite Hlen. clear.
  cbn [List.filter]. destruct (is_file step); cbn [app plan]; [|by rewrite drop_0].
  destruct (p_seen st !! identity step); cbn [length drop app]; by rewrite drop_0.
Qed.

Lemma headers_of_cons (d : devino) (f : WalkStep) (files : list WalkStep)
    (h : Header) (hs : list Header) :
  headers_of d (f :: files) (h :: hs) =
  (if same_identity d f then [h] else []) ++ headers_of d files hs.
Proof. unfold headers_of. simpl. by destruct (same_identity d f). Qed.

Lemma same_identity_true (d : devino) (f : WalkStep) :
  identity f = d -> same_identity d f = true.
Proof. intros H. unfold same_identity. by rewrite bool_decide_eq_true_2. Qed.

Lemma same_identity_false (d : devino) (f : WalkStep) :
  identity f <> d -> same_identity d f = false.
Proof. intros H. unfold same_identity. by rewrite bool_decide_eq_false_2. Qed.

Lemma headers_of_seen (dir : string) (d : devino) (orig : string)
    (files : list WalkStep) (seen : gmap devino string) :
  seen !! d = Some orig ->
  headers_of d files (plan dir seen files) =
  map (link_header dir orig) (List.filter (same_identity d) files).
Proof.
  revert seen. induction files as [|f files IH]; intros seen Hd; [reflexivity|].
  cbn [plan List.filter].
  destruct (decide (identity f = d)) as [Hid|Hid].
  - rewrite Hid, Hd, headers_of_cons, same_identity_true by done.
    cbn [app map]. by rewrite IH.
  - destruct (seen !! identity f) as [o|] eqn:Hf;
      rewrite headers_of_cons, same_identity_false by done; cbn [app].
    + by apply IH.
    + apply IH. by rewrite lookup_insert_ne.
Qed.

Lemma headers_of_new (dir : string) (d : devino) (files : list WalkStep)
    (seen : gmap devino string) (first : WalkStep) (rest : list WalkStep) :
  seen !! d = None ->
  List.filter (same_identity d) files = first :: rest ->
  headers_of d files (plan dir seen files) =
  first_header dir first
  :: map (link_header dir (archive_name dir (ws_file first))) rest.
Proof.
  revert seen. induction files as [|f files IH]; intros seen Hd; [discriminate|].
  cbn [plan List.filter].
  destruct (decide (identity f = d)) as [Hid|Hid].
  - rewrite same_identity_true by done. intros [= -> <-].
    rewrite Hid, Hd, headers_of_cons, same_identity_true by done. cbn [app].
    f_equal. apply headers_of_seen. apply lookup_insert_eq.
  - rewrite same_identity_false by done. intros Hrest.
    destruct (seen !! identity f) as [o|] eqn:Hf;
      rewrite headers_of_cons, same_identity_false by done; cbn [app].
    + by apply IH.
    + apply IH; [|done]. by rewrite lookup_insert_ne.
Qed.

Lemma plan_length (dir : string) (files : list WalkStep) (seen : gmap devino string) :
  length (plan dir seen files) = length files.
Proof.
  revert seen. induction files as [|f files IH]; intros seen; [reflexivity|].
  simpl. destruct (seen !! identity f); simpl; by rewrite IH.
Qed.

Lemma headers_of_entries (d : devino) (files : list WalkStep) (written : list Entry) :
  map (fun p => e_hdr (snd p))
    (List.filter (fun p => same_identity d (fst p)) (zip files written))
  = headers_of d files (map e_hdr written).
Proof.
  unfold headers_of. revert written.
  induction files as [|f files IH]; intros [|e written]; try reflexivity.
  simpl. destruct (same_identity d f); simpl; by rewrite IH.
Qed.

Lemma first_header_regular (dir : string) (s : WalkStep) :
  fi_Type (ws_info s) = ModeRegular -> first_header dir s = content_header dir s.
Proof. intros H. unfold first_header, content_header, FileInfoHeader. by rewrite H. Qed.

Lemma links_count (dir orig : string) (l : list WalkStep) :
  List.filter is_link (map (link_header dir orig) l) = map (link_header dir orig) l.
Proof. induction l as [|s l IH]; [reflexivity|]. simpl. by rewrite IH. Qed.

Lemma links_none (dir orig : string) (l : list WalkStep) :
  List.filter (fun h => negb (is_link h)) (map (link_header dir orig) l) = [].
Proof. induction l as [|s l IH]; [reflexivity|]. simpl. by rewrite IH. Qed.

(** C1: one successful pass of [tarDir] over a directory tree in which the
    regular files [first :: rest], in the order the walk visits them, are all
    the files of identity [d].  The pass appends one entry per file of the
    tree; among them, the entries of these [k = 1 + length rest] files are
    one content entry, for [first] under its archive name, followed by
    [k - 1] link entries of size zero whose link name is that archive name.
    So the group holds exactly one entry that is not a link and [k - 1]
    links, and every link refers to the content entry. *)
Theorem tarDir_hardlink_group
    (fs : FileSystem) (tw tw' : Writer) (line : logline) (dir : string)
    (d : devino) (first : WalkStep) (rest : list WalkStep) :
  tarDir fs tw dir = (tw', line, Return None) ->
  List.filter (same_identity d) (List.filter is_file (walk_steps fs dir))
    = first :: rest ->
  Forall (fun s => fi_Type (ws_info s) = ModeRegular) (first :: rest) ->
  let files := List.filter is_file (walk_steps fs dir) in
  let written := drop (length (tw_entries tw)) (tw_entries tw') in
  let group :=
    map (fun p => e_hdr (snd p))
      (List.filter (fun p => same_identity d (fst p)) (zip files written)) in
  tw_entries tw' = tw_entries tw ++ written
  /\ length written = length files
  /\ group = content_header dir first
             :: map (link_header dir (archive_name dir (ws_file first))) rest
  /\ length (List.filter (fun h => negb (is_link h)) group) = 1%nat
  /\ length (List.filter is_link group) = length rest
  /\ Forall (fun h => is_link h = true ->
                      h_Linkname h = h_Name (content_header dir first)) group.
Proof.
  intros Hrun Hgroup Hreg files written group.
  unfold tarDir in Hrun.
  destruct (os_Stat fs dir) as [fi serr]. destruct serr; [discriminate|].
  destruct (negb (IsDir fi)); [discriminate|].
  destruct (filepath_Walk _ _ _) as [st err] eqn:Hwalk.
  injection Hrun as <- _ ->.
  apply Walk_ok in Hwalk as (added & Hadded & Hhdrs). cbn [p_tw p_seen] in *.
  assert (Hw : written = added).
  { unfold written. by rewrite Hadded, drop_app_length. }
  assert (Hg : group = content_header dir first
               :: map (link_header dir (archive_name dir (ws_file first))) rest).
  { unfold group. rewrite headers_of_entries, Hw, Hhdrs.
    rewrite (headers_of_new dir d _ ∅ first rest (lookup_empty d) Hgroup).
    f_equal. apply first_header_regular. by inversion Hreg. }
  split; [by rewrite Hw|].
  split; [by rewrite Hw, <- (length_map e_hdr), Hhdrs, plan_length|].
  split; [exact Hg|]. rewrite Hg.
  split; [cbn [List.filter is_link content_header h_Typeflag]; simpl;
          by rewrite links_none|].
  split; [cbn [List.filter]; simpl; by rewrite links_count, length_map|].
  constructor; [discriminate|].
  apply Forall_forall. intros h Hin _.
  apply list_elem_of_In, in_map_iff in Hin as (s & <- & _). reflexivity.
Qed.

(** C1 on the snapshot directory of [shadow_fs]: the three links to inode 10
    become one content entry and two link entries to ["shadow/1/a.bin"]. *)
Lemma tarDir_hardlink_group_witness :
  let files := List.filter is_file (walk_steps shadow_fs "/data/shadow") in
  let tw' := fst (fst (tarDir shadow_fs (NewWriter disk) "/data/shadow")) in
  let written := drop (length (tw_entries (NewWriter disk))) (tw_entries tw') in
  let group :=
    map (fun p => e_hdr (snd p))
      (List.filter (fun p => same_identity hardlinked (fst p)) (zip files written)) in
  tw_entries tw' = tw_entries (NewWriter disk) ++ written
  /\ length written = length files
  /\ group =
       content_header "/data/shadow"
         (visit_file "/data/shadow/1/a.bin" "a.bin" "hello" 10)
       :: map (link_header "/data/shadow" "shadow/1/a.bin")
            [visit_file "/data/shadow/2/a.bin" "a.bin" "hello" 10;
             visit_file "/data/shadow/3/a.bin" "a.bin" "hello" 10]
  /\ length (List.filter (fun h => negb (is_link h)) group) = 1%nat
  /\ length (List.filter is_link group) = 2%nat
  /\ Forall (fun h => is_link h = true ->
                      h_Linkname h = "shadow/1/a.bin") group.
Proof.
  apply (tarDir_hardlink_group shadow_fs (NewWriter disk)
           (fst (fst (tarDir shadow_fs (NewWriter disk) "/data/shadow")))
           (LogAdded 2 2) "/data/shadow" hardlinked
           (visit_file "/data/shadow/1/a.bin" "a.bin" "hello" 10)
           [visit_file "/data/shadow/2/a.bin" "a.bin" "hello" 10;
            visit_file "/data/shadow/3/a.bin" "a.bin" "hello" 10]).
  - vm_compute. reflexivity.
  - vm_compute. reflexivity.
  - repeat constructor.
Defined.

(** A file linked under two roots of one archive is written with its
    content twice, once for each root. *)
Example TarDirs_stores_a_shared_file_twice :
  let '(tw, logs, r) := TarDirs shadow_fs disk ["/data/shadow"; "/data/metadata"] in
  r = Return None
  /\ logs = [LogAdded 2 2; LogAdded 1 0]
  /\ map (fun e => (h_Typeflag (e_hdr e), h_Name (e_hdr e), h_Linkname (e_hdr e)))
       (tw_entries tw)
     = [(TypeReg, "shadow/1/a.bin", "");
        (TypeLink, "shadow/2/a.bin", "shadow/1/a.bin");
        (TypeReg, "shadow/2/b.bin", "");
        (TypeLink, "shadow/3/a.bin", "shadow/1/a.bin");
        (TypeReg, "metadata/a.bin", "")]
  /\ identity (visit_file "/data/metadata/a.bin" "a.bin" "hello" 10) = hardlinked.
Proof. vm_compute. repeat split; reflexivity. Qed.

(** What [io.Copy] reports never reaches the callback's result: whether
    reading the content fails makes no difference to [walkFn]. *)
Lemma walkFn_ignores_read_error (dir : string) (st : pass) (file : string)
    (info : FileInfo) (err open_err : option error) (data : string)
    (r1 r2 : option error) :
  walkFn dir st (mkWalkStep file info err open_err data r1)
  = walkFn dir st (mkWalkStep file info err open_err data r2).
Proof.
  unfold walkFn. cbn [ws_err ws_info ws_file ws_open_err ws_data ws_read_err].
  destruct err; [reflexivity|]. destruct (IsDir info); [reflexivity|].
  destruct (FileInfoHeader info "") as [h herr]. destruct herr; [reflexivity|].
  destruct (p_seen st !! _); [reflexivity|].
  destruct (WriteHeader _ _) as [tw e]. destruct e; [reflexivity|].
  destruct open_err; [reflexivity|].
  unfold io_Copy. destruct (String.length data =? 0)%nat; [reflexivity|].
  by destruct (Write tw data) as [[tw1 n] [e|]].
Qed.

(** C2 fails on the code: [torn_fs] holds one file of five bytes whose
    reading fails with an input/output error after two bytes.  [TarDirs]
    returns nil and logs success, and the archive holds an entry whose header
    announces five bytes and whose body has two. *)
Theorem TarDirs_drops_read_error :
  let '(tw, logs, r) := TarDirs torn_fs disk ["/data/shadow"] in
  ws_read_err torn_file = Some EIO
  /\ r = Return None
  /\ logs = [LogAdded 1 0]
  /\ map (fun e => (h_Name (e_hdr e), h_Size (e_hdr e), e_body e)) (tw_entries tw)
     = [("shadow/a.bin", 5, "he")]
  /\ tw_nb tw = 3.
Proof. vm_compute. repeat split; reflexivity. Qed.

(** A root that exists and is not a directory makes [tarDir] panic: the
    error message is built from [err.Error()] while [err] is nil. *)
Lemma tarDir_not_a_directory (fs : FileSystem) (tw : Writer) (dir : string)
    (fi : FileInfo) :
  os_Stat fs dir = (fi, None) -> IsDir fi = false ->
  exists msg, snd (tarDir fs tw dir) = Panic msg
              /\ snd (TarDirs fs (tw_w tw) [dir]) = Panic msg.
Proof.
  intros Hstat Hdir. unfold TarDirs, TarDirs_loop, TarDir, tarDir.
  rewrite Hstat, Hdir. cbn [negb]. eexists. split; reflexivity.
Qed.

(** The same on the plain file of [shadow_fs]. *)
Lemma tarDir_not_a_directory_witness :
  exists msg,
    snd (tarDir shadow_fs (NewWriter disk) "/data/notes.txt") = Panic msg
    /\ snd (TarDirs shadow_fs (tw_w (NewWriter disk)) ["/data/notes.txt"]) = Panic msg.
Proof.
  apply (tarDir_not_a_directory shadow_fs (NewWriter disk) "/data/notes.txt"
           (file_info "notes.txt" 3 9)).
  - vm_compute. reflexivity.
  - reflexivity.
Defined.

(** C3 fails on the code: ["/data/notes.txt"] exists and is a regular file.
    [tarDir] does not return an error for it but panics, and so does
    [TarDirs]; the deferred log line reports success. *)
Theorem tarDir_not_a_directory_panics :
  os_Stat shadow_fs "/data/notes.txt" = (file_info "notes.txt" 3 9, None)
  /\ tarDir shadow_fs (NewWriter disk) "/data/notes.txt"
     = (NewWriter disk, LogAdded 0 0,
        Panic "runtime error: invalid memory address or nil pointer dereference")
  /\ snd (TarDirs shadow_fs disk ["/data/notes.txt"])
     = Panic "runtime error: invalid memory address or nil pointer dereference".
Proof. vm_compute. repeat split; reflexivity. Qed.

(** ** The workflow *)

(** *** [freeze] *)

Lemma shadow_check_blocked (p : string) (listing : list FileInfo * option error) :
  shadow_blocked listing = true <-> shadow_check p listing <> None.
Proof.
  unfold shadow_blocked, shadow_check. destruct listing as [files [e|]].
  - destruct (IsNotExist e); simpl; split; congruence.
  - destruct files; simpl; split; congruence.
Qed.

Section WorkflowFacts.
Context {W : Type} (c : Collaborators W).

Lemma freeze_loop_trace (ch : ClickHouse) (tables : list Table) (w : W) :
  Forall (fun ev => is_freeze_call ev = true) (trace (freeze_loop c ch tables w)).
Proof.
  revert w. induction tables as [|t tables IH]; intros w; [constructor|].
  cbn [freeze_loop]. unfold bind, FreezeTable, perform, trace.
  destruct (ch_FreezeTable c ch t w) as [err w1]. destruct err.
  - simpl. by repeat constructor.
  - specialize (IH w1). unfold trace in IH.
    destruct (freeze_loop c ch tables w1) as [[r w2] t2]. simpl in *.
    by constructor.
Qed.

(** C5: in every run of [freeze], a directory listing is the listing of the
    shadow directory of the data path that ClickHouse answered: the run
    starts with the connection, the answer [dataPath] of [GetDataPath] (not
    empty, no error), its log line and the listing of
    [filepath.Join(dataPath, "shadow")].  If that listing failed for
    another reason than the directory being absent, or is not empty,
    [freeze] returns the error of the check and the run calls [FreezeTable]
    on no table; otherwise the run goes on to ask for the tables.
    Conversely every call of [FreezeTable] comes after that listing of the
    shadow directory, which then found it absent or empty, and no table was
    frozen before it. *)
Theorem freeze_needs_clear_shadow
    (config : Config) (args : list string) (dryRun : bool) (w : W) :
  let run := freeze c config args dryRun w in
  (forall dir listing,
      In (EvReadDir dir listing) (trace run) ->
      exists dataPath post,
        trace run = [EvChConnect None; EvGetDataPath (dataPath, None);
                     EvLog ("Found clickhouse data path: " +:+ dataPath);
                     EvReadDir dir listing] ++ post
        /\ dataPath <> ""
        /\ dir = filepath_Join [dataPath; "shadow"]
        /\ (shadow_blocked listing = true ->
              result run = shadow_check dir listing
              /\ result run <> None
              /\ Forall (fun ev => is_freeze_call ev = false) (trace run))
        /\ (shadow_blocked listing = false ->
              exists tables post', post = EvGetTables tables :: post'))
  /\ (forall t r,
        In (EvFreezeTable t r) (trace run) ->
        exists dataPath listing post,
          trace run = [EvChConnect None; EvGetDataPath (dataPath, None);
                       EvLog ("Found clickhouse data path: " +:+ dataPath)]
                      ++ EvReadDir (filepath_Join [dataPath; "shadow"]) listing
                      :: post
          /\ dataPath <> ""
          /\ shadow_blocked listing = false
          /\ In (EvFreezeTable t r) post).
Proof.
  unfold freeze, defer, bind, Connect, GetDataPath, ReadDir, GetTables, ChClose,
    log, perform, ret, trace, result. cbn zeta.
  destruct (ch_Connect c _ w) as [cerr w1]. destruct cerr as [e|].
  { simpl. split; [intros ? ? [|[]]; discriminate | intros ? ? [|[]]; discriminate]. }
  destruct (ch_GetDataPath c _ w1) as [[dataPath derr] w2].
  destruct (bool_decide (derr <> None) || String.eqb dataPath "") eqn:Hbad.
  { destruct (ch_Close c _ w2) as [u w3]. simpl.
    split; [intros ? ? [|[|[|[]]]]; discriminate | intros ? ? [|[|[|[]]]]; discriminate]. }
  apply orb_false_iff in Hbad as [Hderr Hpath].
  apply bool_decide_eq_false in Hderr.
  assert (derr = None) as -> by (destruct derr; [exfalso; apply Hderr|]; done).
  assert (Hne : dataPath <> "") by (intros ->; discriminate).
  clear Hderr Hpath.
  destruct (ioutil_ReadDir c _ w2) as [listing w3].
  destruct (shadow_check _ listing) as [e|] eqn:Hcheck.
  { destruct (ch_Close c _ w3) as [u w4]. simpl. split.
    - intros dir l Hin. repeat (destruct Hin as [Hin|Hin]; [try discriminate|]).
      + injection Hin as <- <-. exists dataPath, [EvChClose].
        split; [reflexivity|]. split; [exact Hne|]. split; [reflexivity|]. split.
        * intros _. rewrite Hcheck. split; [reflexivity|]. split; [discriminate|].
          repeat constructor.
        * intros Hb. exfalso.
          assert (Hn : shadow_check (filepath_Join [dataPath; "shadow"]) listing <> None)
            by (rewrite Hcheck; discriminate).
          apply shadow_check_blocked in Hn. congruence.
      + destruct Hin.
    - intros t r Hin. repeat (destruct Hin as [Hin|Hin]; [discriminate|]). destruct Hin. }
  assert (Hok : shadow_blocked listing = false).
  { destruct (shadow_blocked listing) eqn:Hb; [|reflexivity].
    apply (shadow_check_blocked (filepath_Join [dataPath; "shadow"])) in Hb. congruence. }
  destruct (ch_GetTables c _ w3) as [[allTables terr] w4]. destruct terr as [e|].
  { destruct (ch_Close c _ w4) as [u w5]. simpl. split.
    - intros dir l Hin. repeat (destruct Hin as [Hin|Hin]; [try discriminate|]).
      + injection Hin as <- <-. eexists dataPath, _.
        split; [reflexivity|]. split; [exact Hne|]. split; [reflexivity|]. split.
        * intros Hb. congruence.
        * intros _. eexists _, _. reflexivity.
      + destruct Hin.
    - intros t r Hin. repeat (destruct Hin as [Hin|Hin]; [discriminate|]). destruct Hin. }
  destruct (parseArgsForFreeze allTables args) as [backupTables perr]. destruct perr as [e|].
  { destruct (ch_Close c _ w4) as [u w5]. simpl. split.
    - intros dir l Hin. repeat (destruct Hin as [Hin|Hin]; [try discriminate|]).
      + injection Hin as <- <-. eexists dataPath, _.
        split; [reflexivity|]. split; [exact Hne|]. split; [reflexivity|]. split.
        * intros Hb. congruence.
        * intros _. eexists _, _. reflexivity.
      + destruct Hin.
    - intros t r Hin. repeat (destruct Hin as [Hin|Hin]; [discriminate|]). destruct Hin. }
  destruct (length backupTables =? 0)%nat.
  { destruct (ch_Close c _ w4) as [u w5]. simpl. split.
    - intros dir l Hin. repeat (destruct Hin as [Hin|Hin]; [try discriminate|]).
      + injection Hin as <- <-. eexists dataPath, _.
        split; [reflexivity|]. split; [exact Hne|]. split; [reflexivity|]. split.
        * intros Hb. congruence.
        * intros _. eexists _, _. reflexivity.
      + destruct Hin.
    - intros t r Hin. repeat (destruct Hin as [Hin|Hin]; [discriminate|]). destruct Hin. }
  pose proof (freeze_loop_trace (mkClickHouse dryRun (cfg_ClickHouse config))
                backupTables w4) as Hloop.
  unfold trace in Hloop.
  destruct (freeze_loop c _ backupTables w4) as [[r w5] t5].
  destruct (ch_Close c _ w5) as [u w6]. simpl in *. split.
  - intros dir l Hin.
    repeat (destruct Hin as [Hin|Hin]; [try discriminate|]).
    + injection Hin as <- <-. eexists dataPath, _.
      split; [reflexivity|]. split; [exact Hne|]. split; [reflexivity|]. split.
      * intros Hb. congruence.
      * intros _. eexists _, _. reflexivity.
    + exfalso. apply in_app_or in Hin as [Hin|[Hin|[]]]; [|discriminate].
      rewrite Forall_forall in Hloop. apply list_elem_of_In, Hloop in Hin. discriminate.
  - intros t r' Hin. eexists dataPath, listing, _.
    split; [reflexivity|]. split; [exact Hne|]. split; [exact Hok|].
    repeat (destruct Hin as [Hin|Hin]; [discriminate|]).
    right. exact Hin.
Qed.

(** *** A small program logic for commands *)

Lemma sat_ret {A : Type} (a : A) (Q : A -> list event -> Prop) :
  Q a [] -> sat (W:=W) (ret a) Q.
Proof. intros H w. exact H. Qed.

Lemma sat_bind {A B : Type} (m : M W A) (f : A -> M W B)
    (Q1 : A -> list event -> Prop) (Q : B -> list event -> Prop) :
  sat m Q1 ->
  (forall a, sat (f a) (fun b t2 => forall t1, Q1 a t1 -> Q b (t1 ++ t2))) ->
  sat (bind m f) Q.
Proof.
  intros Hm Hf w. specialize (Hm w). unfold bind, result, trace in *.
  destruct (m w) as [[a w1] t1]. specialize (Hf a w1). simpl in *.
  destruct (f a w1) as [[b w2] t2]. simpl in *. by apply Hf.
Qed.

(** The same, where the rest may use that the first step's guarantee held. *)
Lemma sat_bind_with {A B : Type} (m : M W A) (f : A -> M W B)
    (Q1 : A -> list event -> Prop) (Q : B -> list event -> Prop) :
  sat m Q1 ->
  (forall a, (exists t1, Q1 a t1) ->
             sat (f a) (fun b t2 => forall t1, Q1 a t1 -> Q b (t1 ++ t2))) ->
  sat (bind m f) Q.
Proof.
  intros Hm Hf w. specialize (Hm w). unfold bind, result, trace in *.
  destruct (m w) as [[a w1] t1]. simpl in *.
  specialize (Hf a (ex_intro _ t1 Hm) w1).
  destruct (f a w1) as [[b w2] t2]. simpl in *. by apply Hf.
Qed.

Lemma sat_perform {A : Type} (op : W -> A * W) (ev : A -> event)
    (Q : A -> list event -> Prop) :
  (forall a, Q a [ev a]) -> sat (perform op ev) Q.
Proof. intros H w. unfold perform, result, trace. destruct (op w). apply H. Qed.

Lemma sat_log (msg : string) (Q : unit -> list event -> Prop) :
  Q tt [EvLog msg] -> sat (W:=W) (log msg) Q.
Proof. intros H w. exact H. Qed.

Lemma sat_weaken {A : Type} (m : M W A) (Q Q' : A -> list event -> Prop) :
  sat m Q -> (forall a t, Q a t -> Q' a t) -> sat m Q'.
Proof. intros H HQ w. apply HQ, H. Qed.

Lemma sat_defer {A : Type} (cleanup : M W unit) (body : M W A)
    (Q1 : A -> list event -> Prop) (Q2 : list event -> Prop)
    (Q : A -> list event -> Prop) :
  sat body Q1 -> sat cleanup (fun _ t => Q2 t) ->
  (forall a t1 t2, Q1 a t1 -> Q2 t2 -> Q a (t1 ++ t2)) ->
  sat (defer cleanup body) Q.
Proof.
  intros Hb Hc HQ. unfold defer.
  apply (sat_bind _ _ Q1); [exact Hb|]. intros a.
  apply (sat_bind _ _ (fun _ t => Q2 t)); [exact Hc|]. intros [].
  apply sat_ret. intros t2 H2 t1 H1. rewrite app_nil_r. by apply HQ.
Qed.

(** *** Creation order *)

Lemma no_distributed_app (t1 t2 : list event) :
  no_distributed t1 -> no_distributed t2 -> no_distributed (t1 ++ t2).
Proof. intros. by apply Forall_app. Qed.

Lemma tables_loop_first_pass (ch : ClickHouse) (db dir : string)
    (tableFiles : list FileInfo) (dts : list RestoreTable) :
  all_distributed dts ->
  sat (tables_loop c ch db dir tableFiles dts) first_pass.
Proof.
  revert dts. induction tableFiles as [|table rest IH]; intros dts Hd.
  { apply sat_ret. split; [constructor|exact Hd]. }
  cbn [tables_loop]. destruct (strings_HasSuffix (fi_Name table) "sql"); [|by apply IH].
  apply (sat_bind _ _ (fun _ t => no_distributed t)).
  { apply sat_log. by repeat constructor. }
  intros [].
  apply (sat_bind _ _ (fun _ t => no_distributed t)).
  { apply sat_perform. intros a. by repeat constructor. }
  intros [dat [e|]].
  { apply sat_ret. intros t2 H2 t1 H1. split; [|exact I].
    rewrite app_nil_r. by apply no_distributed_app. }
  destruct (is_distributed (rewrite_query dat)) eqn:Hdist.
  - apply (sat_bind _ _ (fun _ t => no_distributed t)).
    { apply sat_log. by repeat constructor. }
    intros []. eapply sat_weaken.
    { apply IH. apply Forall_app. split; [exact Hd|]. by repeat constructor. }
    intros r t [Ht Hr] t3 H3 t2 H2 t1 H1. split; [|exact Hr].
    repeat apply no_distributed_app; assumption.
  - apply (sat_bind _ _ (fun _ t => no_distributed t)).
    { apply sat_perform. intros a. constructor; [simpl; by rewrite Hdist|constructor]. }
    intros cerr.
    apply (sat_bind _ _ (fun _ t => no_distributed t)).
    { destruct cerr; [apply sat_log | apply sat_ret]; by repeat constructor. }
    intros []. eapply sat_weaken; [by apply IH|].
    intros r t [Ht Hr] t4 H4 t3 H3 t2 H2 t1 H1. split; [|exact Hr].
    repeat apply no_distributed_app; assumption.
Qed.

Lemma databases_loop_first_pass (ch : ClickHouse) (metadataPath : string)
    (files : list FileInfo) (dts : list RestoreTable) :
  all_distributed dts ->
  sat (databases_loop c ch metadataPath files dts) first_pass.
Proof.
  revert dts. induction files as [|file rest IH]; intros dts Hd.
  { apply sat_ret. split; [constructor|exact Hd]. }
  cbn [databases_loop]. destruct (IsDir file); [|by apply IH].
  destruct (String.eqb (fi_Name file) "system"); [by apply IH|].
  apply (sat_bind _ _ (fun _ t => no_distributed t)).
  { apply sat_log. by repeat constructor. }
  intros [].
  apply (sat_bind _ _ (fun _ t => no_distributed t)).
  { apply sat_perform. intros a. by repeat constructor. }
  intros _.
  apply (sat_bind _ _ (fun _ t => no_distributed t)).
  { apply sat_log. by repeat constructor. }
  intros [].
  apply (sat_bind _ _ (fun _ t => no_distributed t)).
  { apply sat_perform. intros a. by repeat constructor. }
  intros [tableFiles [e|]].
  { apply sat_ret. intros t4 H4 t3 H3 t2 H2 t1 H1. split; [|exact I].
    rewrite app_nil_r. repeat apply no_distributed_app; assumption. }
  apply (sat_bind _ _ first_pass); [by apply tables_loop_first_pass|].
  intros [e|dts'].
  { apply sat_ret. intros t5 [H5 _] t4 H4 t3 H3 t2 H2 t1 H1. split; [|exact I].
    rewrite app_nil_r. repeat apply no_distributed_app; assumption. }
  intros w. pose proof (fun H => IH dts' H w) as IHw.
  intros t5 [H5 Hd'] t4 H4 t3 H3 t2 H2 t1 H1.
  destruct (IHw Hd') as [Ht Hr]. split; [|exact Hr].
  repeat apply no_distributed_app; assumption.
Qed.

Lemma distributed_loop_second_pass (ch : ClickHouse) (tables : list RestoreTable) :
  all_distributed tables ->
  sat (distributed_loop c ch tables) (fun _ t => no_base t).
Proof.
  induction tables as [|table rest IH]; intros Hd.
  { apply sat_ret. constructor. }
  cbn [distributed_loop]. inversion Hd as [|? ? Hhead Htail]; subst.
  apply (sat_bind _ _ (fun _ t => no_base t)).
  { apply sat_perform. intros a. constructor; [simpl; by rewrite Hhead|constructor]. }
  intros cerr.
  apply (sat_bind _ _ (fun _ t => no_base t)).
  { destruct cerr; [apply sat_log | apply sat_ret]; by repeat constructor. }
  intros []. eapply sat_weaken; [by apply IH|].
  intros r t Ht t2 H2 t1 H1. repeat (apply Forall_app; split); assumption.
Qed.

Lemma base_only (tr : list event) : no_distributed tr -> base_then_distributed tr.
Proof. intros H. exists tr, []. rewrite app_nil_r. by repeat split; [|constructor]. Qed.

Lemma base_then_distributed_cons (ev : event) (tr : list event) :
  creates_distributed ev = false ->
  base_then_distributed tr -> base_then_distributed (ev :: tr).
Proof.
  intros Hev (pre & post & -> & Hpre & Hpost).
  exists (ev :: pre), post. by repeat split; [constructor|].
Qed.

Lemma base_then_distributed_app (t1 t2 : list event) :
  no_distributed t1 -> base_then_distributed t2 -> base_then_distributed (t1 ++ t2).
Proof.
  intros H1 (pre & post & -> & Hpre & Hpost).
  exists (t1 ++ pre), post. rewrite app_assoc. repeat split; [|done].
  by apply Forall_app.
Qed.

Lemma createTables_split (config : Config) (args : list string) (dryRun : bool) :
  sat (createTables c config args dryRun) (fun _ tr => base_then_distributed tr).
Proof.
  unfold createTables.
  apply (sat_bind _ _ (fun _ t => no_distributed t)).
  { apply sat_perform. intros a. by repeat constructor. }
  intros [e|].
  { apply sat_ret. intros t1 H1. rewrite app_nil_r. by apply base_only. }
  eapply sat_weaken with (Q := fun _ t => base_then_distributed t);
    [|intros a t H t1 H1; by apply base_then_distributed_app].
  apply (sat_defer _ _ (fun _ t => base_then_distributed t) (fun t => t = [EvChClose])).
  2:{ apply sat_perform. reflexivity. }
  2:{ intros a t1 t2 (pre & post & -> & Hpre & Hpost) ->.
      exists pre, (post ++ [EvChClose]). rewrite app_assoc. repeat split; [done|].
      apply Forall_app. split; [done|by repeat constructor]. }
  apply (sat_bind _ _ (fun _ t => no_distributed t)).
  { apply sat_perform. intros a. by repeat constructor. }
  intros [dataPath derr].
  destruct (bool_decide (derr <> None) || String.eqb dataPath "").
  { apply sat_ret. intros t1 H1. rewrite app_nil_r. by apply base_only. }
  apply (sat_bind _ _ (fun _ t => no_distributed t)).
  { apply sat_log. by repeat constructor. }
  intros [].
  apply (sat_bind _ _ (fun _ t => no_distributed t)).
  { apply sat_log. by repeat constructor. }
  intros [].
  apply (sat_bind _ _ (fun _ t => no_distributed t)).
  { apply sat_perform. intros a. by repeat constructor. }
  intros [files [e|]].
  { apply sat_ret. intros t4 H4 t3 H3 t2 H2 t1 H1. rewrite app_nil_r.
    apply base_only. repeat apply no_distributed_app; assumption. }
  apply (sat_bind_with _ _ first_pass).
  { apply databases_loop_first_pass. constructor. }
  intros [e|dts] [t0 [_ Hd]].
  { apply sat_ret. intros t5 [H5 _] t4 H4 t3 H3 t2 H2 t1 H1. rewrite app_nil_r.
    apply base_only. repeat apply no_distributed_app; assumption. }
  eapply sat_weaken with (Q := fun _ t => base_then_distributed t).
  2:{ intros a t H t5 [H5 _] t4 H4 t3 H3 t2 H2 t1 H1.
      repeat (apply base_then_distributed_app; [assumption|]). exact H. }
  apply (sat_bind _ _ (fun _ t => no_distributed t)).
  { apply sat_log. by repeat constructor. }
  intros [].
  apply (sat_bind _ _ (fun _ t => no_base t)).
  { by apply distributed_loop_second_pass. }
  intros []. apply sat_ret. intros t2 H2 t1 H1. rewrite app_nil_r.
  exists t1, t2. by repeat split.
Qed.

End WorkflowFacts.

(** *** Best effort *)

Lemma calls_app (t1 t2 : list event) : calls (t1 ++ t2) = calls t1 ++ calls t2.
Proof. apply omap_app. Qed.

Lemma failures_logged_app (t1 t2 : list event) :
  failures_logged t1 = true -> failures_logged t2 = true ->
  failures_logged (t1 ++ t2) = true.
Proof.
  revert t2. induction t1 as [t1 IH] using (induction_ltof1 _ (@length event)).
  unfold ltof in IH. intros t2 H1 H2.
  destruct t1 as [|ev t1]; [exact H2|].
  destruct ev; try (simpl in *; apply IH; [simpl; lia|done|done]).
  destruct r as [e|]; [|simpl in *; apply IH; [simpl; lia|done|done]].
  simpl in H1. destruct t1 as [|[] t1]; try discriminate.
  apply andb_prop in H1 as [Hm H1]. simpl. rewrite Hm. simpl.
  apply IH; [simpl; lia|done|done].
Qed.

Section BestEffort.
Context {W : Type} (c : Collaborators W).

Lemma sim_refl {A : Type} (m : M W A) : sim eq m m.
Proof. intros w. by repeat split. Qed.

Lemma sim_bind {A B : Type} (rel : A -> A -> Prop) (rel' : B -> B -> Prop)
    (m1 m2 : M W A) (f1 f2 : A -> M W B) :
  sim rel m1 m2 ->
  (forall a1 a2, rel a1 a2 -> sim rel' (f1 a1) (f2 a2)) ->
  sim rel' (bind m1 f1) (bind m2 f2).
Proof.
  intros Hm Hf w. destruct (Hm w) as (Hr & Hw & Ht).
  unfold same_run, bind, result, world, trace in *.
  destruct (m1 w) as [[a1 w1] t1], (m2 w) as [[a2 w2] t2]. simpl in *. subst w2.
  destruct (Hf a1 a2 Hr w1) as (Hr' & Hw' & Ht').
  unfold result, world, trace in *.
  destruct (f1 a1 w1) as [[b1 w1'] t1'], (f2 a2 w1) as [[b2 w2'] t2']. simpl in *.
  repeat split; [done|done|]. by rewrite !calls_app, Ht, Ht'.
Qed.

Lemma sim_CreateTable (ch : ClickHouse) (t : RestoreTable) :
  sim (fun _ _ => True) (CreateTable c ch t) (CreateTable (silence c) ch t).
Proof.
  intros w. unfold same_run, CreateTable, perform, result, world, trace. simpl.
  by destruct (ch_CreateTable c ch t w).
Qed.

Lemma sim_log_failure (e1 e2 : option error) :
  sim (W:=W) eq (log_failure e1) (log_failure e2).
Proof. intros w. by destruct e1, e2. Qed.

Lemma sim_tables_loop (ch : ClickHouse) (db dir : string)
    (tableFiles : list FileInfo) (dts : list RestoreTable) :
  sim eq (tables_loop c ch db dir tableFiles dts)
         (tables_loop (silence c) ch db dir tableFiles dts).
Proof.
  revert dts. induction tableFiles as [|table rest IH]; intros dts; [apply sim_refl|].
  cbn [tables_loop]. destruct (strings_HasSuffix (fi_Name table) "sql"); [|apply IH].
  apply (sim_bind eq); [apply sim_refl|]. intros _ _ _.
  apply (sim_bind eq); [apply sim_refl|]. intros [dat err] ? <-.
  destruct err; [apply sim_refl|].
  destruct (is_distributed (rewrite_query dat)).
  - apply (sim_bind eq); [apply sim_refl|]. intros _ _ _. apply IH.
  - apply (sim_bind (fun _ _ => True)); [apply sim_CreateTable|]. intros e1 e2 _.
    apply (sim_bind eq); [apply sim_log_failure|]. intros _ _ _. apply IH.
Qed.

Lemma sim_databases_loop (ch : ClickHouse) (metadataPath : string)
    (files : list FileInfo) (dts : list RestoreTable) :
  sim eq (databases_loop c ch metadataPath files dts)
         (databases_loop (silence c) ch metadataPath files dts).
Proof.
  revert dts. induction files as [|file rest IH]; intros dts; [apply sim_refl|].
  cbn [databases_loop]. destruct (IsDir file); [|apply IH].
  destruct (String.eqb (fi_Name file) "system"); [apply IH|].
  apply (sim_bind eq); [apply sim_refl|]. intros _ _ _.
  apply (sim_bind eq); [apply sim_refl|]. intros _ _ _.
  apply (sim_bind eq); [apply sim_refl|]. intros _ _ _.
  apply (sim_bind eq); [apply sim_refl|]. intros [tableFiles err] ? <-.
  destruct err; [apply sim_refl|].
  apply (sim_bind eq); [apply sim_tables_loop|]. intros r ? <-.
  destruct r; [apply sim_refl|apply IH].
Qed.

Lemma sim_distributed_loop (ch : ClickHouse) (tables : list RestoreTable) :
  sim eq (distributed_loop c ch tables) (distributed_loop (silence c) ch tables).
Proof.
  induction tables as [|table rest IH]; [apply sim_refl|].
  cbn [distributed_loop].
  apply (sim_bind (fun _ _ => True)); [apply sim_CreateTable|]. intros e1 e2 _.
  apply (sim_bind eq); [apply sim_log_failure|]. intros _ _ _. apply IH.
Qed.

Lemma sim_createTables (config : Config) (args : list string) (dryRun : bool) :
  sim eq (createTables c config args dryRun)
         (createTables (silence c) config args dryRun).
Proof.
  unfold createTables, defer.
  apply (sim_bind eq); [apply sim_refl|]. intros err ? <-.
  destruct err; [apply sim_refl|].
  apply (sim_bind eq); [|intros r ? <-; apply sim_refl].
  apply (sim_bind eq); [apply sim_refl|]. intros [dataPath derr] ? <-.
  destruct (bool_decide (derr <> None) || String.eqb dataPath ""); [apply sim_refl|].
  apply (sim_bind eq); [apply sim_refl|]. intros _ _ _.
  apply (sim_bind eq); [apply sim_refl|]. intros _ _ _.
  apply (sim_bind eq); [apply sim_refl|]. intros [files err] ? <-.
  destruct err; [apply sim_refl|].
  apply (sim_bind eq); [apply sim_databases_loop|]. intros r ? <-.
  destruct r as [e|dts]; [apply sim_refl|].
  apply (sim_bind eq); [apply sim_refl|]. intros _ _ _.
  apply (sim_bind eq); [apply sim_distributed_loop|]. intros _ _ _. apply sim_refl.
Qed.

Lemma sat_logged_step {A B : Type} (m : M W A) (f : A -> M W B) :
  sat m (fun _ t => logged t) ->
  (forall a, sat (f a) (fun _ t => logged t)) ->
  sat (bind m f) (fun _ t => logged t).
Proof.
  intros Hm Hf. apply (sat_bind _ _ (fun _ t => logged t)); [exact Hm|].
  intros a. eapply sat_weaken; [apply Hf|].
  intros b t2 H2 t1 H1. by apply failures_logged_app.
Qed.

(** [CreateTable], the log line for its failure, and what follows. *)
Lemma sat_logged_create {B : Type} (ch : ClickHouse) (t : RestoreTable)
    (k : M W B) :
  sat k (fun _ t => logged t) ->
  sat (bind (CreateTable c ch t) (fun err => bind (log_failure err) (fun _ => k)))
      (fun _ t => logged t).
Proof.
  intros Hk.
  apply (sat_bind _ _ (fun err tr => tr = [EvCreateTable t err])).
  { apply sat_perform. reflexivity. }
  intros err.
  apply (sat_bind _ _
           (fun _ tr => tr = match err with
                            | Some e => [EvLog ("ERROR Table creation failed: " +:+ Error e)]
                            | None => []
                            end)).
  { intros w. by destruct err. }
  intros []. eapply sat_weaken; [exact Hk|].
  intros b t3 H3 t2 -> t1 ->. unfold logged in *.
  destruct err; simpl; [|exact H3]. by rewrite String.eqb_refl.
Qed.

Lemma sat_logged_quiet {A : Type} (op : W -> A * W) (ev : A -> event) :
  (forall a, failures_logged [ev a] = true) ->
  sat (perform op ev) (fun _ t => logged t).
Proof. intros H. by apply sat_perform. Qed.

Lemma tables_loop_logged (ch : ClickHouse) (db dir : string)
    (tableFiles : list FileInfo) (dts : list RestoreTable) :
  sat (tables_loop c ch db dir tableFiles dts) (fun _ t => logged t).
Proof.
  revert dts. induction tableFiles as [|table rest IH]; intros dts.
  { by apply sat_ret. }
  cbn [tables_loop]. destruct (strings_HasSuffix (fi_Name table) "sql"); [|apply IH].
  apply sat_logged_step; [by apply sat_log|]. intros [].
  apply sat_logged_step; [by apply sat_logged_quiet|]. intros [dat err].
  destruct err; [by apply sat_ret|].
  destruct (is_distributed (rewrite_query dat)).
  - apply sat_logged_step; [by apply sat_log|]. intros []. apply IH.
  - apply sat_logged_create, IH.
Qed.

Lemma databases_loop_logged (ch : ClickHouse) (metadataPath : string)
    (files : list FileInfo) (dts : list RestoreTable) :
  sat (databases_loop c ch metadataPath files dts) (fun _ t => logged t).
Proof.
  revert dts. induction files as [|file rest IH]; intros dts.
  { by apply sat_ret. }
  cbn [databases_loop]. destruct (IsDir file); [|apply IH].
  destruct (String.eqb (fi_Name file) "system"); [apply IH|].
  apply sat_logged_step; [by apply sat_log|]. intros [].
  apply sat_logged_step; [by apply sat_logged_quiet|]. intros _.
  apply sat_logged_step; [by apply sat_log|]. intros [].
  apply sat_logged_step; [by apply sat_logged_quiet|]. intros [tableFiles err].
  destruct err; [by apply sat_ret|].
  apply sat_logged_step; [apply tables_loop_logged|]. intros [e|dts'].
  - by apply sat_ret.
  - apply IH.
Qed.

Lemma distributed_loop_logged (ch : ClickHouse) (tables : list RestoreTable) :
  sat (distributed_loop c ch tables) (fun _ t => logged t).
Proof.
  induction tables as [|table rest IH]; [by apply sat_ret|].
  cbn [distributed_loop]. apply sat_logged_create, IH.
Qed.

Lemma createTables_logged (config : Config) (args : list string) (dryRun : bool) :
  sat (createTables c config args dryRun) (fun _ t => logged t).
Proof.
  unfold createTables, defer.
  apply sat_logged_step; [by apply sat_logged_quiet|]. intros [e|]; [by apply sat_ret|].
  apply sat_logged_step.
  2:{ intros r. apply sat_logged_step; [by apply sat_logged_quiet|]. intros [].
      by apply sat_ret. }
  apply sat_logged_step; [by apply sat_logged_quiet|]. intros [dataPath derr].
  destruct (bool_decide (derr <> None) || String.eqb dataPath ""); [by apply sat_ret|].
  apply sat_logged_step; [by apply sat_log|]. intros [].
  apply sat_logged_step; [by apply sat_log|]. intros [].
  apply sat_logged_step; [by apply sat_logged_quiet|]. intros [files err].
  destruct err; [by apply sat_ret|].
  apply sat_logged_step; [apply databases_loop_logged|]. intros [e|dts].
  { by apply sat_ret. }
  apply sat_logged_step; [by apply sat_log|]. intros [].
  apply sat_logged_step; [apply distributed_loop_logged|]. intros []. by apply sat_ret.
Qed.

Lemma aborted_app (t1 t2 : list event) :
  aborted (t1 ++ t2) = aborted t1 || aborted t2.
Proof. apply existsb_app. Qed.

(** A step that cannot abort, then the rest. *)
Lemma sat_aborted_step {A B : Type} (m : M W A) (f : A -> M W B)
    (Q : B -> bool) :
  sat m (fun _ t => aborted t = false) ->
  (forall a, sat (f a) (fun b t => aborted t = Q b)) ->
  sat (bind m f) (fun b t => aborted t = Q b).
Proof.
  intros Hm Hf. apply (sat_bind _ _ (fun _ t => aborted t = false)); [exact Hm|].
  intros a. eapply sat_weaken; [apply Hf|].
  intros b t2 H2 t1 H1. by rewrite aborted_app, H1, H2.
Qed.

(** A step that may abort, then the rest. *)
Lemma sat_aborted_call {A B : Type} (op : W -> A * W) (ev : A -> event)
    (f : A -> M W B) (Q : B -> bool) :
  (forall a, sat (f a) (fun b t => aborts (ev a) || aborted t = Q b)) ->
  sat (bind (perform op ev) f) (fun b t => aborted t = Q b).
Proof.
  intros Hf. apply (sat_bind _ _ (fun a t => t = [ev a])).
  { by apply sat_perform. }
  intros a. eapply sat_weaken; [apply Hf|].
  intros b t2 H2 t1 ->. simpl. exact H2.
Qed.

Lemma sat_not_aborted_create {B : Type} (ch : ClickHouse) (t : RestoreTable)
    (k : M W B) (Q : B -> bool) :
  sat k (fun b t => aborted t = Q b) ->
  sat (bind (CreateTable c ch t) (fun err => bind (log_failure err) (fun _ => k)))
      (fun b t => aborted t = Q b).
Proof.
  intros Hk. apply sat_aborted_step; [by apply sat_perform|]. intros err.
  apply sat_aborted_step; [|by intros _]. intros w. by destruct err.
Qed.

Lemma tables_loop_aborted (ch : ClickHouse) (db dir : string)
    (tableFiles : list FileInfo) (dts : list RestoreTable) :
  sat (tables_loop c ch db dir tableFiles dts) (fun r t => aborted t = failed r).
Proof.
  revert dts. induction tableFiles as [|table rest IH]; intros dts.
  { by apply sat_ret. }
  cbn [tables_loop]. destruct (strings_HasSuffix (fi_Name table) "sql"); [|apply IH].
  apply sat_aborted_step; [by apply sat_log|]. intros [].
  apply sat_aborted_call. intros [dat err].
  destruct err; [by apply sat_ret|]. cbn [aborts orb].
  destruct (is_distributed (rewrite_query dat)).
  - apply sat_aborted_step; [by apply sat_log|]. intros []. apply IH.
  - apply (sat_not_aborted_create _ _ _ failed), IH.
Qed.

Lemma databases_loop_aborted (ch : ClickHouse) (metadataPath : string)
    (files : list FileInfo) (dts : list RestoreTable) :
  sat (databases_loop c ch metadataPath files dts) (fun r t => aborted t = failed r).
Proof.
  revert dts. induction files as [|file rest IH]; intros dts.
  { by apply sat_ret. }
  cbn [databases_loop]. destruct (IsDir file); [|apply IH].
  destruct (String.eqb (fi_Name file) "system"); [apply IH|].
  apply sat_aborted_step; [by apply sat_log|]. intros [].
  apply sat_aborted_step; [by apply sat_perform|]. intros _.
  apply sat_aborted_step; [by apply sat_log|]. intros [].
  apply sat_aborted_call. intros [tableFiles err].
  destruct err; [by apply sat_ret|]. cbn [aborts orb].
  apply (sat_bind _ _ (fun r t => aborted t = failed r)); [apply tables_loop_aborted|].
  intros [e|dts'].
  - apply sat_ret. intros t1 H1. by rewrite app_nil_r.
  - eapply sat_weaken; [apply IH|]. intros r t2 H2 t1 H1.
    by rewrite aborted_app, H1, H2.
Qed.

Lemma distributed_loop_aborted (ch : ClickHouse) (tables : list RestoreTable) :
  sat (distributed_loop c ch tables) (fun _ t => aborted t = false).
Proof.
  induction tables as [|table rest IH]; [by apply sat_ret|].
  cbn [distributed_loop]. apply (sat_not_aborted_create _ _ _ (fun _ => false)), IH.
Qed.

Lemma createTables_aborted (config : Config) (args : list string) (dryRun : bool) :
  sat (createTables c config args dryRun) (fun r t => aborted t = returned_error r).
Proof.
  unfold createTables, defer.
  apply sat_aborted_call. intros [e|]; [by apply sat_ret|]. cbn [aborts orb].
  apply (sat_bind _ _ (fun r t => aborted t = returned_error r)).
  2:{ intros r. apply (sat_bind _ _ (fun _ t => t = [EvChClose])); [by apply sat_perform|].
      intros []. apply sat_ret. intros t2 -> t1 H1.
      by rewrite app_nil_r, aborted_app, H1, orb_false_r. }
  apply sat_aborted_call. intros [dataPath derr]. cbn [aborts].
  destruct (bool_decide (derr <> None) || String.eqb dataPath ""); [by apply sat_ret|].
  cbn [orb].
  apply sat_aborted_step; [by apply sat_log|]. intros [].
  apply sat_aborted_step; [by apply sat_log|]. intros [].
  apply sat_aborted_call. intros [files err].
  destruct err; [by apply sat_ret|]. cbn [aborts orb].
  apply (sat_bind _ _ (fun r t => aborted t = failed r)); [apply databases_loop_aborted|].
  intros [e|dts].
  { apply sat_ret. intros t1 H1. by rewrite app_nil_r. }
  apply (sat_weaken _ (fun r t => aborted t = returned_error r)).
  2:{ intros r t2 H2 t1 H1. by rewrite aborted_app, H1, H2. }
  apply sat_aborted_step; [by apply sat_log|]. intros [].
  apply sat_aborted_step; [apply distributed_loop_aborted|]. intros []. by apply sat_ret.
Qed.

End BestEffort.

Section Download.
Context {W : Type} (c : Collaborators W).

(** C10: under the archive strategy, when the number of arguments is not
    one (none, or two and more), [parseArgsForDownload] yields the empty
    name and [download] returns an error without any transfer: nothing is
    downloaded, opened, unpacked or removed.  Once the connection to the
    object store is made, that error is the missing-archive-name error. *)
Theorem download_archive_needs_one_name
    (config : Config) (args : list string) (dryRun : bool) (w : W) :
  Strategy (cfg_Backup config) = "archive" ->
  length args <> 1%nat ->
  let run := download c config args dryRun w in
  parseArgsForDownload args = ""
  /\ Forall (fun ev => is_transfer ev = false) (trace run)
  /\ result run <> None
  /\ (In (EvS3Connect None) (trace run) -> result run = Some ErrNoArchiveName).
Proof.
  intros Hstrategy Hargs run.
  assert (Hname : parseArgsForDownload args = "").
  { destruct args as [|a [|b args]]; try reflexivity. by destruct Hargs. }
  split; [exact Hname|].
  assert (Hfrom : forall dataPath w0,
             let r := download_from c config args dryRun dataPath w0 in
             Forall (fun ev => is_transfer ev = false) (trace r)
             /\ result r <> None
             /\ (In (EvS3Connect None) (trace r) -> result r = Some ErrNoArchiveName)
             /\ Forall (fun ev => exists e, ev = EvS3Connect e) (trace r)).
  { intros dataPath w0. unfold download_from, bind, S3Connect, perform, ret, trace, result.
    cbn zeta. destruct (s3_Connect c _ w0) as [[e|] w1]; simpl.
    - repeat split; [by repeat constructor|discriminate| |repeat constructor; eauto].
      intros [|[]]; discriminate.
    - rewrite Hstrategy, Hname. simpl.
      repeat split; [by repeat constructor|discriminate|repeat constructor; eauto]. }
  subst run. unfold download.
  destruct (String.eqb (DataPath (cfg_ClickHouse config)) "").
  2:{ destruct (Hfrom (DataPath (cfg_ClickHouse config)) w) as (H1 & H2 & H3 & _).
      by repeat split. }
  unfold defer, bind, Connect, GetDataPath, ChClose, perform, ret, trace, result.
  destruct (ch_Connect c _ w) as [[e|] w1]; simpl.
  { repeat split; [by repeat constructor|discriminate|]. intros [|[]]; discriminate. }
  destruct (ch_GetDataPath c _ w1) as [[dataPath derr] w2].
  destruct (bool_decide (derr <> None) || String.eqb dataPath "").
  { destruct (ch_Close c _ w2) as [u w3]. simpl.
    repeat split; [by repeat constructor|discriminate|]. intros [|[|[|[]]]]; discriminate. }
  destruct (Hfrom dataPath w2) as (H1 & H2 & H3 & H4).
  unfold trace, result in *.
  destruct (download_from c config args dryRun dataPath w2) as [[r w3] t3].
  destruct (ch_Close c _ w3) as [u w4]. simpl in *.
  repeat split.
  - rewrite !Forall_cons, !Forall_app. repeat split; try done. by repeat constructor.
  - exact H2.
  - intros [|[|Hin]]; try discriminate. apply H3.
    apply in_app_or in Hin as [Hin|Hin]; [done|].
    repeat (destruct Hin as [Hin|Hin]; [discriminate|]). destruct Hin.
Qed.
End Download.

(** *** Retention *)

Lemma older_spec (a b : Object) :
  older a b = true <-> LastModified a < LastModified b.
Proof.
  unfold older, time_Sub, minDuration, maxDuration.
  destruct (_ <? - 2 ^ 63) eqn:H1; [lia|].
  destruct (2 ^ 63 - 1 <? _) eqn:H2; lia.
Qed.

Lemma not_newer_spec (a b : Object) :
  not_newer a b <-> LastModified a <= LastModified b.
Proof.
  unfold not_newer. pose proof (older_spec b a) as H.
  destruct (older b a); split; intros; try done; lia.
Qed.

#[local] Instance not_newer_trans : Transitive not_newer.
Proof. intros a b d. rewrite !not_newer_spec. lia. Qed.

#[local] Instance not_newer_total : Total not_newer.
Proof. intros a b. rewrite !not_newer_spec. lia. Qed.

#[local] Instance not_newer_dec (a b : Object) : Decision (not_newer a b).
Proof. unfold not_newer. apply _. Defined.

Section Retention.
Context {W : Type} (c : Collaborators W).
Variable sort_Slice : (Object -> Object -> bool) -> list Object -> list Object.

(** C8: [sort.Slice] is any function that returns a permutation of the
    listing sorted by the order it is given.  With a keep count below one,
    [removeOldBackups] only logs that cleaning is disabled and returns nil.
    Otherwise, for a listing of at most [keep] objects it deletes nothing;
    for a longer one it makes one [DeleteObjects] call, on
    [length objects - keep] objects, and the [keep] objects it leaves are
    the rest of the listing, none of them older than a deleted one. *)
Theorem removeOldBackups_prunes_oldest (config : Config) (s3 : S3) (w : W) :
  (forall l, Permutation (sort_Slice older l) l) ->
  (forall l, Sorted not_newer (sort_Slice older l)) ->
  let keep := BackupsToKeep (cfg_Backup config) in
  let run := removeOldBackups c sort_Slice config s3 w in
  (keep < 1 ->
     result run = None
     /\ trace run = [EvLog "Cleaning old backups is not enabled."])
  /\ (1 <= keep ->
      forall objects w',
        s3_ListObjects c s3 (Path (cfg_S3 config)) w = ((objects, None), w') ->
        (Z.of_nat (length objects) <= keep ->
           result run = None
           /\ trace run = [EvListObjects (Path (cfg_S3 config)) (objects, None)])
        /\ (keep < Z.of_nat (length objects) ->
            exists deleted kept msg r,
              trace run = [EvListObjects (Path (cfg_S3 config)) (objects, None);
                           EvLog msg; EvDeleteObjects deleted r]
              /\ result run = r
              /\ Permutation (deleted ++ kept) objects
              /\ Z.of_nat (length deleted) = Z.of_nat (length objects) - keep
              /\ Z.of_nat (length kept) = keep
              /\ (forall d k, In d deleted -> In k kept ->
                              LastModified d <= LastModified k))).
Proof.
  intros Hperm Hsorted keep run. subst run. unfold removeOldBackups. fold keep.
  split.
  { intros Hkeep. destruct (keep <? 1) eqn:Hlt; [|lia]. by split. }
  intros Hkeep objects w' Hlist. destruct (keep <? 1) eqn:Hlt; [lia|].
  unfold bind, ListObjects, DeleteObjects, perform, log, ret, result, trace.
  rewrite Hlist. cbn zeta.
  split.
  { intros Hle. destruct (0 <? _) eqn:Hpos; [lia|]. by split. }
  intros Hgt. destruct (0 <? _) eqn:Hpos; [|lia].
  set (n := Z.to_nat (Z.of_nat (length objects) - keep)).
  destruct (s3_DeleteObjects c s3 _ w') as [r w''] eqn:Hdel.
  exists (take n (sort_Slice older objects)), (drop n (sort_Slice older objects)).
  eexists _, r. simpl.
  assert (Hlen : length (sort_Slice older objects) = length objects)
    by (by rewrite Hperm).
  split; [by destruct r|]. split; [by destruct r|].
  split; [by rewrite take_drop|].
  split; [rewrite length_take, Hlen; lia|].
  split; [rewrite length_drop, Hlen; lia|].
  intros d k Hd Hk. apply not_newer_spec.
  pose proof (Sorted_StronglySorted not_newer _ (Hsorted objects)) as Hss.
  rewrite <- (take_drop n (sort_Slice older objects)) in Hss.
  eapply StronglySorted_app_1_elem_of; [exact Hss| |]; by apply list_elem_of_In.
Qed.
End Retention.

Lemma merge_sort_by_perm (l : list Object) : Permutation (merge_sort_by older l) l.
Proof. apply merge_sort_Permutation. Qed.

Lemma merge_sort_by_sorted (l : list Object) : Sorted not_newer (merge_sort_by older l).
Proof. apply (Sorted_merge_sort not_newer). Qed.


(** *** Runs of the example worlds *)

(** A shadow directory that still holds a snapshot stops [freeze]; an empty
    one lets it freeze the table. *)
Example freeze_on_example_worlds :
  result (freeze stale_world cfg [] false tt)
    = Some (Errorf "/var/lib/clickhouse/shadow is not empty, won't execute freeze")
  /\ List.filter is_freeze_call (trace (freeze stale_world cfg [] false tt)) = []
  /\ result (freeze shop_world cfg [] false tt) = None
  /\ List.filter is_freeze_call (trace (freeze shop_world cfg [] false tt))
     = [EvFreezeTable (mkTable "shop" "orders") None].
Proof. vm_compute. repeat split; reflexivity. Qed.

(** The distributed table is listed first and created last; the failure to
    create [orders] is logged and [createTables] returns nil. *)
Example createTables_on_shop_world :
  let run := createTables shop_world cfg [] false tt in
  result run = None
  /\ map fi_Name (fst (shop_readDir (metadata_dir +:+ "/shop")))
     = ["all_orders.sql"; "orders.sql"; "readme.md"]
  /\ List.filter is_create (trace run)
     = [EvCreateTable orders (Some already_exists); EvCreateTable all_orders None]
  /\ trace run !! 15%nat
     = Some (EvLog ("ERROR Table creation failed: " +:+ Error already_exists))
  /\ failures_logged (trace run) = true.
Proof. vm_compute. repeat split; reflexivity. Qed.

(** C7 as stated fails: the definition file of one table of [shop] cannot be
    read.  [createTables] returns that error; the table [orders], whose
    file is listed next and is readable, is never created, and no table
    creation failure is logged. *)
Lemma createTables_unreadable_file_aborts :
  let run := createTables unreadable_world cfg [] false tt in
  result run
    = Some (Errorf ("can't read file " +:+ metadata_dir +:+ "/shop/all_orders.sql: "
                    +:+ Error (permission_denied (metadata_dir +:+ "/shop/all_orders.sql"))))
  /\ unreadable_readFile (metadata_dir +:+ "/shop/orders.sql") = (orders_sql, None)
  /\ List.filter is_create (trace run) = []
  /\ failures_logged (trace run) = true
  /\ result (createTables shop_world cfg [] false tt) = None.
Proof. vm_compute. repeat split; reflexivity. Qed.

(** C10 with two arguments. *)
Lemma download_archive_needs_one_name_witness :
  let run := download shop_world cfg ["a.tar"; "b.tar"] false tt in
  parseArgsForDownload ["a.tar"; "b.tar"] = ""
  /\ Forall (fun ev => is_transfer ev = false) (trace run)
  /\ result run <> None
  /\ (In (EvS3Connect None) (trace run) -> result run = Some ErrNoArchiveName).
Proof.
  apply (download_archive_needs_one_name shop_world cfg ["a.tar"; "b.tar"] false tt).
  - reflexivity.
  - simpl. lia.
Defined.

(** With exactly one argument the archive is fetched and unpacked. *)
Example download_one_name :
  result (download shop_world cfg ["a.tar"] false tt) = None
  /\ List.filter is_transfer (trace (download shop_world cfg ["a.tar"] false tt))
     = [EvDownloadTree "metadata" "/var/lib/clickhouse/backup/metadata" None;
        EvDownloadArchive "a.tar" "/var/lib/clickhouse/backup" None;
        EvOpen "/var/lib/clickhouse/backup/a.tar" None;
        EvUntar "/var/lib/clickhouse/backup/a.tar" "/var/lib/clickhouse/backup" None;
        EvRemove "/var/lib/clickhouse/backup/a.tar"].
Proof. vm_compute. repeat split; reflexivity. Qed.

(** C8 with merge sort for [sort.Slice], four backups and a keep count of
    two. *)
Lemma removeOldBackups_prunes_oldest_witness :
  let s3 := mkS3 false (cfg_S3 cfg) in
  let run := removeOldBackups shop_world merge_sort_by cfg s3 tt in
  exists deleted kept msg r,
    trace run = [EvListObjects "backups/" (four_backups, None);
                 EvLog msg; EvDeleteObjects deleted r]
    /\ result run = r
    /\ Permutation (deleted ++ kept) four_backups
    /\ Z.of_nat (length deleted) = Z.of_nat (length four_backups) - 2
    /\ Z.of_nat (length kept) = 2
    /\ (forall d k, In d deleted -> In k kept ->
                    LastModified d <= LastModified k).
Proof.
  intros s3 run.
  pose proof (removeOldBackups_prunes_oldest shop_world merge_sort_by cfg s3 tt
                merge_sort_by_perm merge_sort_by_sorted) as H.
  cbv zeta in H. destruct H as [_ H].
  assert (Hkeep : 1 <= BackupsToKeep (cfg_Backup cfg)) by (simpl; lia).
  destruct (H Hkeep four_backups tt eq_refl) as [_ Hmore].
  apply Hmore. simpl. lia.
Defined.

(** The two oldest of the four backups are deleted. *)
Example removeOldBackups_four_backups :
  removeOldBackups shop_world merge_sort_by cfg (mkS3 false (cfg_S3 cfg)) tt
  = (None, tt,
     [EvListObjects "backups/" (four_backups, None);
      EvLog ("Delete 2 objects from s3" +:+ String (ascii_of_nat 10) "");
      EvDeleteObjects [mkObject "a.tar" 1000; mkObject "b.tar" 2000] None]).
Proof. vm_compute. reflexivity. Qed.

(** * Further properties *)

(** ** More on the archive *)

(** *** Member names *)

Lemma prefix_append (a b : string) : String.prefix a (a +:+ b) = true.
Proof.
  induction a as [|c a IH]; simpl; [by destruct b|].
  destruct (ascii_dec c c); [exact IH|done].
Qed.

Lemma replace_scan_skip (k : string) (n : Z) (old new rest : string) :
  replace_scan (String.length k) n old new (k +:+ rest)
  = replace_scan O n old new rest.
Proof.
  induction k as [|c k IH]; simpl; [|exact IH].
  destruct rest; reflexivity.
Qed.

Lemma replace_scan_absent (n : Z) (old new s : string) :
  strings_Contains s old = false -> replace_scan O n old new s = s.
Proof.
  induction s as [|c s IH]; [done|].
  intros H.
  change (String.prefix old (String c s) || strings_Contains s old = false) in H.
  apply orb_false_elim in H as [Hp Hc].
  cbn [replace_scan]. rewrite Hp.
  destruct (n =? 0); [done|]. f_equal. by apply IH.
Qed.

Lemma replace_scan_prefix (n : Z) (old new rest : string) :
  old <> "" -> n < 0 ->
  replace_scan O n old new (old +:+ rest)
  = new +:+ replace_scan O (n - 1) old new rest.
Proof.
  intros Hold Hn. destruct old as [|c old]; [done|].
  pose proof (prefix_append (String c old) rest) as Hp.
  change (String c old +:+ rest) with (String c (old +:+ rest)) in *.
  cbn [replace_scan]. rewrite Hp.
  destruct (n =? 0) eqn:E; [lia|]. f_equal.
  cbn [String.length]. rewrite Nat.sub_1_r. cbn [Nat.pred].
  apply replace_scan_skip.
Qed.

Lemma take_elem_no_sep (r : list ascii) : ~ In Separator (take_elem r).
Proof.
  induction r as [|c r IH]; simpl; [tauto|].
  destruct (Ascii.eqb c Separator) eqn:E; simpl; [tauto|].
  intros [->|H]; [|tauto]. by rewrite Ascii.eqb_refl in E.
Qed.

Lemma filepath_Base_slash (p : string) :
  strings_HasPrefix (filepath_Base p) "/" = true -> filepath_Base p = "/".
Proof.
  unfold filepath_Base. destruct p as [|c p]; [done|].
  destruct (rev (take_elem _)) as [|b bs] eqn:E; [intros _; reflexivity|].
  intros H. exfalso.
  assert (Hin : In b (rev (take_elem (drop_seps (rev (list_ascii_of_string (String c p))))))).
  { rewrite E. by left. }
  apply in_rev in Hin.
  unfold strings_HasPrefix in H. cbn [String.prefix string_of_list_ascii] in H.
  destruct (ascii_dec "/" b) as [<-|]; [|done].
  by apply take_elem_no_sep in Hin.
Qed.

Lemma filepath_Base_nonempty (p : string) : filepath_Base p <> "".
Proof.
  unfold filepath_Base. destruct p as [|c p]; [done|].
  by destruct (rev (take_elem _)).
Qed.

Lemma archive_name_joined (dir rel : string) :
  dir <> "" ->
  filepath_Base dir <> "/" ->
  strings_Contains ("/" +:+ rel) dir = false ->
  archive_name dir (dir +:+ "/" +:+ rel) = filepath_Base dir +:+ "/" +:+ rel.
Proof.
  intros Hdir Hbase Hrel. unfold archive_name.
  assert (Hrep : strings_Replace (dir +:+ "/" +:+ rel) dir (filepath_Base dir) (-1)
                 = filepath_Base dir +:+ "/" +:+ rel).
  { unfold strings_Replace.
    destruct (String.eqb dir (filepath_Base dir)) eqn:E; simpl.
    - apply String.eqb_eq in E. by rewrite <- E.
    - destruct dir as [|c dir]; [done|].
      rewrite replace_scan_prefix by (done || lia).
      by rewrite replace_scan_absent. }
  rewrite Hrep. unfold strings_TrimPrefix.
  destruct (strings_HasPrefix (filepath_Base dir +:+ "/" +:+ rel) "/") eqn:E; [|done].
  exfalso. apply Hbase, filepath_Base_slash.
  pose proof (filepath_Base_nonempty dir) as Hne.
  unfold strings_HasPrefix in *.
  destruct (filepath_Base dir) as [|b bs]; [done|].
  change (String b bs +:+ "/" +:+ rel) with (String b (bs +:+ "/" +:+ rel)) in E.
  cbn [String.prefix] in *. destruct (ascii_dec "/" b); [|done]. by destruct bs.
Qed.

Lemma append_assoc (a b c : string) : (a +:+ b) +:+ c = a +:+ (b +:+ c).
Proof.
  induction a as [|x a IH]; [reflexivity|].
  change (String x ((a +:+ b) +:+ c) = String x (a +:+ (b +:+ c))).
  by rewrite IH.
Qed.

Lemma split_sep_nonempty (s : string) : split_sep s <> [].
Proof.
  induction s as [|c s IH]; [done|]. cbn [split_sep].
  destruct (Ascii.eqb c Separator); [done|]. by destruct (split_sep s).
Qed.

Lemma split_sep_app (a b : string) :
  split_sep (a +:+ "/" +:+ b) = split_sep a ++ split_sep b.
Proof.
  induction a as [|c a IH]; [reflexivity|].
  change (String c a +:+ "/" +:+ b) with (String c (a +:+ "/" +:+ b)).
  cbn [split_sep]. rewrite IH. destruct (Ascii.eqb c Separator); [reflexivity|].
  pose proof (split_sep_nonempty a) as Hne. by destruct (split_sep a).
Qed.

Lemma split_sep_entry (n : string) :
  strings_Contains n "/" = false -> split_sep n = [n].
Proof.
  induction n as [|c n IH]; [reflexivity|]. intros H.
  change (String.prefix "/" (String c n) || strings_Contains n "/" = false) in H.
  apply orb_false_elim in H as [Hp Hc]. cbn [split_sep].
  destruct (Ascii.eqb c Separator) eqn:E.
  - apply Ascii.eqb_eq in E. subst c. cbn [String.prefix] in Hp.
    destruct (ascii_dec "/" Separator); [by destruct n|done].
  - by rewrite IH.
Qed.

Lemma clean_elems_snoc (rooted : bool) (acc l : list string) (n : string) :
  entry_name n ->
  clean_elems rooted acc (l ++ [n]) = clean_elems rooted acc l ++ [n].
Proof.
  intros (H1 & H2 & H3 & _).
  assert (E1 : String.eqb n "" = false) by by apply String.eqb_neq.
  assert (E2 : String.eqb n "." = false) by by apply String.eqb_neq.
  assert (E3 : String.eqb n ".." = false) by by apply String.eqb_neq.
  revert acc. induction l as [|e l IH]; intros acc.
  { cbn [app clean_elems]. rewrite E1, E2, E3. reflexivity. }
  cbn [app clean_elems].
  destruct (String.eqb e "" || String.eqb e "."); [apply IH|].
  destruct (String.eqb e ".."); [|apply IH].
  destruct acc as [|top acc']; [destruct rooted; apply IH|].
  destruct (String.eqb top ".."); apply IH.
Qed.

Lemma strings_Join_snoc (xs : list string) (n : string) :
  xs <> [] ->
  strings_Join (xs ++ [n]) "/" = strings_Join xs "/" +:+ "/" +:+ n.
Proof.
  induction xs as [|x xs IH]; [done|]. intros _.
  destruct xs as [|y xs]; [reflexivity|].
  change (strings_Join ((x :: y :: xs) ++ [n]) "/")
    with (x +:+ "/" +:+ strings_Join ((y :: xs) ++ [n]) "/").
  rewrite IH by done.
  change (strings_Join (x :: y :: xs) "/")
    with (x +:+ "/" +:+ strings_Join (y :: xs) "/").
  by rewrite !append_assoc.
Qed.

(** A clean directory path stays clean when the name of an entry is joined
    to it, and the join is the plain concatenation. *)
Lemma path_Clean_entry (p n : string) :
  path_Clean p = p -> p <> "." -> p <> "/" -> entry_name n ->
  path_Clean (p +:+ "/" +:+ n) = p +:+ "/" +:+ n.
Proof.
  intros Hclean Hdot Hroot Hn. destruct p as [|c p]; [done|].
  change (String c p +:+ "/" +:+ n) with (String c (p +:+ "/" +:+ n)).
  unfold path_Clean in *.
  change (String c (p +:+ "/" +:+ n)) with (String c p +:+ "/" +:+ n).
  rewrite split_sep_app, (split_sep_entry n) by apply Hn.
  rewrite clean_elems_snoc by exact Hn.
  destruct (clean_elems (Ascii.eqb c Separator) [] (split_sep (String c p)))
    as [|x xs] eqn:E.
  { exfalso. cbn [strings_Join] in Hclean.
    destruct (Ascii.eqb c Separator); [apply Hroot|apply Hdot];
      rewrite <- Hclean; reflexivity. }
  rewrite strings_Join_snoc by done.
  destruct (Ascii.eqb c Separator).
  - rewrite <- Hclean. by rewrite !append_assoc.
  - destruct (String.eqb (strings_Join (x :: xs) "/") "") eqn:E0.
    { exfalso. congruence. }
    rewrite Hclean.
    destruct (String.eqb (String c p +:+ "/" +:+ n) "") eqn:E1; [|reflexivity].
    apply String.eqb_eq in E1. discriminate.
Qed.

Lemma filepath_Join_entry (p n : string) :
  path_Clean p = p -> p <> "." -> p <> "/" -> entry_name n ->
  filepath_Join [p; n] = p +:+ "/" +:+ n.
Proof.
  intros Hclean Hdot Hroot Hn. unfold filepath_Join, path_Join.
  assert (Hp : p <> "") by (intros ->; discriminate).
  destruct Hn as (Hne & Hrest). cbn [List.filter].
  apply String.eqb_neq in Hp, Hne. rewrite Hp, Hne. cbn [negb strings_Join].
  apply path_Clean_entry; try done. by apply String.eqb_neq in Hne.
Qed.

Lemma joined_long (p n : string) (x : ascii) :
  p <> "" -> p +:+ "/" +:+ n <> String x "".
Proof.
  destruct p as [|c p]; [done|]. intros _. destruct p; simpl; discriminate.
Qed.

Lemma walked_joined (root : string) (n : string) (names : list string) :
  path_Clean root = root -> root <> "." -> root <> "/" ->
  Forall entry_name (n :: names) ->
  walked root (n :: names) = root +:+ "/" +:+ strings_Join (n :: names) "/".
Proof.
  revert root n. induction names as [|m names IH]; intros root n Hc Hd Hr Hall.
  { inversion Hall; subst. cbn [walked fold_left strings_Join].
    by apply filepath_Join_entry. }
  inversion Hall as [|? ? Hn Hrest]; subst.
  assert (Hroot : root <> "") by (intros ->; discriminate).
  change (walked root (n :: m :: names))
    with (walked (filepath_Join [root; n]) (m :: names)).
  rewrite filepath_Join_entry by done.
  rewrite (IH (root +:+ "/" +:+ n) m).
  - change (strings_Join (n :: m :: names) "/")
      with (n +:+ "/" +:+ strings_Join (m :: names) "/").
    by rewrite !append_assoc.
  - by apply path_Clean_entry.
  - by apply joined_long.
  - by apply joined_long.
  - exact Hrest.
Qed.

(** The member name of a file below a clean root.  Let [dir] be a root
    that [path.Clean] leaves as it is (no trailing slash, no dot or empty
    element), other than "." and the slash, and let [names] be the names
    of the directory entries that lead from the root to the file.  Then the
    path that [filepath.Walk] passes for the file is [dir/names] and, when
    the root path does not occur again in the rest of that path, the file
    is stored as [Base(dir)/names].  (The root is replaced wherever it
    occurs in the path, see [archive_name_repeated_root]; for a root that
    is not clean see [archive_name_unclean_root].) *)
Theorem archive_name_under_root (dir : string) (names : list string) :
  path_Clean dir = dir -> dir <> "." -> filepath_Base dir <> "/" ->
  names <> [] -> Forall entry_name names ->
  strings_Contains ("/" +:+ strings_Join names "/") dir = false ->
  walked dir names = dir +:+ "/" +:+ strings_Join names "/"
  /\ archive_name dir (walked dir names)
     = filepath_Base dir +:+ "/" +:+ strings_Join names "/".
Proof.
  intros Hclean Hdot Hbase Hne Hall Hrel.
  destruct names as [|n names]; [done|].
  assert (Hroot : dir <> "/") by (intros ->; by apply Hbase).
  assert (Hdir : dir <> "") by (intros ->; discriminate).
  rewrite walked_joined by done. split; [reflexivity|].
  by apply archive_name_joined.
Qed.

(** The first file of the snapshot directory of [shadow_fs]. *)
Lemma archive_name_under_root_witness :
  walked "/data/shadow" ["1"; "a.bin"]
  = "/data/shadow" +:+ "/" +:+ strings_Join ["1"; "a.bin"] "/"
  /\ archive_name "/data/shadow" (walked "/data/shadow" ["1"; "a.bin"])
     = filepath_Base "/data/shadow" +:+ "/" +:+ strings_Join ["1"; "a.bin"] "/".
Proof.
  apply (archive_name_under_root "/data/shadow" ["1"; "a.bin"]).
  - reflexivity.
  - discriminate.
  - discriminate.
  - discriminate.
  - repeat constructor; discriminate.
  - reflexivity.
Defined.

(** A root path that occurs again below itself, or that ends with a slash,
    gives member names that are not paths below the base name. *)
Example archive_name_repeated_root :
  archive_name "/data" "/data/data/x" = "datadata/x"
  /\ archive_name "/data/shadow/" "/data/shadow/1/a.bin" = "shadow1/a.bin".
Proof. vm_compute. split; reflexivity. Qed.

(** Walk passes cleaned paths below a root that is not clean, so the root
    as given is not a prefix up to a slash: below "/data/shadow/" the
    slash after the base name is lost, and below "." the base name is. *)
Example archive_name_unclean_root :
  walked "/data/shadow/" ["1"; "a.bin"] = "/data/shadow/1/a.bin"
  /\ archive_name "/data/shadow/" (walked "/data/shadow/" ["1"; "a.bin"])
     = "shadow1/a.bin"
  /\ walked "." ["a.bin"] = "a.bin"
  /\ archive_name "." (walked "." ["a.bin"]) = "a.bin".
Proof. vm_compute. repeat split; reflexivity. Qed.

(** *** Roots *)

Lemma tarDir_nil (fs : FileSystem) (tw tw' : Writer) (dir : string) (l : logline) :
  tarDir fs tw dir = (tw', l, Return None) ->
  (exists fi, os_Stat fs dir = (fi, None) /\ IsDir fi = true)
  /\ exists n k, l = LogAdded n k.
Proof.
  unfold tarDir. destruct (os_Stat fs dir) as [fi [e|]]; [discriminate|].
  destruct (IsDir fi) eqn:Hdir; cbn [negb]; [|discriminate].
  destruct (filepath_Walk _ _ _) as [st err]. intros [= _ <- ->].
  split; [by exists fi|]. by eexists _, _.
Qed.

Lemma TarDirs_loop_nil (fs : FileSystem) (dirs : list string) (tw tw' : Writer)
    (logs : list logline) :
  TarDirs_loop fs tw dirs = (tw', logs, Return None) ->
  Forall (fun d => exists fi, os_Stat fs d = (fi, None) /\ IsDir fi = true) dirs
  /\ length logs = length dirs
  /\ Forall (fun l => exists n k, l = LogAdded n k) logs.
Proof.
  revert tw tw' logs.
  induction dirs as [|dir dirs IH]; intros tw tw' logs; cbn [TarDirs_loop].
  { intros [= _ <-]. by repeat split. }
  unfold TarDir. destruct (tarDir fs tw dir) as [[tw1 l] r] eqn:Hdir.
  destruct r as [[e|]|msg]; try discriminate.
  destruct (TarDirs_loop fs tw1 dirs) as [[tw2 ls] r] eqn:Hrest.
  intros [= <- <- ->]. apply tarDir_nil in Hdir as [Hstat Hlog].
  apply IH in Hrest as (Hall & Hlen & Hlogs).
  repeat split; [by constructor | simpl; by rewrite Hlen | by constructor].
Qed.

(** When [TarDirs] returns nil, every root it was given exists and is a
    directory, and each of them in turn was walked to the end: there is
    one log line per root, each reporting success. *)
Theorem TarDirs_nil_means_every_root_walked (fs : FileSystem) (w : Sink)
    (dirs : list string) (tw : Writer) (logs : list logline) :
  TarDirs fs w dirs = (tw, logs, Return None) ->
  Forall (fun d => exists fi, os_Stat fs d = (fi, None) /\ IsDir fi = true) dirs
  /\ length logs = length dirs
  /\ Forall (fun l => exists n k, l = LogAdded n k) logs.
Proof.
  unfold TarDirs. destruct (TarDirs_loop fs (NewWriter w) dirs) as [[tw1 ls] r] eqn:H.
  intros [= _ <- ->]. by apply TarDirs_loop_nil in H.
Qed.

(** The two roots of [shadow_fs]. *)
Lemma TarDirs_nil_means_every_root_walked_witness :
  Forall (fun d => exists fi, os_Stat shadow_fs d = (fi, None) /\ IsDir fi = true)
    ["/data/shadow"; "/data/metadata"]
  /\ length [LogAdded 2 2; LogAdded 1 0] = length ["/data/shadow"; "/data/metadata"]
  /\ Forall (fun l => exists n k, l = LogAdded n k) [LogAdded 2 2; LogAdded 1 0].
Proof.
  apply (TarDirs_nil_means_every_root_walked shadow_fs disk
           ["/data/shadow"; "/data/metadata"]
           (fst (fst (TarDirs shadow_fs disk ["/data/shadow"; "/data/metadata"])))).
  vm_compute. reflexivity.
Defined.

(** *** Bodies *)

Lemma string_length_app (a b : string) :
  String.length (a +:+ b) = (String.length a + String.length b)%nat.
Proof. induction a as [|c a IH]; simpl; [done|by rewrite IH]. Qed.

Lemma substring_length_le (n : nat) (s : string) :
  (String.length (substring 0 n s) <= n)%nat.
Proof.
  revert s. induction n as [|n IH]; intros [|c s]; simpl; try lia.
  specialize (IH s). lia.
Qed.

Lemma sink_Write_bounds (s s' : Sink) (m n : Z) (err : option error) :
  sink_Write s m = (n, err, s') -> 0 <= m -> 0 <= n <= m.
Proof.
  unfold sink_Write. destruct (sk_capacity s) as [cap|].
  - destruct (sk_accepted s + m <=? cap) eqn:E; intros [= <- _ _]; lia.
  - intros [= <- _ _]. lia.
Qed.

Lemma Flush_nb (tw tw' : Writer) (e : option error) :
  Flush tw = (tw', e) -> tw_nb tw' = tw_nb tw.
Proof.
  unfold Flush. destruct (tw_err tw); [by intros [= <- _]|].
  destruct (0 <? tw_nb tw); [by intros [= <- _]|].
  destruct (sink_Write (tw_w tw) (tw_pad tw)) as [[n err] w'].
  destruct err; by intros [= <- _].
Qed.

Lemma Flush_writer_ok (tw : Writer) : writer_ok tw -> writer_ok (fst (Flush tw)).
Proof.
  destruct (Flush tw) as [tw' e] eqn:H. unfold writer_ok. simpl.
  by rewrite (Flush_entries _ _ _ H), (Flush_nb _ _ _ H).
Qed.

Lemma WriteHeader_writer_ok (tw : Writer) (hdr : Header) :
  writer_ok tw -> writer_ok (fst (WriteHeader tw hdr)).
Proof.
  intros Hok. apply Flush_writer_ok in Hok. unfold WriteHeader.
  destruct (Flush tw) as [tw1 [e|]]; [exact Hok|]. simpl in Hok.
  destruct (sink_Write (tw_w tw1) blockSize) as [[n err] w'].
  destruct err; [exact Hok|]. destruct Hok as [Hall _].
  unfold writer_ok. cbn [fst tw_entries tw_nb]. rewrite last_snoc. split.
  - apply Forall_app. split; [exact Hall|]. constructor; [|constructor].
    unfold body_fits, announced. simpl. destruct (isHeaderOnlyType _); lia.
  - unfold announced. simpl. destruct (isHeaderOnlyType _); lia.
Qed.

Lemma Write_writer_ok (tw : Writer) (b : string) :
  writer_ok tw -> writer_ok (fst (fst (Write tw b))).
Proof.
  intros Hok. unfold Write. destruct (tw_err tw); [exact Hok|].
  set (len := Z.of_nat (String.length b)).
  set (m := if tw_nb tw <? len then Z.max 0 (tw_nb tw) else len).
  destruct (0 <? m) eqn:Hm; [|exact Hok].
  destruct (sink_Write (tw_w tw) m) as [[n err] w'] eqn:Hs.
  apply sink_Write_bounds in Hs; [|lia].
  assert (Hn : n <= Z.max 0 (tw_nb tw)).
  { subst m. destruct (tw_nb tw <? len) eqn:E; lia. }
  assert (Hok' : writer_ok (mkWriter w'
             (append_body (tw_entries tw) (substring 0 (Z.to_nat n) b))
             (tw_nb tw - n) (tw_pad tw) None)).
  { destruct Hok as [Hall Hlast]. unfold writer_ok. cbn [tw_entries tw_nb].
    destruct (last (tw_entries tw)) as [e|] eqn:El.
    - apply last_Some in El as [before Hb]. rewrite Hb in *. clear Hb.
      rewrite append_body_last, last_snoc.
      apply Forall_app in Hall as [Hbefore _].
      pose proof (substring_length_le (Z.to_nat n) b) as Hsub.
      assert (Hfit : Z.of_nat (String.length (e_body e +:+ substring 0 (Z.to_nat n) b))
                     + Z.max 0 (tw_nb tw - n) <= announced (e_hdr e)).
      { rewrite string_length_app. lia. }
      split; [|exact Hfit].
      apply Forall_app. split; [exact Hbefore|]. constructor; [|constructor].
      unfold body_fits. simpl. lia.
    - apply last_None in El. rewrite El. unfold append_body. simpl.
      split; [constructor|]. lia. }
  destruct err; exact Hok' || (destruct Hok' as [H1 H2]; split; [exact H1|exact H2]).
Qed.

Lemma io_Copy_writer_ok (tw : Writer) (data : string) (rerr : option error) :
  writer_ok tw -> writer_ok (fst (fst (io_Copy tw data rerr))).
Proof.
  intros Hok. unfold io_Copy. destruct (String.length data =? 0)%nat; [exact Hok|].
  pose proof (Write_writer_ok tw data Hok) as H.
  by destruct (Write tw data) as [[tw' n] [e|]].
Qed.

Lemma walkFn_writer_ok (dir : string) (st : pass) (step : WalkStep) :
  writer_ok (p_tw st) -> writer_ok (p_tw (fst (walkFn dir st step))).
Proof.
  intros Hok. unfold walkFn. destruct (ws_err step); [exact Hok|].
  destruct (IsDir _); [exact Hok|].
  destruct (FileInfoHeader _ _) as [hd [e|]]; [exact Hok|].
  destruct (p_seen st !! _).
  - match goal with |- context [WriteHeader ?tw ?h] =>
      pose proof (WriteHeader_writer_ok tw h Hok) as H;
      destruct (WriteHeader tw h) as [tw1 [e|]] end; exact H.
  - match goal with |- context [WriteHeader ?tw ?h] =>
      pose proof (WriteHeader_writer_ok tw h Hok) as H;
      destruct (WriteHeader tw h) as [tw1 [e|]] end; [exact H|].
    destruct (ws_open_err step); [exact H|]. simpl in H.
    pose proof (io_Copy_writer_ok tw1 (ws_data step) (ws_read_err step) H) as H2.
    by destruct (io_Copy _ _ _) as [[tw2 n] e].
Qed.

Lemma Walk_writer_ok (dir : string) (steps : list WalkStep) (st : pass) :
  writer_ok (p_tw st) ->
  writer_ok (p_tw (fst (filepath_Walk steps (walkFn dir) st))).
Proof.
  revert st. induction steps as [|step steps IH]; intros st Hok; [exact Hok|].
  cbn [filepath_Walk]. pose proof (walkFn_writer_ok dir st step Hok) as H.
  destruct (walkFn dir st step) as [st1 [e|]]; [exact H|]. by apply IH.
Qed.

Lemma tarDir_writer_ok (fs : FileSystem) (tw : Writer) (dir : string) :
  writer_ok tw -> writer_ok (fst (fst (tarDir fs tw dir))).
Proof.
  intros Hok. unfold tarDir. destruct (os_Stat fs dir) as [fi [e|]]; [exact Hok|].
  destruct (negb (IsDir fi)); [exact Hok|].
  pose proof (Walk_writer_ok dir (walk_steps fs dir) (mkPass tw ∅ 0 0) Hok) as H.
  by destruct (filepath_Walk _ _ _).
Qed.

Lemma TarDirs_loop_writer_ok (fs : FileSystem) (dirs : list string) (tw : Writer) :
  writer_ok tw -> writer_ok (fst (fst (TarDirs_loop fs tw dirs))).
Proof.
  revert tw. induction dirs as [|dir dirs IH]; intros tw Hok; [exact Hok|].
  cbn [TarDirs_loop]. unfold TarDir.
  pose proof (tarDir_writer_ok fs tw dir Hok) as H.
  destruct (tarDir fs tw dir) as [[tw1 l] [[e|]|msg]]; try exact H.
  specialize (IH tw1 H). by destruct (TarDirs_loop fs tw1 dirs) as [[tw2 ls] r].
Qed.

(** However [TarDirs] ends, no member of the archive holds more body bytes
    than its header announces, and members that are not regular files
    (links among them) hold none. *)
Theorem TarDirs_bodies_fit (fs : FileSystem) (w : Sink) (dirs : list string) :
  Forall body_fits (tw_entries (fst (fst (TarDirs fs w dirs)))).
Proof.
  unfold TarDirs.
  assert (H0 : writer_ok (NewWriter w)) by (split; [constructor|simpl; lia]).
  pose proof (TarDirs_loop_writer_ok fs dirs (NewWriter w) H0) as H.
  destruct (TarDirs_loop fs (NewWriter w) dirs) as [[tw logs] r]. cbn [fst] in *.
  destruct H as [Hall _]. unfold Close.
  destruct (Flush tw) as [tw1 e] eqn:Hf. apply Flush_entries in Hf.
  destruct e; cbn [fst]; [by rewrite Hf|].
  destruct (sink_Write _ _) as [[n err] w']. cbn [fst tw_entries]. by rewrite Hf.
Qed.

(** *** Headers *)

Lemma Write_headers (tw : Writer) (b : string) :
  map e_hdr (tw_entries (fst (fst (Write tw b)))) = map e_hdr (tw_entries tw).
Proof.
  unfold Write. destruct (tw_err tw); [done|]. destruct (0 <? _); [|done].
  destruct (sink_Write _ _) as [[n err] w'].
  assert (H : map e_hdr (append_body (tw_entries tw) (substring 0 (Z.to_nat n) b))
              = map e_hdr (tw_entries tw)).
  { destruct (last (tw_entries tw)) as [e|] eqn:El.
    - apply last_Some in El as [before ->]. rewrite append_body_last.
      by rewrite !map_app.
    - apply last_None in El. by rewrite El. }
  by destruct err.
Qed.

Lemma io_Copy_headers (tw : Writer) (data : string) (rerr : option error) :
  map e_hdr (tw_entries (fst (fst (io_Copy tw data rerr))))
  = map e_hdr (tw_entries tw).
Proof.
  unfold io_Copy. destruct (String.length data =? 0)%nat; [done|].
  pose proof (Write_headers tw data) as H.
  by destruct (Write tw data) as [[tw' n] [e|]].
Qed.

Lemma WriteHeader_headers (P : Header -> Prop) (tw : Writer) (hdr : Header) :
  P hdr -> Forall P (map e_hdr (tw_entries tw)) ->
  Forall P (map e_hdr (tw_entries (fst (WriteHeader tw hdr)))).
Proof.
  intros Hh Hall. unfold WriteHeader. destruct (Flush tw) as [tw1 e] eqn:Hf.
  apply Flush_entries in Hf. destruct e; cbn [fst]; [by rewrite Hf|].
  destruct (sink_Write _ _) as [[n err] w']. destruct err; cbn [fst tw_entries].
  - by rewrite Hf.
  - rewrite Hf, map_app. apply Forall_app. split; [exact Hall|]. by repeat constructor.
Qed.

Lemma walkFn_no_target (dir : string) (st : pass) (step : WalkStep) :
  Forall no_target (map e_hdr (tw_entries (p_tw st))) ->
  Forall no_target (map e_hdr (tw_entries (p_tw (fst (walkFn dir st step))))).
Proof.
  intros Hok. unfold walkFn. destruct (ws_err step); [exact Hok|].
  destruct (IsDir _); [exact Hok|].
  destruct (FileInfoHeader _ _) as [hd [e|]] eqn:Hh; [exact Hok|].
  assert (Hhd : no_target hd).
  { unfold FileInfoHeader in Hh. unfold no_target.
    destruct (fi_Type (ws_info step)); inversion Hh; subst; simpl; done. }
  destruct (p_seen st !! _).
  - match goal with |- context [WriteHeader ?tw ?h] =>
      assert (H : Forall no_target (map e_hdr (tw_entries (fst (WriteHeader tw h)))))
        by (apply WriteHeader_headers; [intros [=]|exact Hok]);
      destruct (WriteHeader tw h) as [tw1 [e|]] end; exact H.
  - match goal with |- context [WriteHeader ?tw ?h] =>
      assert (H : Forall no_target (map e_hdr (tw_entries (fst (WriteHeader tw h)))))
        by (apply WriteHeader_headers; [exact Hhd|exact Hok]);
      destruct (WriteHeader tw h) as [tw1 [e|]] end; [exact H|].
    destruct (ws_open_err step); [exact H|]. cbn [fst] in H.
    pose proof (io_Copy_headers tw1 (ws_data step) (ws_read_err step)) as H2.
    destruct (io_Copy _ _ _) as [[tw2 n] e]. cbn [fst p_tw] in *. by rewrite H2.
Qed.

Lemma Walk_no_target (dir : string) (steps : list WalkStep) (st : pass) :
  Forall no_target (map e_hdr (tw_entries (p_tw st))) ->
  Forall no_target
    (map e_hdr (tw_entries (p_tw (fst (filepath_Walk steps (walkFn dir) st))))).
Proof.
  revert st. induction steps as [|step steps IH]; intros st Hok; [exact Hok|].
  cbn [filepath_Walk]. pose proof (walkFn_no_target dir st step Hok) as H.
  destruct (walkFn dir st step) as [st1 [e|]]; [exact H|]. by apply IH.
Qed.

Lemma tarDir_no_target (fs : FileSystem) (tw : Writer) (dir : string) :
  Forall no_target (map e_hdr (tw_entries tw)) ->
  Forall no_target (map e_hdr (tw_entries (fst (fst (tarDir fs tw dir))))).
Proof.
  intros Hok. unfold tarDir. destruct (os_Stat fs dir) as [fi [e|]]; [exact Hok|].
  destruct (negb (IsDir fi)); [exact Hok|].
  pose proof (Walk_no_target dir (walk_steps fs dir) (mkPass tw ∅ 0 0) Hok) as H.
  by destruct (filepath_Walk _ _ _).
Qed.

Lemma TarDirs_loop_no_target (fs : FileSystem) (dirs : list string) (tw : Writer) :
  Forall no_target (map e_hdr (tw_entries tw)) ->
  Forall no_target (map e_hdr (tw_entries (fst (fst (TarDirs_loop fs tw dirs))))).
Proof.
  revert tw. induction dirs as [|dir dirs IH]; intros tw Hok; [exact Hok|].
  cbn [TarDirs_loop]. unfold TarDir.
  pose proof (tarDir_no_target fs tw dir Hok) as H.
  destruct (tarDir fs tw dir) as [[tw1 l] [[e|]|msg]]; try exact H.
  specialize (IH tw1 H). by destruct (TarDirs_loop fs tw1 dirs) as [[tw2 ls] r].
Qed.

Lemma Close_entries (tw : Writer) : tw_entries (fst (Close tw)) = tw_entries tw.
Proof.
  unfold Close. destruct (Flush tw) as [tw1 e] eqn:Hf. apply Flush_entries in Hf.
  destruct e; cbn [fst]; [exact Hf|].
  by destruct (sink_Write _ _) as [[n err] w'].
Qed.

(** However [TarDirs] ends, every symbolic link of the archive is stored
    without its target: the header is built by [FileInfoHeader(fi, "")], so
    the link name is empty, and the bytes read through the link are
    refused by the writer. *)
Theorem TarDirs_symlinks_lose_target (fs : FileSystem) (w : Sink)
    (dirs : list string) :
  Forall (fun e => h_Typeflag (e_hdr e) = TypeSymlink ->
                   h_Linkname (e_hdr e) = "" /\ e_body e = "")
    (tw_entries (fst (fst (TarDirs fs w dirs)))).
Proof.
  unfold TarDirs.
  assert (H0 : writer_ok (NewWriter w)) by (split; [constructor|simpl; lia]).
  pose proof (TarDirs_loop_writer_ok fs dirs (NewWriter w) H0) as [Hfit _].
  pose proof (TarDirs_loop_no_target fs dirs (NewWriter w) (Forall_nil_2 _)) as H.
  destruct (TarDirs_loop fs (NewWriter w) dirs) as [[tw logs] r]. cbn [fst] in *.
  rewrite Close_entries.
  rewrite Forall_map in H. rewrite Forall_forall in *.
  intros e He Hsym. split; [by apply H|].
  specialize (Hfit e He). unfold body_fits, announced in Hfit. rewrite Hsym in Hfit.
  simpl in Hfit. destruct (e_body e); [done|simpl in Hfit; lia].
Qed.

Lemma substring_whole (s : string) : substring 0 (String.length s) s = s.
Proof. induction s as [|c s IH]; simpl; [done|by rewrite IH]. Qed.

Lemma WriteHeader_ready (tw : Writer) (hdr : Header) :
  ready tw ->
  exists w', sk_capacity w' = None /\
    WriteHeader tw hdr =
      (mkWriter w' (tw_entries tw ++ [mkEntry hdr ""])
         (if isHeaderOnlyType (h_Typeflag hdr) then 0 else h_Size hdr)
         ((- (if isHeaderOnlyType (h_Typeflag hdr) then 0 else h_Size hdr)) mod blockSize)
         None, None).
Proof.
  intros (Herr & Hnb & Hcap). unfold WriteHeader, Flush. rewrite Herr.
  destruct (0 <? tw_nb tw) eqn:E; [lia|].
  unfold sink_Write. rewrite Hcap. cbn [sk_capacity tw_w tw_entries tw_nb tw_pad].
  eexists. split; [|reflexivity]. reflexivity.
Qed.

Lemma short_copy (tw : Writer) (s : WalkStep) (before : list Entry) (hdr : Header) :
  tw_err tw = None -> sk_capacity (tw_w tw) = None ->
  tw_entries tw = before ++ [mkEntry hdr ""] ->
  Z.of_nat (String.length (ws_data s)) < tw_nb tw ->
  exists tw', fst (fst (io_Copy tw (ws_data s) (ws_read_err s))) = tw'
    /\ tw_err tw' = None
    /\ tw_nb tw' = tw_nb tw - Z.of_nat (String.length (ws_data s))
    /\ tw_entries tw' = before ++ [mkEntry hdr (ws_data s)].
Proof.
  intros Herr Hcap Hent Hlen. unfold io_Copy.
  destruct (String.length (ws_data s) =? 0)%nat eqn:E0.
  { apply Nat.eqb_eq in E0. exists tw. repeat split; [done|lia|].
    rewrite Hent. destruct (ws_data s); [done|discriminate]. }
  apply Nat.eqb_neq in E0. unfold Write. rewrite Herr.
  destruct (tw_nb tw <? _) eqn:E1; [lia|].
  destruct (0 <? _) eqn:E2; [|lia].
  unfold sink_Write. rewrite Hcap. cbn [fst].
  eexists. split; [reflexivity|]. cbn [tw_err tw_nb tw_entries].
  repeat split.
  rewrite Hent, append_body_last, Nat2Z.id, substring_whole. reflexivity.
Qed.

(** A file that delivers fewer bytes than its size is written as it came
    and counted as added; the pass fails at the next file or link, whose
    header the writer refuses with its missed-writing error, which tells the
    number of bytes the short file still owed.  The writer is one that owes
    nothing and whose stream never fills up. *)
Theorem short_file_fails_the_next_header (dir : string) (st : pass)
    (a b : WalkStep) (rest : list WalkStep) :
  ready (p_tw st) ->
  reads_short a ->
  p_seen st !! identity a = None ->
  ws_err b = None -> IsDir (ws_info b) = false ->
  snd (FileInfoHeader (ws_info b) "") = None ->
  let '(st', err) := filepath_Walk (a :: b :: rest) (walkFn dir) st in
  err = Some (Errorf ("archive/tar: missed writing "
                      +:+ pretty (fi_Size (ws_info a)
                                  - Z.of_nat (String.length (ws_data a)))
                      +:+ " bytes"))
  /\ tw_entries (p_tw st')
     = tw_entries (p_tw st) ++ [mkEntry (content_header dir a) (ws_data a)]
  /\ p_nFiles st' = p_nFiles st + 1.
Proof.
  intros Hready (Haerr & Hareg & Haopen & Hashort) Hfresh Hberr Hbdir Hbhdr.
  cbn [filepath_Walk].
  assert (Ha : exists st1, walkFn dir st a = (st1, None)
             /\ tw_err (p_tw st1) = None
             /\ tw_nb (p_tw st1)
                = fi_Size (ws_info a) - Z.of_nat (String.length (ws_data a))
             /\ tw_entries (p_tw st1)
                = tw_entries (p_tw st) ++ [mkEntry (content_header dir a) (ws_data a)]
             /\ p_nFiles st1 = p_nFiles st + 1).
  { unfold walkFn. rewrite Haerr. unfold IsDir, FileInfoHeader. rewrite Hareg.
    rewrite bool_decide_eq_false_2 by done. rewrite devino_eta.
    fold (identity a). rewrite Hfresh. cbn [h_Typeflag h_Name h_Linkname h_Size h_Mode h_ModTime].
    fold (content_header dir a).
    destruct (WriteHeader_ready (p_tw st) (content_header dir a) Hready)
      as (w' & Hcap & ->).
    rewrite Haopen. cbn [content_header h_Typeflag isHeaderOnlyType h_Size].
    fold (content_header dir a).
    match goal with |- context [io_Copy ?tw _ _] =>
      destruct (short_copy tw a (tw_entries (p_tw st)) (content_header dir a))
        as (tw' & Heq & Herr' & Hnb' & Hent'); [done|done|done|simpl; lia|];
      destruct (io_Copy tw (ws_data a) (ws_read_err a)) as [[tw2 n] e] end.
    cbn [fst] in Heq. subst tw2. eexists. split; [reflexivity|]. by cbn [p_tw p_nFiles]. }
  destruct Ha as (st1 & -> & Herr1 & Hnb1 & Hent1 & Hn1).
  assert (Hb : walkFn dir st1 b = (st1, Some (ErrMissedWriting (tw_nb (p_tw st1))))).
  { unfold walkFn. rewrite Hberr, Hbdir.
    destruct (FileInfoHeader (ws_info b) "") as [hd e]. cbn [snd] in Hbhdr. subst e.
    assert (Hw : forall hdr,
               WriteHeader (p_tw st1) hdr
               = (p_tw st1, Some (ErrMissedWriting (tw_nb (p_tw st1))))).
    { intros hdr. unfold WriteHeader, Flush. rewrite Herr1.
      destruct (0 <? tw_nb (p_tw st1)) eqn:E; [done|lia]. }
    destruct (p_seen st1 !! _); rewrite Hw; by destruct st1. }
  rewrite Hb, Hnb1. by repeat split.
Qed.

(** The torn file of [torn_fs], five bytes long of which two are read,
    followed by one more file. *)
Lemma short_file_fails_the_next_header_witness :
  let '(st', err) :=
    filepath_Walk [torn_file; visit_file "/data/shadow/b.bin" "b.bin" "xy" 11]
      (walkFn "/data/shadow") (mkPass (NewWriter disk) ∅ 0 0) in
  err = Some (Errorf "archive/tar: missed writing 3 bytes")
  /\ tw_entries (p_tw st')
     = tw_entries (NewWriter disk)
       ++ [mkEntry (content_header "/data/shadow" torn_file) (ws_data torn_file)]
  /\ p_nFiles st' = 0 + 1.
Proof.
  apply (short_file_fails_the_next_header "/data/shadow"
           (mkPass (NewWriter disk) ∅ 0 0) torn_file
           (visit_file "/data/shadow/b.bin" "b.bin" "xy" 11) []).
  - repeat split; simpl; lia || reflexivity.
  - repeat split; simpl; lia || reflexivity.
  - reflexivity.
  - reflexivity.
  - reflexivity.
  - reflexivity.
Defined.

(** *** Roots after a failure *)

Lemma TarDirs_loop_app (fs : FileSystem) (l1 l2 : list string) (tw : Writer) :
  TarDirs_loop fs tw (l1 ++ l2)
  = let '(tw1, logs1, r1) := TarDirs_loop fs tw l1 in
    match r1 with
    | Return None =>
        let '(tw2, logs2, r2) := TarDirs_loop fs tw1 l2 in (tw2, logs1 ++ logs2, r2)
    | _ => (tw1, logs1, r1)
    end.
Proof.
  revert tw. induction l1 as [|d l1 IH]; intros tw; cbn [app TarDirs_loop].
  { by destruct (TarDirs_loop fs tw l2) as [[tw2 logs2] r2]. }
  destruct (TarDir fs tw d) as [[tw1 l] [[e|]|msg]]; try reflexivity.
  rewrite IH. destruct (TarDirs_loop fs tw1 l1) as [[tw2 ls] [[e|]|msg]]; try reflexivity.
  by destruct (TarDirs_loop fs tw2 l2) as [[tw3 logs3] r3].
Qed.

(** When [TarDirs] over some roots does not return nil, roots given after
    them change nothing: not the archive, not the log, not the outcome. *)
Theorem TarDirs_stops_at_the_first_failing_root (fs : FileSystem) (w : Sink)
    (done rest : list string) :
  snd (TarDirs fs w done) <> Return None ->
  TarDirs fs w (done ++ rest) = TarDirs fs w done.
Proof.
  unfold TarDirs. rewrite TarDirs_loop_app.
  destruct (TarDirs_loop fs (NewWriter w) done) as [[tw1 logs1] r1]. cbn [snd].
  destruct r1 as [[e|]|msg]; done.
Qed.

(** A root that does not exist, before the metadata directory. *)
Lemma TarDirs_stops_at_the_first_failing_root_witness :
  TarDirs shadow_fs disk (["/data/shadow"; "/data/lost"] ++ ["/data/metadata"])
  = TarDirs shadow_fs disk ["/data/shadow"; "/data/lost"].
Proof.
  apply (TarDirs_stops_at_the_first_failing_root shadow_fs disk
           ["/data/shadow"; "/data/lost"] ["/data/metadata"]).
  vm_compute. discriminate.
Defined.

(** *** Links *)

Lemma links_resolve_snoc (hs : list Header) (h : Header) :
  links_resolve hs ->
  (h_Typeflag h = TypeLink ->
   exists h0, In h0 hs /\ h_Name h0 = h_Linkname h /\ h_Typeflag h0 <> TypeLink) ->
  links_resolve (hs ++ [h]).
Proof.
  intros Hhs Hh pre x post Heq Hx.
  destruct post as [|y post _] using rev_ind.
  - apply app_inj_tail in Heq as [-> ->]. by apply Hh.
  - change (pre ++ x :: post ++ [y]) with (pre ++ (x :: post) ++ [y]) in Heq.
    rewrite app_assoc in Heq. apply app_inj_tail in Heq as [-> _].
    by eapply Hhs.
Qed.

Lemma seen_stored_app (seen : gmap devino string) (hs more : list Header) :
  seen_stored seen hs -> seen_stored seen (hs ++ more).
Proof.
  intros H d name Hd. destruct (H d name Hd) as (h0 & Hin & Hn).
  exists h0. split; [|exact Hn]. apply in_app_iff. by left.
Qed.

Lemma WriteHeader_cases (tw : Writer) (hdr : Header) :
  (snd (WriteHeader tw hdr) <> None
   /\ headers (fst (WriteHeader tw hdr)) = headers tw)
  \/ (snd (WriteHeader tw hdr) = None
      /\ headers (fst (WriteHeader tw hdr)) = headers tw ++ [hdr]).
Proof.
  unfold WriteHeader, headers. destruct (Flush tw) as [tw1 e] eqn:Hf.
  apply Flush_entries in Hf. destruct e; cbn [fst snd]; [left; by rewrite Hf|].
  destruct (sink_Write _ _) as [[n err] w']. destruct err; cbn [fst snd tw_entries].
  - left. by rewrite Hf.
  - right. by rewrite Hf, map_app.
Qed.

Lemma walkFn_pass_ok (dir : string) (st : pass) (step : WalkStep) :
  pass_ok st -> pass_ok (fst (walkFn dir st step)).
Proof.
  intros [Hl Hs]. unfold walkFn. destruct (ws_err step); [by split|].
  destruct (IsDir _); [by split|].
  destruct (FileInfoHeader _ _) as [hd [e|]] eqn:Hh; [by split|].
  assert (Hhd : h_Typeflag hd <> TypeLink).
  { unfold FileInfoHeader in Hh.
    destruct (fi_Type (ws_info step)); inversion Hh; subst; simpl; done. }
  destruct (p_seen st !! _) as [orig|] eqn:Hseen.
  - match goal with |- context [WriteHeader ?tw ?h] =>
      destruct (WriteHeader_cases tw h) as [[_ Heq]|[_ Heq]];
      destruct (WriteHeader tw h) as [tw1 [e|]] end;
      cbn [fst snd p_tw p_seen] in *; unfold pass_ok; cbn [p_tw p_seen];
      rewrite Heq; try (by split).
    + split; [|by apply seen_stored_app].
      apply links_resolve_snoc; [exact Hl|]. intros _. cbn [h_Linkname].
      by apply (Hs _ _ Hseen).
    + split; [|by apply seen_stored_app].
      apply links_resolve_snoc; [exact Hl|]. intros _. cbn [h_Linkname].
      by apply (Hs _ _ Hseen).
  - match goal with |- context [WriteHeader ?tw ?h] =>
      destruct (WriteHeader_cases tw h) as [[Hne Heq]|[Hnone Heq]];
      destruct (WriteHeader tw h) as [tw1 [e|]] end;
      cbn [fst snd] in *; try done.
    + unfold pass_ok. cbn [p_tw p_seen]. rewrite Heq. by split.
    + assert (Hl1 : links_resolve (headers tw1)).
      { rewrite Heq. apply links_resolve_snoc; [exact Hl|]. by intros H. }
      destruct (ws_open_err step).
      { unfold pass_ok. cbn [fst p_tw p_seen]. split; [exact Hl1|].
        rewrite Heq. by apply seen_stored_app. }
      pose proof (io_Copy_headers tw1 (ws_data step) (ws_read_err step)) as Hc.
      destruct (io_Copy _ _ _) as [[tw2 n] e]. cbn [fst] in *.
      unfold pass_ok, headers in *. cbn [p_tw p_seen]. rewrite Hc.
      split; [exact Hl1|]. rewrite Heq.
      intros d name Hd. apply lookup_insert_Some in Hd as [[_ <-]|[_ Hd]].
      * eexists. split; [apply in_app_iff; right; by left|]. by split.
      * destruct (Hs _ _ Hd) as (h0 & Hin & Hn). exists h0.
        split; [apply in_app_iff; by left|exact Hn].
Qed.

Lemma Walk_pass_ok (dir : string) (steps : list WalkStep) (st : pass) :
  pass_ok st -> pass_ok (fst (filepath_Walk steps (walkFn dir) st)).
Proof.
  revert st. induction steps as [|step steps IH]; intros st Hok; [exact Hok|].
  cbn [filepath_Walk]. pose proof (walkFn_pass_ok dir st step Hok) as H.
  destruct (walkFn dir st step) as [st1 [e|]]; [exact H|]. by apply IH.
Qed.

Lemma tarDir_links_resolve (fs : FileSystem) (tw : Writer) (dir : string) :
  links_resolve (headers tw) -> links_resolve (headers (fst (fst (tarDir fs tw dir)))).
Proof.
  intros Hok. unfold tarDir. destruct (os_Stat fs dir) as [fi [e|]]; [exact Hok|].
  destruct (negb (IsDir fi)); [exact Hok|].
  assert (H0 : pass_ok (mkPass tw ∅ 0 0)) by (split; [exact Hok|by intros d name]).
  pose proof (Walk_pass_ok dir (walk_steps fs dir) _ H0) as [H _].
  by destruct (filepath_Walk _ _ _).
Qed.

Lemma TarDirs_loop_links_resolve (fs : FileSystem) (dirs : list string) (tw : Writer) :
  links_resolve (headers tw) ->
  links_resolve (headers (fst (fst (TarDirs_loop fs tw dirs)))).
Proof.
  revert tw. induction dirs as [|dir dirs IH]; intros tw Hok; [exact Hok|].
  cbn [TarDirs_loop]. unfold TarDir.
  pose proof (tarDir_links_resolve fs tw dir Hok) as H.
  destruct (tarDir fs tw dir) as [[tw1 l] [[e|]|msg]]; try exact H.
  specialize (IH tw1 H). by destruct (TarDirs_loop fs tw1 dirs) as [[tw2 ls] r].
Qed.

(** However [TarDirs] ends, every link of the archive names a member that
    is stored before it and is not a link itself. *)
Theorem TarDirs_links_point_back (fs : FileSystem) (w : Sink) (dirs : list string)
    (pre post : list Entry) (e : Entry) :
  tw_entries (fst (fst (TarDirs fs w dirs))) = pre ++ e :: post ->
  h_Typeflag (e_hdr e) = TypeLink ->
  exists e0, In e0 pre
             /\ h_Name (e_hdr e0) = h_Linkname (e_hdr e)
             /\ h_Typeflag (e_hdr e0) <> TypeLink.
Proof.
  intros Heq Hlink.
  assert (H : links_resolve (headers (fst (fst (TarDirs fs w dirs))))).
  { unfold TarDirs.
    assert (H0 : links_resolve (headers (NewWriter w))) by (by intros [|] ? ? ?).
    pose proof (TarDirs_loop_links_resolve fs dirs (NewWriter w) H0) as H.
    destruct (TarDirs_loop fs (NewWriter w) dirs) as [[tw logs] r]. cbn [fst] in *.
    unfold headers. by rewrite Close_entries. }
  unfold headers in H. rewrite Heq, map_app in H. cbn [map] in H.
  destruct (H _ _ _ eq_refl Hlink) as (h0 & Hin & Hn).
  apply in_map_iff in Hin as (e0 & <- & Hin). by exists e0.
Qed.

(** The second member of the archive of the snapshot directory of
    [shadow_fs], a link to the first. *)
Lemma TarDirs_links_point_back_witness :
  exists e0,
    In e0 [mkEntry (content_header "/data/shadow"
                      (visit_file "/data/shadow/1/a.bin" "a.bin" "hello" 10)) "hello"]
    /\ h_Name (e_hdr e0) = "shadow/1/a.bin"
    /\ h_Typeflag (e_hdr e0) <> TypeLink.
Proof.
  apply (TarDirs_links_point_back shadow_fs disk ["/data/shadow"]
           [mkEntry (content_header "/data/shadow"
                       (visit_file "/data/shadow/1/a.bin" "a.bin" "hello" 10)) "hello"]
           (drop 2 (tw_entries (fst (fst (TarDirs shadow_fs disk ["/data/shadow"])))))
           (mkEntry (link_header "/data/shadow" "shadow/1/a.bin"
                       (visit_file "/data/shadow/2/a.bin" "a.bin" "hello" 10)) "")).
  - vm_compute. reflexivity.
  - reflexivity.
Defined.

Lemma walkFn_counted (dir : string) (st st' : pass) (step : WalkStep) :
  walkFn dir st step = (st', None) -> exists hs, counted st st' hs.
Proof.
  unfold walkFn. destruct (ws_err step); [discriminate|].
  destruct (IsDir _).
  { intros [= <-]. exists []. unfold counted, links_in. rewrite app_nil_r.
    simpl. repeat split; lia. }
  destruct (FileInfoHeader _ _) as [hd [e|]] eqn:Hh; [discriminate|].
  assert (Hhd : h_Typeflag hd <> TypeLink).
  { unfold FileInfoHeader in Hh.
    destruct (fi_Type (ws_info step)); inversion Hh; subst; simpl; done. }
  destruct (p_seen st !! _) as [orig|].
  - match goal with |- context [WriteHeader ?tw ?h] =>
      destruct (WriteHeader_cases tw h) as [[Hne Heq]|[_ Heq]];
      destruct (WriteHeader tw h) as [tw1 [e|]] end;
      cbn [fst snd] in *; try discriminate; try done.
    intros [= <-]. eexists. unfold counted. cbn [p_tw p_hLinks p_nFiles].
    split; [exact Heq|]. unfold links_in. simpl. split; lia.
  - match goal with |- context [WriteHeader ?tw ?h] =>
      destruct (WriteHeader_cases tw h) as [[Hne Heq]|[_ Heq]];
      destruct (WriteHeader tw h) as [tw1 [e|]] end;
      cbn [fst snd] in *; try discriminate; try done.
    destruct (ws_open_err step); [discriminate|].
    pose proof (io_Copy_headers tw1 (ws_data step) (ws_read_err step)) as Hc.
    destruct (io_Copy _ _ _) as [[tw2 n] e]. cbn [fst] in *.
    intros [= <-]. eexists. unfold counted, headers in *.
    cbn [p_tw p_hLinks p_nFiles]. rewrite Hc.
    split; [exact Heq|]. unfold links_in, is_link. cbn [List.filter h_Typeflag].
    rewrite bool_decide_eq_false_2 by done. simpl. split; lia.
Qed.

Lemma counted_trans (st1 st2 st3 : pass) (h1 h2 : list Header) :
  counted st1 st2 h1 -> counted st2 st3 h2 -> counted st1 st3 (h1 ++ h2).
Proof.
  intros (Ha & Hb & Hc) (Ha' & Hb' & Hc'). unfold counted, links_in in *.
  rewrite Ha', Ha, app_assoc, List.filter_app, !length_app.
  repeat split; lia.
Qed.

Lemma Walk_counted (dir : string) (steps : list WalkStep) (st st' : pass) :
  filepath_Walk steps (walkFn dir) st = (st', None) -> exists hs, counted st st' hs.
Proof.
  revert st. induction steps as [|step steps IH]; intros st; cbn [filepath_Walk].
  { intros [= <-]. exists []. unfold counted, links_in. rewrite app_nil_r.
    simpl. repeat split; lia. }
  destruct (walkFn dir st step) as [st1 [e|]] eqn:Hstep; [discriminate|].
  intros Hrest. apply walkFn_counted in Hstep as [h1 H1].
  apply IH in Hrest as [h2 H2]. exists (h1 ++ h2). by eapply counted_trans.
Qed.

(** The line a successful pass logs counts what it added to the archive:
    [nFiles + hLinks] members, [hLinks] of them links. *)
Theorem tarDir_log_counts_the_members (fs : FileSystem) (tw tw' : Writer)
    (dir : string) (nFiles hLinks : Z) :
  tarDir fs tw dir = (tw', LogAdded nFiles hLinks, Return None) ->
  exists added : list Header,
    headers tw' = headers tw ++ added
    /\ hLinks = links_in added
    /\ nFiles + hLinks = Z.of_nat (length added).
Proof.
  unfold tarDir. destruct (os_Stat fs dir) as [fi [e|]]; [discriminate|].
  destruct (negb (IsDir fi)); [discriminate|].
  destruct (filepath_Walk _ _ _) as [st err] eqn:Hwalk.
  destruct err as [e|]; [discriminate|]. cbn [tarDir_log].
  intros [= <- <- <-]. apply Walk_counted in Hwalk as (hs & Ha & Hb & Hc).
  cbn [p_tw p_hLinks p_nFiles] in *. exists hs. repeat split; [exact Ha|lia|lia].
Qed.

(** The snapshot directory of [shadow_fs]: two files and two links. *)
Lemma tarDir_log_counts_the_members_witness :
  exists added : list Header,
    headers (fst (fst (tarDir shadow_fs (NewWriter disk) "/data/shadow")))
    = headers (NewWriter disk) ++ added
    /\ 2 = links_in added
    /\ 2 + 2 = Z.of_nat (length added).
Proof.
  apply (tarDir_log_counts_the_members shadow_fs (NewWriter disk)
           (fst (fst (tarDir shadow_fs (NewWriter disk) "/data/shadow")))
           "/data/shadow" 2 2).
  vm_compute. reflexivity.
Defined.

Lemma first_header_not_link (dir : string) (s : WalkStep) :
  h_Typeflag (first_header dir s) <> TypeLink.
Proof.
  unfold first_header, FileInfoHeader. destruct (fi_Type (ws_info s)); discriminate.
Qed.

Lemma plan_first (dir : string) (seen : gmap devino string)
    (before : list WalkStep) (f : WalkStep) (after : list WalkStep) :
  seen !! identity f = None ->
  Forall (fun g => identity g <> identity f) before ->
  In (first_header dir f) (plan dir seen (before ++ f :: after)).
Proof.
  revert seen. induction before as [|g before IH]; intros seen Hf Hb.
  { cbn [app plan]. rewrite Hf. by left. }
  inversion Hb as [|? ? Hg Hb']; subst. cbn [app plan].
  destruct (seen !! identity g).
  - right. by apply IH.
  - right. apply IH; [|exact Hb']. by rewrite lookup_insert_ne.
Qed.

Lemma tarDir_plan (fs : FileSystem) (tw tw' : Writer) (dir : string) (l : logline) :
  tarDir fs tw dir = (tw', l, Return None) ->
  map e_hdr (tw_entries tw') = map e_hdr (tw_entries tw) ++ root_plan fs dir.
Proof.
  unfold tarDir. destruct (os_Stat fs dir) as [fi [e|]]; [discriminate|].
  destruct (negb (IsDir fi)); [discriminate|].
  destruct (filepath_Walk _ _ _) as [st err] eqn:Hw. intros [= <- _ ->].
  apply Walk_ok in Hw as (added & Hent & Hplan).
  cbn [p_tw p_seen] in *. by rewrite Hent, map_app, Hplan.
Qed.

Lemma TarDirs_loop_plan (fs : FileSystem) (dirs : list string) (tw tw' : Writer)
    (logs : list logline) :
  TarDirs_loop fs tw dirs = (tw', logs, Return None) ->
  map e_hdr (tw_entries tw')
  = map e_hdr (tw_entries tw) ++ concat (map (root_plan fs) dirs).
Proof.
  revert tw logs. induction dirs as [|dir dirs IH]; intros tw logs; cbn [TarDirs_loop].
  { intros [= <- _]. by rewrite app_nil_r. }
  unfold TarDir. destruct (tarDir fs tw dir) as [[tw1 l] r] eqn:Hd.
  destruct r as [[e|]|msg]; try discriminate.
  destruct (TarDirs_loop fs tw1 dirs) as [[tw2 ls] r2] eqn:Hrest.
  intros [= <- _ ->]. apply tarDir_plan in Hd. apply IH in Hrest.
  cbn [map concat]. by rewrite Hrest, Hd, app_assoc.
Qed.

(** The map of seen identities lives for one root directory.  When
    [TarDirs] returns nil, the headers of the archive are, root after root,
    the plan of one pass over the files of that root started from the empty
    map, whatever the roots before it have stored.  So the first file of an
    identity within a root is written with a header of its own, never as a
    link, also when a file of the same identity was stored under an earlier
    root: a file linked under two roots is stored with its content twice. *)
Theorem TarDirs_roots_do_not_share_identities (fs : FileSystem) (w : Sink)
    (dirs : list string) (tw : Writer) (logs : list logline) :
  TarDirs fs w dirs = (tw, logs, Return None) ->
  map e_hdr (tw_entries tw) = concat (map (root_plan fs) dirs)
  /\ forall dir before f after,
       In dir dirs ->
       List.filter is_file (walk_steps fs dir) = before ++ f :: after ->
       Forall (fun g => identity g <> identity f) before ->
       In (first_header dir f) (map e_hdr (tw_entries tw))
       /\ h_Typeflag (first_header dir f) <> TypeLink.
Proof.
  unfold TarDirs. destruct (TarDirs_loop fs (NewWriter w) dirs) as [[tw1 ls] r] eqn:H.
  intros [= <- _ ->]. rewrite Close_entries.
  apply TarDirs_loop_plan in H. cbn [NewWriter tw_entries map app] in H.
  split; [exact H|].
  intros dir before f after Hdir Hfiles Hfresh. split; [|apply first_header_not_link].
  rewrite H. apply in_concat. exists (root_plan fs dir). split.
  - apply in_map_iff. by exists dir.
  - unfold root_plan. rewrite Hfiles. by apply plan_first.
Qed.

(** The two roots of [shadow_fs], which share the identity [hardlinked]. *)
Lemma TarDirs_roots_do_not_share_identities_witness :
  let tw := fst (fst (TarDirs shadow_fs disk ["/data/shadow"; "/data/metadata"])) in
  map e_hdr (tw_entries tw)
  = concat (map (root_plan shadow_fs) ["/data/shadow"; "/data/metadata"])
  /\ forall dir before f after,
       In dir ["/data/shadow"; "/data/metadata"] ->
       List.filter is_file (walk_steps shadow_fs dir) = before ++ f :: after ->
       Forall (fun g => identity g <> identity f) before ->
       In (first_header dir f) (map e_hdr (tw_entries tw))
       /\ h_Typeflag (first_header dir f) <> TypeLink.
Proof.
  apply (TarDirs_roots_do_not_share_identities shadow_fs disk
           ["/data/shadow"; "/data/metadata"] _ [LogAdded 2 2; LogAdded 1 0]).
  vm_compute. reflexivity.
Defined.

(** ** More on table selection *)

Lemma occurrences_app {A : Type} `{EqDecision A} (x : A) (l1 l2 : list A) :
  occurrences x (l1 ++ l2) = (occurrences x l1 + occurrences x l2)%nat.
Proof. unfold occurrences. by rewrite List.filter_app, length_app. Qed.

Lemma occurrences_filter {A : Type} `{EqDecision A} (f : A -> bool) (x : A)
    (l : list A) :
  occurrences x (List.filter f l) = if f x then occurrences x l else O.
Proof.
  unfold occurrences. induction l as [|y l IH]; simpl; [by destruct (f x)|].
  destruct (f y) eqn:Ey; simpl.
  - case_bool_decide as Hy; simpl; rewrite IH; [subst y; by rewrite Ey|done].
  - rewrite IH. case_bool_decide as Hy; [subst y; by rewrite Ey|done].
Qed.

Lemma occurrences_In {A : Type} `{EqDecision A} (x : A) (l : list A) :
  In x l <-> (0 < occurrences x l)%nat.
Proof.
  unfold occurrences. induction l as [|y l IH]; simpl; [split; [tauto|lia]|].
  case_bool_decide as Hy; simpl; [subst; split; [lia|tauto]|].
  rewrite <- IH. split; [intros [?|?]; congruence || done | tauto].
Qed.

Lemma occurrences_blocks (tables : list Table) (args : list string) (t : Table) :
  occurrences t
    (concat (map (fun arg => List.filter (fun x => matches arg (table_name x)) tables)
               args))
  = (occurrences t tables
     * length (List.filter (fun a => matches a (table_name t)) args))%nat.
Proof.
  induction args as [|a args IH]; simpl; [unfold occurrences; simpl; lia|].
  rewrite occurrences_app, IH, occurrences_filter.
  destruct (matches a (table_name t)); simpl; lia.
Qed.

(** With at least one pattern, [parseArgsForFreeze] lists a table once per
    pattern that matches it (times the number of its entries in the
    catalog): a table that two patterns match is listed twice.  So a table
    is selected exactly when it is in the catalog and some pattern matches
    it. *)
Theorem parseArgsForFreeze_once_per_matching_pattern
    (tables : list Table) (args : list string) (t : Table) :
  args <> [] ->
  occurrences t (fst (parseArgsForFreeze tables args))
  = (occurrences t tables
     * length (List.filter (fun a => matches a (table_name t)) args))%nat
  /\ (In t (fst (parseArgsForFreeze tables args)) <->
      In t tables /\ exists a, In a args /\ matches a (table_name t) = true).
Proof.
  intros Hargs.
  assert (Hocc : occurrences t (fst (parseArgsForFreeze tables args))
     = (occurrences t tables
        * length (List.filter (fun a => matches a (table_name t)) args))%nat).
  { unfold parseArgsForFreeze. destruct args as [|a args]; [done|].
    cbn [length Nat.eqb fst]. rewrite freeze_outer. cbn [app].
    apply occurrences_blocks. }
  split; [exact Hocc|].
  rewrite !occurrences_In, Hocc.
  assert (Hlen : (0 < length (List.filter (fun a => matches a (table_name t)) args))%nat
                 <-> exists a, In a args /\ matches a (table_name t) = true).
  { split.
    - destruct (List.filter _ args) as [|a l] eqn:E; simpl; [lia|]. intros _.
      exists a. apply (proj1 (filter_In (fun a => matches a (table_name t)) a args)).
      rewrite E. by left.
    - intros (a & Ha).
      apply (proj2 (filter_In (fun a => matches a (table_name t)) a args)) in Ha.
      destruct (List.filter _ args); [done|simpl; lia]. }
  rewrite <- Hlen. nia.
Qed.

(** Two patterns that both match [db.a]. *)
Lemma parseArgsForFreeze_once_per_matching_pattern_witness :
  occurrences (mkTable "db" "a")
    (fst (parseArgsForFreeze [mkTable "db" "a"; mkTable "db" "b"] ["db.*"; "*.a"]))
  = (occurrences (mkTable "db" "a") [mkTable "db" "a"; mkTable "db" "b"]
     * length (List.filter (fun a => matches a (table_name (mkTable "db" "a")))
                 ["db.*"; "*.a"]))%nat
  /\ (In (mkTable "db" "a")
        (fst (parseArgsForFreeze [mkTable "db" "a"; mkTable "db" "b"] ["db.*"; "*.a"]))
      <-> In (mkTable "db" "a") [mkTable "db" "a"; mkTable "db" "b"]
          /\ exists a, In a ["db.*"; "*.a"]
                       /\ matches a (table_name (mkTable "db" "a")) = true).
Proof.
  apply (parseArgsForFreeze_once_per_matching_pattern
           [mkTable "db" "a"; mkTable "db" "b"] ["db.*"; "*.a"] (mkTable "db" "a")).
  discriminate.
Defined.

(** The table [db.a] is selected twice. *)
Example freeze_selects_twice :
  fst (parseArgsForFreeze [mkTable "db" "a"; mkTable "db" "b"] ["db.*"; "*.a"])
  = [mkTable "db" "a"; mkTable "db" "b"; mkTable "db" "a"].
Proof. vm_compute. reflexivity. Qed.

(** *** Restore *)

Lemma has_increment_In (increments : list Z) (n : Z) :
  has_increment increments n = true <-> In n increments.
Proof.
  induction increments as [|i l IH]; simpl; [split; [done|tauto]|].
  destruct (i =? n) eqn:E; [apply Z.eqb_eq in E; tauto|].
  apply Z.eqb_neq in E. rewrite IH. split; [tauto|]. by intros [?|?].
Qed.

Lemma wanted_spec (increments : list Z) (t : BackupTable) :
  wanted increments t = true <-> increments = [] \/ In (bt_Increment t) increments.
Proof.
  unfold wanted. rewrite orb_true_iff, has_increment_In.
  destruct increments as [|i l].
  - split; intros _; by left.
  - split; (intros [H|H]; [discriminate|by right]).
Qed.

Lemma range_values_In (iter : range_order) (i : nat)
    (tables : gmap string BackupTable) (t : BackupTable) :
  (forall i l, Permutation (iter i l) l) ->
  In t (range_values iter i tables) <-> exists k, tables !! k = Some t.
Proof.
  intros Hiter. unfold range_values. rewrite in_map_iff. split.
  - intros ([k t'] & <- & Hin). exists k. apply elem_of_map_to_list.
    apply list_elem_of_In in Hin. by rewrite (Hiter i _) in Hin.
  - intros (k & Hk). exists (k, t). split; [done|].
    apply list_elem_of_In. rewrite (Hiter i _). by apply elem_of_map_to_list.
Qed.

Lemma restore_blocks_In (iter : range_order) (tables : gmap string BackupTable)
    (increments : list Z) (args : list string) (i : nat) (t : BackupTable) :
  (forall i l, Permutation (iter i l) l) ->
  In t (concat (restore_blocks iter tables increments i args)) <->
    (exists k, tables !! k = Some t)
    /\ (exists a, In a args /\ matches a (backup_name t) = true)
    /\ wanted increments t = true.
Proof.
  intros Hiter. revert i. induction args as [|a args IH]; intros i; simpl.
  { split; [done|]. by intros (_ & (a & [] & _) & _). }
  rewrite in_app_iff, IH, filter_In, range_values_In, andb_true_iff by done.
  split.
  - intros [(Hk & Hm & Hw)|(Hk & (a' & Ha' & Hm) & Hw)]; eauto 8.
  - intros (Hk & (a' & [<-|Ha'] & Hm) & Hw); eauto 8.
Qed.

(** Whatever the order in which the runtime visits the map,
    [parseArgsForRestore] selects exactly the backup tables of the map that
    some pattern matches (the pattern "*" when none is given) and whose
    increment is listed (any increment when none is listed). *)
Theorem parseArgsForRestore_selects (iter : range_order)
    (tables : gmap string BackupTable) (args : list string) (increments : list Z)
    (t : BackupTable) :
  (forall i l, Permutation (iter i l) l) ->
  In t (fst (parseArgsForRestore iter tables args increments)) <->
    (exists k, tables !! k = Some t)
    /\ (exists a, In a (if (length args =? 0)%nat then ["*"] else args)
                  /\ matches a (backup_name t) = true)
    /\ (increments = [] \/ In (bt_Increment t) increments).
Proof.
  intros Hiter. unfold parseArgsForRestore. cbn [fst].
  rewrite restore_outer. cbn [app]. rewrite restore_blocks_In by done.
  by rewrite wanted_spec.
Qed.

Lemma filter_Permutation_bool {A : Type} (f : A -> bool) (l1 l2 : list A) :
  Permutation l1 l2 -> Permutation (List.filter f l1) (List.filter f l2).
Proof.
  induction 1 as [|x l1 l2 _ IH|x y l|l1 l2 l3 _ IH1 _ IH2]; simpl.
  - constructor.
  - destruct (f x); [by constructor|done].
  - destruct (f x), (f y); try done. constructor.
  - by etrans.
Qed.

(** Without patterns and increments, [parseArgsForRestore] returns each
    backup table whose name [db.table] holds no slash, once, and no other:
    the default pattern "*" does not match across a slash. *)
Theorem parseArgsForRestore_default (iter : range_order)
    (tables : gmap string BackupTable) :
  (forall i l, Permutation (iter i l) l) ->
  Permutation (fst (parseArgsForRestore iter tables [] []))
    (List.filter (fun t => negb (strings_Contains (backup_name t) "/"))
       (map snd (map_to_list tables))).
Proof.
  intros Hiter. unfold parseArgsForRestore. cbn [fst length Nat.eqb restore_loop].
  rewrite restore_inner. cbn [app].
  assert (Hf : forall l : list BackupTable,
             List.filter (fun t => matches "*" (backup_name t) && wanted [] t) l
             = List.filter (fun t => negb (strings_Contains (backup_name t) "/")) l).
  { intros l. apply filter_ext. intros t. unfold wanted. cbn [length Nat.eqb orb].
    by rewrite andb_true_r. }
  rewrite Hf. apply filter_Permutation_bool. unfold range_values.
  by apply Permutation_map.
Qed.

(** ** Footprints of the commands *)

Section Footprints.
Context {W : Type} (c : Collaborators W).

Lemma yields_ret {A : Type} (P : event -> Prop) (R : A -> Prop) (a : A) :
  R a -> yields (W:=W) P R (ret a).
Proof. intros H w. split; [constructor|exact H]. Qed.

Lemma yields_bind {A B : Type} (P : event -> Prop) (R1 : A -> Prop)
    (R : B -> Prop) (m : M W A) (f : A -> M W B) :
  yields P R1 m -> (forall a, R1 a -> yields P R (f a)) -> yields P R (bind m f).
Proof.
  intros Hm Hf w. destruct (Hm w) as [Ht Hr]. unfold bind, trace, result in *.
  destruct (m w) as [[a w1] t1]. cbn [fst snd] in *.
  destruct (Hf a Hr w1) as [Ht2 Hr2].
  destruct (f a w1) as [[b w2] t2]. cbn [fst snd] in *.
  split; [by apply Forall_app|exact Hr2].
Qed.

Lemma yields_perform {A : Type} (P : event -> Prop) (op : W -> A * W)
    (ev : A -> event) :
  (forall a, P (ev a)) -> yields P (fun _ => True) (perform op ev).
Proof.
  intros H w. unfold perform, trace, result. destruct (op w) as [a w'].
  split; [by repeat constructor|exact I].
Qed.

Lemma yields_log (P : event -> Prop) (msg : string) :
  P (EvLog msg) -> yields (W:=W) P (fun _ => True) (log msg).
Proof. intros H w. split; [by repeat constructor|exact I]. Qed.

Lemma yields_weaken {A : Type} (P : event -> Prop) (R R' : A -> Prop) (m : M W A) :
  yields P R m -> (forall a, R a -> R' a) -> yields P R' m.
Proof. intros H HR w. destruct (H w). split; [done|by apply HR]. Qed.

Lemma yields_defer {A : Type} (P : event -> Prop) (R : A -> Prop)
    (cleanup : M W unit) (body : M W A) :
  yields P R body -> yields P (fun _ => True) cleanup ->
  yields P R (defer cleanup body).
Proof.
  intros Hb Hc. unfold defer. apply (yields_bind P R); [exact Hb|].
  intros a Ha. apply (yields_bind P (fun _ => True)); [exact Hc|].
  intros [] _. by apply yields_ret.
Qed.

Lemma yields_log_failure (P : event -> Prop) (err : option error) :
  (forall msg, P (EvLog msg)) -> yields (W:=W) P (fun _ => True) (log_failure err).
Proof. intros H. destruct err; [by apply yields_log|by apply yields_ret]. Qed.

(** The footprint of the loops of [createTables]: [D] holds of the tables
    they may create. *)
Lemma tables_loop_yields (P : event -> Prop) (D : RestoreTable -> Prop)
    (ch : ClickHouse) (db dir : string) (tableFiles : list FileInfo)
    (dts : list RestoreTable) :
  (forall msg, P (EvLog msg)) ->
  (forall f r, P (EvReadFile f r)) ->
  (forall t r, D t -> P (EvCreateTable t r)) ->
  (forall q, D (mkRestoreTable db q)) ->
  Forall D dts ->
  yields P (fun r => match r with inr d => Forall D d | inl _ => True end)
    (tables_loop c ch db dir tableFiles dts).
Proof.
  intros Hlog Hread Hcreate Hdb. revert dts.
  induction tableFiles as [|table rest IH]; intros dts Hd.
  { by apply yields_ret. }
  cbn [tables_loop]. destruct (strings_HasSuffix (fi_Name table) "sql"); [|by apply IH].
  eapply yields_bind; [by apply yields_log|]. intros [] _.
  eapply yields_bind; [by apply yields_perform|]. intros [dat [e|]] _.
  { by apply yields_ret. }
  destruct (is_distributed (rewrite_query dat)).
  - eapply yields_bind; [by apply yields_log|]. intros [] _.
    apply IH. apply Forall_app. split; [exact Hd|]. by repeat constructor.
  - eapply yields_bind; [apply yields_perform; intros a; by apply Hcreate|].
    intros cerr _.
    eapply yields_bind; [by apply yields_log_failure|]. intros [] _. by apply IH.
Qed.

Lemma databases_loop_yields (P : event -> Prop) (D : RestoreTable -> Prop)
    (ch : ClickHouse) (metadataPath : string) (files : list FileInfo)
    (dts : list RestoreTable) :
  (forall msg, P (EvLog msg)) ->
  (forall f r, P (EvReadFile f r)) ->
  (forall d r, P (EvReadDir d r)) ->
  (forall db r, db <> "system" -> P (EvCreateDatabase db r)) ->
  (forall t r, D t -> P (EvCreateTable t r)) ->
  (forall db q, db <> "system" -> D (mkRestoreTable db q)) ->
  Forall D dts ->
  yields P (fun r => match r with inr d => Forall D d | inl _ => True end)
    (databases_loop c ch metadataPath files dts).
Proof.
  intros Hlog Hread Hdir Hcdb Hcreate Hdb. revert dts.
  induction files as [|file rest IH]; intros dts Hd.
  { by apply yields_ret. }
  cbn [databases_loop]. destruct (IsDir file); [|by apply IH].
  destruct (String.eqb (fi_Name file) "system") eqn:Esys; [by apply IH|].
  apply String.eqb_neq in Esys.
  eapply yields_bind; [by apply yields_log|]. intros [] _.
  eapply yields_bind; [apply yields_perform; intros a; by apply Hcdb|]. intros _ _.
  eapply yields_bind; [by apply yields_log|]. intros [] _.
  eapply yields_bind; [by apply yields_perform|]. intros [tableFiles [e|]] _.
  { by apply yields_ret. }
  eapply yields_bind.
  { apply (tables_loop_yields P D); try done. intros q. by apply Hdb. }
  intros [e|dts'] Hd'; [by apply yields_ret|]. by apply IH.
Qed.

Lemma distributed_loop_yields (P : event -> Prop) (D : RestoreTable -> Prop)
    (ch : ClickHouse) (tables : list RestoreTable) :
  (forall msg, P (EvLog msg)) ->
  (forall t r, D t -> P (EvCreateTable t r)) ->
  Forall D tables ->
  yields P (fun _ => True) (distributed_loop c ch tables).
Proof.
  intros Hlog Hcreate. induction tables as [|table rest IH]; intros Hd.
  { by apply yields_ret. }
  cbn [distributed_loop]. inversion Hd as [|? ? Hhead Htail]; subst.
  eapply yields_bind; [apply yields_perform; intros a; by apply Hcreate|].
  intros cerr _.
  eapply yields_bind; [by apply yields_log_failure|]. intros [] _. by apply IH.
Qed.

(** A command that connects, runs [body] and closes. *)
Lemma connected_shape {A : Type} (ch : ClickHouse) (body : M W A)
    (fail : error -> A) (w : W) :
  yields (fun ev => is_connection ev = false) (fun _ => True) body ->
  opens_and_closes
    (trace ((let* err := Connect c ch in
             match err with
             | Some e => ret (fail e)
             | None => defer (ChClose c ch) body
             end) w)).
Proof.
  intros Hbody. unfold defer, bind, Connect, ChClose, perform, ret, trace.
  destruct (ch_Connect c ch w) as [[e|] w1]; cbn [snd].
  { left. by exists e. }
  destruct (Hbody w1) as [Hb _]. unfold trace in Hb.
  destruct (body w1) as [[a w2] tb]. cbn [snd] in *.
  destruct (ch_Close c ch w2) as [[] w3]. cbn [snd app].
  right. exists tb. split; [reflexivity|exact Hb].
Qed.

(** The footprint of what [createTables] does between connecting and
    closing, for the tables [D]. *)
Ltac createTables_body_footprint P D :=
  eapply yields_bind; [by apply yields_perform|]; intros [dataPath err] _;
  destruct (_ || _); [by apply yields_ret|];
  eapply yields_bind; [by apply yields_log|]; intros [] _;
  eapply yields_bind; [by apply yields_log|]; intros [] _;
  eapply yields_bind; [by apply yields_perform|]; intros [files [e|]] _;
  [by apply yields_ret|];
  eapply yields_bind; [apply (databases_loop_yields P D); try done|];
  [..|intros [e|dts] Hd; [by apply yields_ret|];
      eapply yields_bind; [by apply yields_log|]; intros [] _;
      eapply yields_bind; [apply (distributed_loop_yields P D); try done|];
      [..|intros [] _; by apply yields_ret]].

Lemma freeze_loop_yields (P : event -> Prop) (ch : ClickHouse) (tables : list Table) :
  (forall t r, P (EvFreezeTable t r)) ->
  yields P (fun _ => True) (freeze_loop c ch tables).
Proof.
  intros H. induction tables as [|t rest IH]; [by apply yields_ret|].
  cbn [freeze_loop]. eapply yields_bind; [by apply yields_perform|].
  intros [e|] _; [by apply yields_ret|exact IH].
Qed.

Lemma downloadTree_yields (P : event -> Prop) (s3 : S3) (dataPath : string) :
  (forall a b r, P (EvDownloadTree a b r)) ->
  yields P (fun _ => True) (downloadTree c s3 dataPath).
Proof.
  intros H. unfold downloadTree.
  eapply yields_bind; [by apply yields_perform|]. intros [e|] _; [by apply yields_ret|].
  eapply yields_bind; [by apply yields_perform|]. intros [e|] _; by apply yields_ret.
Qed.

Lemma downloadArchive_yields (P : event -> Prop) (s3 : S3)
    (dataPath filename : string) :
  (forall a b r, P (EvDownloadTree a b r)) ->
  (forall a b r, P (EvDownloadArchive a b r)) ->
  (forall f r, P (EvOpen f r)) ->
  (forall a b r, P (EvUntar a b r)) ->
  (forall f, P (EvRemove f)) ->
  yields P (fun _ => True) (downloadArchive c s3 dataPath filename).
Proof.
  intros H1 H2 H3 H4 H5. unfold downloadArchive.
  eapply yields_bind; [by apply yields_perform|]. intros [e|] _; [by apply yields_ret|].
  eapply yields_bind; [by apply yields_perform|]. intros [e|] _; [by apply yields_ret|].
  apply yields_defer; [|by apply yields_perform].
  eapply yields_bind; [by apply yields_perform|]. intros [e|] _; [by apply yields_ret|].
  eapply yields_bind; [by apply yields_perform|]. intros [e|] _; by apply yields_ret.
Qed.

Lemma download_from_yields (P : event -> Prop) (config : Config)
    (args : list string) (dryRun : bool) (dataPath : string) :
  (forall r, P (EvS3Connect r)) ->
  (forall a b r, P (EvDownloadTree a b r)) ->
  (forall a b r, P (EvDownloadArchive a b r)) ->
  (forall f r, P (EvOpen f r)) ->
  (forall a b r, P (EvUntar a b r)) ->
  (forall f, P (EvRemove f)) ->
  yields P (fun _ => True) (download_from c config args dryRun dataPath).
Proof.
  intros H0 H1 H2 H3 H4 H5. unfold download_from.
  eapply yields_bind; [by apply yields_perform|]. intros [e|] _; [by apply yields_ret|].
  destruct (String.eqb _ "tree").
  { eapply yields_bind; [by apply downloadTree_yields|].
    intros [e|] _; by apply yields_ret. }
  destruct (String.eqb _ "archive"); [|by apply yields_ret].
  destruct (String.eqb _ ""); [by apply yields_ret|].
  eapply yields_bind; [by apply downloadArchive_yields|].
  intros [e|] _; by apply yields_ret.
Qed.

(** No run of [createTables] creates the database [system] or a table in
    it, whatever the metadata directory holds. *)
Theorem createTables_leaves_system_alone
    (config : Config) (args : list string) (dryRun : bool) (w : W) :
  Forall (fun ev => touches_system ev = false)
    (trace (createTables c config args dryRun w)).
Proof.
  set (P := fun ev => touches_system ev = false).
  set (D := fun t => rt_Database t <> "system").
  assert (HP : forall db r, db <> "system" -> P (EvCreateDatabase db r)).
  { intros db r Hdb. unfold P. simpl. by apply String.eqb_neq. }
  assert (HD : forall t r, D t -> P (EvCreateTable t r)).
  { intros t r Ht. unfold P. simpl. by apply String.eqb_neq. }
  assert (H : yields P (fun _ => True) (createTables c config args dryRun)).
  { unfold createTables. cbv zeta.
    eapply yields_bind; [by apply yields_perform|].
    intros [e|] _; [by apply yields_ret|].
    apply yields_defer; [|by apply yields_perform].
    createTables_body_footprint P D. }
  apply H.
Qed.

(** [createTables], [freeze] and, without a configured data path,
    [download] either fail to connect to ClickHouse and do nothing else,
    or connect first and close the connection last, on every path, without
    connecting or closing in between.  With a configured data path
    [download] makes no call to ClickHouse at all. *)
Theorem clickhouse_connection_is_closed
    (config : Config) (args : list string) (dryRun : bool) (w : W) :
  opens_and_closes (trace (createTables c config args dryRun w))
  /\ opens_and_closes (trace (freeze c config args dryRun w))
  /\ (if String.eqb (DataPath (cfg_ClickHouse config)) ""
      then opens_and_closes (trace (download c config args dryRun w))
      else Forall (fun ev => is_clickhouse ev = false)
             (trace (download c config args dryRun w))).
Proof.
  set (P := fun ev => is_connection ev = false).
  split; [|split].
  - unfold createTables. cbv zeta. apply connected_shape.
    createTables_body_footprint P (fun _ : RestoreTable => True).
  - unfold freeze. cbv zeta. apply connected_shape.
    eapply yields_bind; [by apply yields_perform|]. intros [dataPath err] _.
    destruct (_ || _); [by apply yields_ret|].
    eapply yields_bind; [by apply yields_log|]. intros [] _.
    eapply yields_bind; [by apply yields_perform|]. intros listing _.
    destruct (shadow_check _ listing); [by apply yields_ret|].
    eapply yields_bind; [by apply yields_perform|]. intros [allTables [e|]] _.
    { by apply yields_ret. }
    destruct (parseArgsForFreeze allTables args) as [backupTables [e|]].
    { by apply yields_ret. }
    destruct (length backupTables =? 0)%nat.
    + eapply yields_bind; [by apply yields_log|]. intros [] _. by apply yields_ret.
    + by apply freeze_loop_yields.
  - unfold download. cbv zeta.
    destruct (String.eqb (DataPath (cfg_ClickHouse config)) "").
    + apply connected_shape.
      eapply yields_bind; [by apply yields_perform|]. intros [dataPath err] _.
      destruct (_ || _); [by apply yields_ret|]. by apply download_from_yields.
    + by apply download_from_yields.
Qed.
End Footprints.

(** ** Runs of [freeze] and [downloadArchive] *)

Section Runs.
Context {W : Type} (c : Collaborators W).

Lemma freeze_loop_run (ch : ClickHouse) (tables : list Table) (w : W) :
  let run := freeze_loop c ch tables w in
  (result run = None
   /\ trace run = map (fun t => EvFreezeTable t None) tables)
  \/ (exists done t e rest,
        tables = done ++ t :: rest
        /\ result run = Some e
        /\ trace run = map (fun t => EvFreezeTable t None) done
                       ++ [EvFreezeTable t (Some e)]).
Proof.
  revert w. induction tables as [|t tables IH]; intros w; [by left|].
  cbn [freeze_loop]. unfold bind, FreezeTable, perform, result, trace.
  destruct (ch_FreezeTable c ch t w) as [[e|] w1].
  - right. exists [], t, e, tables. by repeat split.
  - specialize (IH w1). unfold result, trace in IH.
    destruct (freeze_loop c ch tables w1) as [[r w2] tr]. cbn [fst snd] in *.
    destruct IH as [[-> ->]|(done & t' & e & rest & -> & -> & ->)].
    + by left.
    + right. exists (t :: done), t', e, rest. by repeat split.
Qed.

Lemma freeze_calls_app (t1 t2 : list event) :
  freeze_calls (t1 ++ t2) = freeze_calls t1 ++ freeze_calls t2.
Proof. apply omap_app. Qed.

Lemma freeze_calls_ok (tables : list Table) :
  freeze_calls (map (fun t => EvFreezeTable t None) tables)
  = map (fun t => (t, None)) tables.
Proof. induction tables as [|t l IH]; [done|]. simpl. by rewrite <- IH. Qed.

(** Once the catalog is known, [freeze] calls [FreezeTable] on the selected
    tables in the order of the selection.  Either all calls succeed and
    [freeze] returns nil, or the first failing call is the last one and its
    error is returned as it is. *)
Theorem freeze_stops_at_first_failure
    (config : Config) (args : list string) (dryRun : bool) (w : W)
    (allTables : list Table) :
  let run := freeze c config args dryRun w in
  In (EvGetTables (allTables, None)) (trace run) ->
  let selected := fst (parseArgsForFreeze allTables args) in
  (result run = None
   /\ freeze_calls (trace run) = map (fun t => (t, None)) selected)
  \/ (exists done t e rest,
        selected = done ++ t :: rest
        /\ result run = Some e
        /\ freeze_calls (trace run)
           = map (fun t => (t, None)) done ++ [(t, Some e)]).
Proof.
  unfold freeze, defer, bind, Connect, GetDataPath, ReadDir, GetTables, ChClose,
    log, perform, ret, result, trace.
  destruct (ch_Connect c _ w) as [[e|] w1]; cbn [fst snd].
  { intros [Hin|[]]. discriminate. }
  destruct (ch_GetDataPath c _ w1) as [[dataPath err] w2].
  destruct (_ || _).
  { destruct (ch_Close c _ w2) as [[] w3]. cbn [fst snd app In].
    intros H. exfalso. intuition discriminate. }
  destruct (ioutil_ReadDir c _ w2) as [listing w3].
  destruct (shadow_check _ listing).
  { destruct (ch_Close c _ w3) as [[] w4]. cbn [fst snd app In].
    intros H. exfalso. intuition discriminate. }
  destruct (ch_GetTables c _ w3) as [[tables [e|]] w4].
  { destruct (ch_Close c _ w4) as [[] w5]. cbn [fst snd app In].
    intros H. exfalso. intuition discriminate. }
  destruct (parseArgsForFreeze tables args) as [backupTables perr] eqn:Hsel.
  assert (Hperr : perr = None).
  { unfold parseArgsForFreeze in Hsel. destruct (_ =? _)%nat; by inversion Hsel. }
  subst perr.
  destruct (length backupTables =? 0)%nat eqn:Hlen.
  - destruct (ch_Close c _ w4) as [[] w5]. cbn [fst snd app In].
    intros H.
    assert (allTables = tables) by (intuition congruence). subst.
    rewrite Hsel. cbn [fst]. left. split; [done|].
    apply Nat.eqb_eq in Hlen. destruct backupTables; [done|discriminate].
  - pose proof (freeze_loop_run (mkClickHouse dryRun (cfg_ClickHouse config))
                  backupTables w4) as Hloop.
    pose proof (freeze_loop_trace c (mkClickHouse dryRun (cfg_ClickHouse config))
                  backupTables w4) as Hfz.
    unfold result, trace in Hloop, Hfz. cbv zeta in Hloop.
    destruct (freeze_loop c _ backupTables w4) as [[r w5] tr]. cbn [fst snd] in *.
    destruct (ch_Close c _ w5) as [[] w6]. cbn [fst snd app].
    intros H.
    assert (allTables = tables).
    { cbn [In] in H. destruct H as [H|[H|[H|[H|[H|H]]]]]; try discriminate;
        [congruence|].
      apply in_app_iff in H as [H|[H|[]]]; [|discriminate].
      rewrite Forall_forall in Hfz. apply list_elem_of_In, Hfz in H. discriminate. }
    subst. rewrite Hsel. cbn [fst].
    change (EvChConnect None :: EvGetDataPath (dataPath, err)
            :: EvLog ("Found clickhouse data path: " +:+ dataPath)
            :: EvReadDir (filepath_Join [dataPath; "shadow"]) listing
            :: EvGetTables (tables, None) :: tr ++ [EvChClose])
      with ([EvChConnect None; EvGetDataPath (dataPath, err);
             EvLog ("Found clickhouse data path: " +:+ dataPath);
             EvReadDir (filepath_Join [dataPath; "shadow"]) listing;
             EvGetTables (tables, None)] ++ tr ++ [EvChClose]).
    rewrite !freeze_calls_app. cbn [freeze_calls omap app].
    rewrite app_nil_r.
    destruct Hloop as [[-> ->]|(done & t & e & rest & -> & -> & ->)].
    + left. split; [done|]. apply freeze_calls_ok.
    + right. exists done, t, e, rest. repeat split.
      rewrite freeze_calls_app, freeze_calls_ok. reflexivity.
Qed.

(** *** [downloadArchive] *)

(** [downloadArchive] removes the local copy of the archive exactly when it
    was downloaded, as its last step, whether opening and unpacking worked
    or not; the copy is named by the base name of the object.  When the
    download of the metadata or of the archive fails, nothing is removed and
    an error is returned. *)
Theorem downloadArchive_removes_what_it_fetched
    (s3 : S3) (dataPath filename : string) (w : W) :
  let run := downloadArchive c s3 dataPath filename w in
  let archivePath :=
    filepath_Join [path_Join [dataPath; "backup"]; filepath_Base filename] in
  (exists pre, trace run = pre ++ [EvRemove archivePath]
               /\ Forall (fun ev => is_remove ev = false) pre
               /\ In (EvDownloadArchive filename (path_Join [dataPath; "backup"]) None) pre)
  \/ (Forall (fun ev => is_remove ev = false) (trace run)
      /\ Forall (fun ev => archive_fetched ev = false) (trace run)
      /\ result run <> None).
Proof.
  unfold downloadArchive, defer, bind, DownloadTree, DownloadArchive, Open, DoUntar,
    Remove, perform, ret, result, trace.
  destruct (s3_DownloadTree c _ _ _ w) as [[e|] w1]; cbn [fst snd app].
  { right. by repeat constructor. }
  destruct (s3_DownloadArchive c _ _ _ w1) as [[e|] w2]; cbn [fst snd app].
  { right. by repeat constructor. }
  destruct (os_Open c _ w2) as [[e|] w3]; cbn [fst snd app].
  { destruct (os_Remove c _ w3) as [[] w4]. cbn [fst snd app].
    left. eexists [_; _; _]. split; [reflexivity|].
    split; [by repeat constructor|]. right. by left. }
  destruct (Untar c _ _ w3) as [[e|] w4]; cbn [fst snd app];
    destruct (os_Remove c _ w4) as [[] w5]; cbn [fst snd app];
    left; eexists [_; _; _; _]; (split; [reflexivity|]);
    (split; [by repeat constructor|]); right; by left.
Qed.
End Runs.

(** The one table of [shop_world]. *)
Lemma freeze_stops_at_first_failure_witness :
  let run := freeze shop_world cfg [] false tt in
  let selected := fst (parseArgsForFreeze [mkTable "shop" "orders"] []) in
  (result run = None
   /\ freeze_calls (trace run) = map (fun t => (t, None)) selected)
  \/ (exists done t e rest,
        selected = done ++ t :: rest
        /\ result run = Some e
        /\ freeze_calls (trace run)
           = map (fun t => (t, None)) done ++ [(t, Some e)]).
Proof.
  apply (freeze_stops_at_first_failure shop_world cfg [] false tt
           [mkTable "shop" "orders"]).
  vm_compute. tauto.
Defined.

(** ** Where the statements of [createTables] come from *)

Lemma sourced_app (t1 t2 : list event) (q : string) :
  sourced t1 q -> sourced (t1 ++ t2) q.
Proof.
  intros (file & dat & Hin & Hq). exists file, dat. split; [|exact Hq].
  apply in_app_iff. by left.
Qed.

Lemma creations_sourced_snoc (tr : list event) (ev : event) :
  creations_sourced tr ->
  (forall t r, ev = EvCreateTable t r -> sourced tr (rt_Query t)) ->
  creations_sourced (tr ++ [ev]).
Proof.
  intros Htr Hev pre t r post Heq.
  destruct post as [|x post _] using rev_ind.
  - apply app_inj_tail in Heq as [-> ->]. by eapply Hev.
  - change (pre ++ EvCreateTable t r :: post ++ [x])
      with (pre ++ (EvCreateTable t r :: post) ++ [x]) in Heq.
    rewrite app_assoc in Heq. apply app_inj_tail in Heq as [-> _].
    by eapply Htr.
Qed.

Lemma sourced_so_far_snoc (dts : list RestoreTable) (tr : list event) (ev : event) :
  sourced_so_far dts tr -> is_create ev = false -> sourced_so_far dts (tr ++ [ev]).
Proof.
  intros [Hc Hd] Hev. split.
  - apply creations_sourced_snoc; [exact Hc|]. intros t r ->. discriminate.
  - eapply Forall_impl; [exact Hd|]. intros t. apply sourced_app.
Qed.

Section Provenance.
Context {W : Type} (c : Collaborators W).

Lemma hoare_ret {A : Type} (Pre : list event -> Prop) (a : A)
    (Post : A -> list event -> Prop) :
  (forall t, Pre t -> Post a t) -> hoare (W:=W) Pre (ret a) Post.
Proof. intros H w t0 Ht. unfold ret, result, trace. simpl. rewrite app_nil_r. by apply H. Qed.

Lemma hoare_bind {A B : Type} (Pre : list event -> Prop)
    (Mid : A -> list event -> Prop) (Post : B -> list event -> Prop)
    (m : M W A) (f : A -> M W B) :
  hoare Pre m Mid -> (forall a, hoare (Mid a) (f a) Post) -> hoare Pre (bind m f) Post.
Proof.
  intros Hm Hf w t0 Ht. specialize (Hm w t0 Ht). unfold bind, result, trace in *.
  destruct (m w) as [[a w1] t1]. cbn [fst snd] in *.
  specialize (Hf a w1 _ Hm). destruct (f a w1) as [[b w2] t2]. cbn [fst snd] in *.
  by rewrite app_assoc.
Qed.

Lemma hoare_perform {A : Type} (Pre : list event -> Prop) (op : W -> A * W)
    (ev : A -> event) (Post : A -> list event -> Prop) :
  (forall a t, Pre t -> Post a (t ++ [ev a])) -> hoare Pre (perform op ev) Post.
Proof.
  intros H w t0 Ht. unfold perform, result, trace. destruct (op w) as [a w'].
  by apply H.
Qed.

Lemma hoare_log (Pre : list event -> Prop) (msg : string)
    (Post : unit -> list event -> Prop) :
  (forall t, Pre t -> Post tt (t ++ [EvLog msg])) -> hoare (W:=W) Pre (log msg) Post.
Proof. intros H w t0 Ht. by apply H. Qed.

(** A step that creates nothing keeps [sourced_so_far]. *)
Lemma hoare_quiet_perform {A : Type} (dts : list RestoreTable) (op : W -> A * W)
    (ev : A -> event) :
  (forall a, is_create (ev a) = false) ->
  hoare (sourced_so_far dts) (perform op ev) (fun _ => sourced_so_far dts).
Proof. intros H. apply hoare_perform. intros a t Ht. by apply sourced_so_far_snoc. Qed.

Lemma hoare_quiet_log (dts : list RestoreTable) (msg : string) :
  hoare (W:=W) (sourced_so_far dts) (log msg) (fun _ => sourced_so_far dts).
Proof. apply hoare_log. intros t Ht. by apply sourced_so_far_snoc. Qed.

Lemma hoare_log_failure (dts : list RestoreTable) (err : option error) :
  hoare (W:=W) (sourced_so_far dts) (log_failure err) (fun _ => sourced_so_far dts).
Proof. destruct err; [apply hoare_quiet_log|by apply hoare_ret]. Qed.

Lemma hoare_create (dts : list RestoreTable) (ch : ClickHouse) (t : RestoreTable) :
  hoare (fun tr => sourced_so_far dts tr /\ sourced tr (rt_Query t))
    (CreateTable c ch t) (fun _ => sourced_so_far dts).
Proof.
  apply hoare_perform. intros a tr [[Hc Hd] Ht]. split.
  - apply creations_sourced_snoc; [exact Hc|]. by intros t' r [= <- _].
  - eapply Forall_impl; [exact Hd|]. intros t'. apply sourced_app.
Qed.

Lemma hoare_pre {A : Type} (Pre Pre' : list event -> Prop) (m : M W A)
    (Post : A -> list event -> Prop) :
  hoare Pre' m Post -> (forall t, Pre t -> Pre' t) -> hoare Pre m Post.
Proof. intros H HP w t0 Ht. by apply H, HP. Qed.

Lemma tables_loop_sourced (ch : ClickHouse) (db dir : string)
    (tableFiles : list FileInfo) (dts : list RestoreTable) :
  hoare (sourced_so_far dts) (tables_loop c ch db dir tableFiles dts) left_sourced.
Proof.
  revert dts. induction tableFiles as [|table rest IH]; intros dts.
  { by apply hoare_ret. }
  cbn [tables_loop]. destruct (strings_HasSuffix (fi_Name table) "sql"); [|by apply IH].
  eapply hoare_bind; [apply hoare_quiet_log|]. intros [].
  eapply (hoare_bind _ (fun r tr => sourced_so_far dts tr
                          /\ (snd r = None -> sourced tr (rewrite_query (fst r))))).
  { apply hoare_perform. intros [dat err] tr Ht. split.
    - by apply sourced_so_far_snoc.
    - cbn [fst snd]. intros ->. exists (path_Join [dir; fi_Name table]), dat.
      split; [|reflexivity]. apply in_app_iff. right. by left. }
  intros [dat [e|]].
  { apply hoare_ret. by intros t [[Hc _] _]. }
  cbn [fst snd]. destruct (is_distributed (rewrite_query dat)).
  - eapply (hoare_bind _ (fun _ => sourced_so_far
                            (dts ++ [mkRestoreTable db (rewrite_query dat)]))).
    { apply hoare_log. intros t [[Hc Hd] Hs]. specialize (Hs eq_refl).
      apply sourced_so_far_snoc; [|done]. split; [exact Hc|].
      apply Forall_app. split; [exact Hd|]. by repeat constructor. }
    intros []. apply IH.
  - eapply hoare_bind.
    { eapply hoare_pre;
        [apply (hoare_create dts ch (mkRestoreTable db (rewrite_query dat)))|].
      intros t [H1 H2]. split; [exact H1|by apply H2]. }
    intros cerr. eapply hoare_bind; [apply hoare_log_failure|]. intros []. apply IH.
Qed.

Lemma databases_loop_sourced (ch : ClickHouse) (metadataPath : string)
    (files : list FileInfo) (dts : list RestoreTable) :
  hoare (sourced_so_far dts) (databases_loop c ch metadataPath files dts) left_sourced.
Proof.
  revert dts. induction files as [|file rest IH]; intros dts.
  { by apply hoare_ret. }
  cbn [databases_loop]. destruct (IsDir file); [|by apply IH].
  destruct (String.eqb (fi_Name file) "system"); [by apply IH|].
  eapply hoare_bind; [apply hoare_quiet_log|]. intros [].
  eapply hoare_bind; [by apply hoare_quiet_perform|]. intros cdb.
  eapply hoare_bind; [apply hoare_quiet_log|]. intros [].
  eapply hoare_bind; [by apply hoare_quiet_perform|]. intros [tableFiles [e|]].
  { apply hoare_ret. by intros t [Hc _]. }
  eapply hoare_bind; [apply tables_loop_sourced|].
  intros [e|dts']; [by apply hoare_ret|]. apply IH.
Qed.

Lemma distributed_loop_sourced (ch : ClickHouse) (tables : list RestoreTable) :
  hoare (sourced_so_far tables) (distributed_loop c ch tables)
    (fun _ => creations_sourced).
Proof.
  induction tables as [|table rest IH].
  { apply hoare_ret. by intros t [Hc _]. }
  cbn [distributed_loop].
  eapply hoare_bind.
  { eapply hoare_pre; [apply (hoare_create rest ch table)|].
    intros t [Hc Hd]. inversion Hd; subst. by repeat split. }
  intros cerr. eapply hoare_bind; [apply hoare_log_failure|]. intros []. apply IH.
Qed.

Lemma createTables_hoare (config : Config) (args : list string) (dryRun : bool) :
  hoare (sourced_so_far []) (createTables c config args dryRun)
    (fun _ => creations_sourced).
Proof.
  unfold createTables, defer. cbv zeta.
  assert (Hend : forall (r : option error),
            hoare (W:=W) creations_sourced
              (let* _ := ChClose c (mkClickHouse dryRun (cfg_ClickHouse config)) in ret r)
              (fun _ => creations_sourced)).
  { intros r. eapply (hoare_bind _ (fun _ => creations_sourced)).
    - apply hoare_perform. intros a t Ht. apply creations_sourced_snoc; [done|].
      intros ? ? [=].
    - intros []. by apply hoare_ret. }
  eapply hoare_bind; [by apply hoare_quiet_perform|]. intros [e|].
  { apply hoare_ret. by intros t [Hc _]. }
  eapply (hoare_bind _ (fun _ => creations_sourced)); [|exact Hend].
  eapply hoare_bind; [by apply hoare_quiet_perform|]. intros [dataPath err].
  destruct (_ || _); [apply hoare_ret; by intros t [Hc _]|].
  eapply hoare_bind; [apply hoare_quiet_log|]. intros [].
  eapply hoare_bind; [apply hoare_quiet_log|]. intros [].
  eapply hoare_bind; [by apply hoare_quiet_perform|]. intros [files [e|]].
  { apply hoare_ret. by intros t [Hc _]. }
  eapply hoare_bind; [apply databases_loop_sourced|].
  intros [e|dts]; [by apply hoare_ret|].
  eapply hoare_bind; [apply hoare_quiet_log|]. intros [].
  eapply hoare_bind; [apply distributed_loop_sourced|]. intros [].
  by apply hoare_ret.
Qed.

(** Every statement that [createTables] hands to [CreateTable] is the
    content of a definition file it read with success earlier in the same
    run, with the first ATTACH replaced by CREATE. *)
Theorem createTables_runs_only_file_statements
    (config : Config) (args : list string) (dryRun : bool) (w : W)
    (pre post : list event) (t : RestoreTable) (r : option error) :
  trace (createTables c config args dryRun w) = pre ++ EvCreateTable t r :: post ->
  exists file dat,
    In (EvReadFile file (dat, None)) pre
    /\ rt_Query t = strings_Replace dat "ATTACH" "CREATE" 1.
Proof.
  intros Htr.
  assert (H0 : sourced_so_far [] []).
  { split; [|constructor]. intros p t' r' q Heq. by destruct p. }
  pose proof (createTables_hoare config args dryRun w [] H0) as H.
  cbn [app] in H. exact (H pre t r post Htr).
Qed.
End Provenance.

(** The creation of [orders] in [shop_world], the fifteenth event. *)
Lemma createTables_runs_only_file_statements_witness :
  exists file dat,
    In (EvReadFile file (dat, None))
      (take 14 (trace (createTables shop_world cfg [] false tt)))
    /\ rt_Query orders = strings_Replace dat "ATTACH" "CREATE" 1.
Proof.
  apply (createTables_runs_only_file_statements shop_world cfg [] false tt
           (take 14 (trace (createTables shop_world cfg [] false tt)))
           (drop 15 (trace (createTables shop_world cfg [] false tt)))
           orders (Some already_exists)).
  vm_compute. reflexivity.
Defined.

(** ** [createTables]: creation order and best effort *)

Lemma created_app (t1 t2 : list event) : created (t1 ++ t2) = created t1 ++ created t2.
Proof. apply omap_app. Qed.

Lemma database_after_app (db : string) (t1 t2 : list event) :
  database_after db (t1 ++ t2) = database_after (database_after db t1) t2.
Proof.
  revert db. induction t1 as [|ev t1 IH]; intros db; [reflexivity|].
  destruct ev; cbn [app database_after]; apply IH.
Qed.

Lemma definitions_read_app (db : string) (t1 t2 : list event) :
  definitions_read db (t1 ++ t2)
  = definitions_read db t1 ++ definitions_read (database_after db t1) t2.
Proof.
  revert db. induction t1 as [|ev t1 IH]; intros db; [reflexivity|].
  destruct ev as [| | | | | | | | |file [dat [e|]]| | | | | | | |];
    cbn [app database_after definitions_read]; rewrite ?IH; reflexivity.
Qed.

Lemma created_In (tr : list event) (t : RestoreTable) :
  In t (created tr) -> exists r, In (EvCreateTable t r) tr.
Proof.
  induction tr as [|ev tr IH]; [intros []|].
  unfold created. cbn [omap]. fold (created tr).
  destruct ev; try (intros H; destruct (IH H) as [r' Hr]; exists r'; by right).
  intros [->|H]; [eexists; by left|].
  destruct (IH H) as [r' Hr]. exists r'. by right.
Qed.

Lemma neutral_created (tr : list event) (ev : event) :
  neutral ev = true -> created (tr ++ [ev]) = created tr.
Proof.
  intros H. rewrite created_app.
  destruct ev; try discriminate; cbn; by rewrite app_nil_r.
Qed.

Lemma neutral_definitions (tr : list event) (ev : event) :
  neutral ev = true -> definitions_read "" (tr ++ [ev]) = definitions_read "" tr.
Proof.
  intros H. rewrite definitions_read_app.
  destruct ev as [| | | | | | | | |file [dat [e|]]| | | | | | | |];
    try discriminate; cbn; by rewrite app_nil_r.
Qed.

Lemma neutral_database (tr : list event) (ev : event) :
  neutral ev = true -> database_after "" (tr ++ [ev]) = database_after "" tr.
Proof.
  intros H. rewrite database_after_app. destruct ev; try discriminate; reflexivity.
Qed.

Lemma created_so_far_neutral (dts : list RestoreTable) (tr : list event) (ev : event) :
  neutral ev = true -> created_so_far dts tr -> created_so_far dts (tr ++ [ev]).
Proof.
  intros H [Hc Hd]. unfold created_so_far.
  by rewrite neutral_created, neutral_definitions.
Qed.

Lemma owed_neutral (dts : list RestoreTable) (tr : list event) (ev : event) :
  neutral ev = true -> owed dts tr -> owed dts (tr ++ [ev]).
Proof.
  intros H Ho. unfold owed. by rewrite neutral_created, neutral_definitions.
Qed.

Lemma running_step (listed : bool) (tr : list event) (ev : event) :
  aborts ev = false -> is_listing ev = false ->
  running listed tr -> running listed (tr ++ [ev]).
Proof.
  intros Ha Hl [H1 H2]. unfold running, aborted in *.
  rewrite !existsb_app. cbn [existsb]. rewrite H1, H2, Ha, Hl.
  split; [reflexivity|]. by rewrite !orb_false_r.
Qed.

Lemma snoc_split {A : Type} (t pre post : list A) (ev x : A) :
  t ++ [ev] = pre ++ x :: post ->
  (post = [] /\ pre = t /\ x = ev)
  \/ (exists post', post = post' ++ [ev] /\ t = pre ++ x :: post').
Proof.
  intros Heq. destruct post as [|y post _] using rev_ind.
  - apply app_inj_tail in Heq as [-> ->]. by left.
  - right. exists post.
    change (pre ++ x :: post ++ [y]) with (pre ++ (x :: post) ++ [y]) in Heq.
    rewrite app_assoc in Heq. apply app_inj_tail in Heq as [-> ->]. by split.
Qed.

Lemma owing_snoc (dts dts' : list RestoreTable) (tr : list event) (ev : event) :
  owing dts tr ->
  (forall x, In x dts -> In x (created [ev] ++ dts')) ->
  (forall file dat, ev = EvReadFile file (dat, None) ->
                    In (table_read tr dat) dts') ->
  owing dts' (tr ++ [ev]).
Proof.
  intros Hp Hkeep Hnew pre file dat post Heq.
  apply snoc_split in Heq as [(-> & -> & <-)|(post' & -> & ->)].
  - apply (Hnew file dat eq_refl).
  - specialize (Hp pre file dat post' eq_refl).
    rewrite created_app, <- app_assoc. apply in_app_iff.
    apply in_app_iff in Hp as [Hp|Hp]; [by left|]. right. by apply Hkeep.
Qed.

Lemma owing_neutral (dts : list RestoreTable) (tr : list event) (ev : event) :
  neutral ev = true -> owing dts tr -> owing dts (tr ++ [ev]).
Proof.
  intros Hn Hp. apply (owing_snoc dts dts tr ev Hp).
  - intros x Hx. apply in_app_iff. by right.
  - intros file dat ->. discriminate.
Qed.

Lemma pending_neutral (dts : list RestoreTable) (tr : list event) (ev : event) :
  neutral ev = true -> pending dts tr -> pending dts (tr ++ [ev]).
Proof. intros Hn [H1 H2]. split; [by apply owing_neutral|exact H2]. Qed.

Lemma pending_reaches (dts : list RestoreTable) (tr : list event) (e : error) :
  pending dts tr -> reaches_CreateTable (Some e) tr.
Proof.
  intros [Hp Hd] pre file dat post Heq [Hbase|]; [|discriminate].
  apply Hp, in_app_iff in Heq as [H|H]; [exact H|].
  rewrite Forall_forall in Hd. apply list_elem_of_In, Hd in H.
  unfold distributed_table, table_read in H. cbn [rt_Query] in H. congruence.
Qed.

Lemma reaches_neutral (r : option error) (tr : list event) (ev : event) :
  neutral ev = true -> reaches_CreateTable r tr -> reaches_CreateTable r (tr ++ [ev]).
Proof.
  intros Hn Hr pre file dat post Heq Hor.
  apply snoc_split in Heq as [(-> & -> & <-)|(post' & -> & ->)]; [discriminate|].
  rewrite created_app. apply in_app_iff. left. by eapply Hr.
Qed.

Section CreateTables.
Context {W : Type} (c : Collaborators W).

(** *** Every definition read reaches [CreateTable] *)

Lemma log_failure_pending (dts : list RestoreTable) (db : string) (err : option error) :
  hoare (W:=W) (fun t => pending dts t /\ database_after "" t = db)
    (log_failure err) (fun _ t => pending dts t /\ database_after "" t = db).
Proof.
  destruct err.
  - apply hoare_log. intros t [H1 H2]. split.
    + by apply pending_neutral.
    + by rewrite neutral_database.
  - apply hoare_ret. intros t H. exact H.
Qed.

Lemma tables_loop_pending (ch : ClickHouse) (db dir : string)
    (tableFiles : list FileInfo) (dts : list RestoreTable) :
  hoare (fun t => pending dts t /\ database_after "" t = db)
    (tables_loop c ch db dir tableFiles dts)
    (fun r t =>
       match r with
       | inr dts' => pending dts' t /\ database_after "" t = db
       | inl e => reaches_CreateTable (Some e) t
       end).
Proof.
  revert dts. induction tableFiles as [|table rest IH]; intros dts.
  { apply hoare_ret. intros t H. exact H. }
  cbn [tables_loop]. destruct (strings_HasSuffix (fi_Name table) "sql"); [|by apply IH].
  eapply (hoare_bind _ (fun _ t => pending dts t /\ database_after "" t = db)).
  { apply hoare_log. intros t [H1 H2]. split.
    - by apply pending_neutral.
    - by rewrite neutral_database. }
  intros [].
  eapply (hoare_bind _
            (fun r t =>
               database_after "" t = db
               /\ Forall (fun t => distributed_table t = true) dts
               /\ match snd r with
                  | Some _ => owing dts t
                  | None =>
                      owing (dts ++ [mkRestoreTable db (rewrite_query (fst r))]) t
                  end)).
  { apply hoare_perform. intros [dat [e|]] t [[H1 Hd] H2]; cbn [fst snd].
    - split; [by rewrite neutral_database|]. split; [exact Hd|].
      by apply owing_neutral.
    - split; [by rewrite database_after_app|]. split; [exact Hd|].
      apply (owing_snoc dts _ t _ H1).
      + intros x Hx. apply in_app_iff. right. apply in_app_iff. by left.
      + intros file' dat' [= _ <-]. apply in_app_iff. right.
        unfold table_read. rewrite H2. by left. }
  intros [dat [e|]]; cbn [fst snd].
  { apply hoare_ret. intros t (_ & Hd & Ho). by apply (pending_reaches dts). }
  destruct (is_distributed (rewrite_query dat)) eqn:Hdist.
  - eapply (hoare_bind _
              (fun _ t =>
                 pending (dts ++ [mkRestoreTable db (rewrite_query dat)]) t
                 /\ database_after "" t = db)).
    { apply hoare_log. intros t (Hdb & Hd & Ho). split.
      - apply pending_neutral; [done|]. split; [exact Ho|].
        apply Forall_app. split; [exact Hd|]. by repeat constructor.
      - by rewrite neutral_database. }
    intros []. apply IH.
  - eapply (hoare_bind _ (fun _ t => pending dts t /\ database_after "" t = db)).
    { apply hoare_perform. intros cerr t (Hdb & Hd & Ho). split.
      - split; [|exact Hd].
        apply (owing_snoc (dts ++ [mkRestoreTable db (rewrite_query dat)]) dts t _ Ho).
        + intros x Hx. apply in_app_iff.
          apply in_app_iff in Hx as [Hx|[<-|[]]]; [by right|left; simpl; by left].
        + intros file' dat' [=].
      - by rewrite database_after_app. }
    intros cerr.
    eapply hoare_bind; [apply log_failure_pending|]. intros []. apply IH.
Qed.

Lemma databases_loop_pending (ch : ClickHouse) (metadataPath : string)
    (files : list FileInfo) (dts : list RestoreTable) :
  hoare (pending dts) (databases_loop c ch metadataPath files dts)
    (fun r t =>
       match r with
       | inr dts' => pending dts' t
       | inl e => reaches_CreateTable (Some e) t
       end).
Proof.
  revert dts. induction files as [|file rest IH]; intros dts.
  { apply hoare_ret. intros t H. exact H. }
  cbn [databases_loop]. destruct (IsDir file); [|by apply IH].
  destruct (String.eqb (fi_Name file) "system"); [by apply IH|].
  eapply (hoare_bind _ (fun _ => pending dts)).
  { apply hoare_log. intros t H. by apply pending_neutral. }
  intros [].
  eapply (hoare_bind _ (fun _ t => pending dts t
                                   /\ database_after "" t = fi_Name file)).
  { apply hoare_perform. intros cerr t [H1 H2]. split.
    - split; [|exact H2]. apply (owing_snoc dts dts t _ H1).
      + intros x Hx. apply in_app_iff. by right.
      + intros file' dat' [=].
    - by rewrite database_after_app. }
  intros cerr.
  eapply (hoare_bind _ (fun _ t => pending dts t
                                   /\ database_after "" t = fi_Name file)).
  { apply hoare_log. intros t [H1 H2]. split.
    - by apply pending_neutral.
    - by rewrite neutral_database. }
  intros [].
  eapply (hoare_bind _ (fun _ t => pending dts t
                                   /\ database_after "" t = fi_Name file)).
  { apply hoare_perform. intros r t [H1 H2]. split.
    - by apply pending_neutral.
    - by rewrite neutral_database. }
  intros [tableFiles [e|]].
  { apply hoare_ret. intros t [H _]. by apply (pending_reaches dts). }
  eapply hoare_bind; [apply tables_loop_pending|].
  intros [e|dts'].
  { apply hoare_ret. intros t H. exact H. }
  eapply hoare_pre; [apply IH|]. by intros t [H _].
Qed.

Lemma distributed_loop_owing (ch : ClickHouse) (tables : list RestoreTable) :
  hoare (owing tables) (distributed_loop c ch tables) (fun _ => owing []).
Proof.
  induction tables as [|table rest IH].
  { apply hoare_ret. intros t H. exact H. }
  cbn [distributed_loop].
  eapply (hoare_bind _ (fun _ => owing rest)).
  { apply hoare_perform. intros cerr t H. apply (owing_snoc (table :: rest) rest t _ H).
    - intros x Hx. exact Hx.
    - intros file' dat' [=]. }
  intros cerr.
  eapply (hoare_bind _ (fun _ => owing rest)).
  { destruct cerr; [|apply hoare_ret; intros t H; exact H].
    apply hoare_log. intros t H. by apply owing_neutral. }
  intros []. apply IH.
Qed.

Lemma createTables_reaches (config : Config) (args : list string) (dryRun : bool) :
  hoare (fun t => t = []) (createTables c config args dryRun) reaches_CreateTable.
Proof.
  assert (H0 : forall ev, neutral ev = true -> pending [] [ev]).
  { intros ev Hev. split; [|constructor]. intros pre file dat post Heq.
    destruct pre as [|x [|y pre]]; try discriminate.
    injection Heq as ->. discriminate. }
  unfold createTables, defer. cbv zeta.
  eapply (hoare_bind _ (fun _ => pending [])).
  { apply hoare_perform. intros a t ->. by apply H0. }
  intros [e|].
  { apply hoare_ret. intros t H. by apply (pending_reaches []). }
  eapply (hoare_bind _ reaches_CreateTable).
  2:{ intros r. eapply (hoare_bind _ (fun _ => reaches_CreateTable r)).
      - apply hoare_perform. intros a t H. by apply reaches_neutral.
      - intros []. apply hoare_ret. intros t H. exact H. }
  eapply (hoare_bind _ (fun _ => pending [])).
  { apply hoare_perform. intros a t H. by apply pending_neutral. }
  intros [dataPath err].
  destruct (_ || _).
  { apply hoare_ret. intros t H. by apply (pending_reaches []). }
  eapply (hoare_bind _ (fun _ => pending [])).
  { apply hoare_log. intros t H. by apply pending_neutral. }
  intros [].
  eapply (hoare_bind _ (fun _ => pending [])).
  { apply hoare_log. intros t H. by apply pending_neutral. }
  intros [].
  eapply (hoare_bind _ (fun _ => pending [])).
  { apply hoare_perform. intros a t H. by apply pending_neutral. }
  intros [files [e|]].
  { apply hoare_ret. intros t H. by apply (pending_reaches []). }
  eapply hoare_bind; [apply databases_loop_pending|].
  intros [e|dts].
  { apply hoare_ret. intros t H. exact H. }
  eapply (hoare_bind _ (fun _ => owing dts)).
  { apply hoare_log. intros t [H _]. by apply owing_neutral. }
  intros [].
  eapply hoare_bind; [apply distributed_loop_owing|].
  intros []. apply hoare_ret. intros t H pre file dat post Heq _.
  specialize (H pre file dat post Heq). by rewrite app_nil_r in H.
Qed.

(** *** What is created *)

Lemma tables_loop_created (ch : ClickHouse) (db dir : string)
    (tableFiles : list FileInfo) (dts : list RestoreTable) :
  hoare (fun t => created_so_far dts t /\ database_after "" t = db)
    (tables_loop c ch db dir tableFiles dts)
    (fun r t =>
       match r with
       | inr dts' => created_so_far dts' t /\ database_after "" t = db
       | inl _ => created t = List.filter base_table (definitions_read "" t)
       end).
Proof.
  revert dts. induction tableFiles as [|table rest IH]; intros dts.
  { apply hoare_ret. intros t H. exact H. }
  cbn [tables_loop]. destruct (strings_HasSuffix (fi_Name table) "sql"); [|by apply IH].
  eapply (hoare_bind _ (fun _ t => created_so_far dts t /\ database_after "" t = db)).
  { apply hoare_log. intros t [H1 H2]. split.
    - by apply created_so_far_neutral.
    - by rewrite neutral_database. }
  intros [].
  eapply (hoare_bind _
            (fun r t =>
               database_after "" t = db
               /\ match snd r with
                  | Some _ => created_so_far dts t
                  | None =>
                      exists D,
                        definitions_read "" t
                        = D ++ [mkRestoreTable db (rewrite_query (fst r))]
                        /\ created t = List.filter base_table D
                        /\ dts = List.filter distributed_table D
                  end)).
  { apply hoare_perform. intros [dat [e|]] t [[H1 H2] H3]; cbn [fst snd].
    - split; [by rewrite neutral_database|]. by apply created_so_far_neutral.
    - split; [by rewrite database_after_app|].
      exists (definitions_read "" t).
      rewrite definitions_read_app, created_app, H3. cbn. rewrite app_nil_r.
      by repeat split. }
  intros [dat [e|]]; cbn [fst snd].
  { apply hoare_ret. by intros t [_ [H _]]. }
  destruct (is_distributed (rewrite_query dat)) eqn:Hdist.
  - eapply (hoare_bind _
              (fun _ t =>
                 created_so_far (dts ++ [mkRestoreTable db (rewrite_query dat)]) t
                 /\ database_after "" t = db)).
    { apply hoare_log. intros t (Hdb & D & HD & Hc & Hd). split.
      - apply created_so_far_neutral; [done|]. unfold created_so_far.
        rewrite HD, !List.filter_app. cbn [List.filter].
        unfold base_table at 2, distributed_table at 2. cbn [rt_Query].
        rewrite Hdist. cbn [negb]. rewrite app_nil_r. by subst dts.
      - by rewrite neutral_database. }
    intros []. apply IH.
  - eapply (hoare_bind _ (fun _ t => created_so_far dts t /\ database_after "" t = db)).
    { apply hoare_perform. intros cerr t (Hdb & D & HD & Hc & Hd). split.
      - unfold created_so_far. rewrite created_app, definitions_read_app, HD.
        cbn [definitions_read created omap]. rewrite app_nil_r, !List.filter_app.
        cbn [List.filter]. unfold base_table at 2, distributed_table at 2.
        cbn [rt_Query]. rewrite Hdist. cbn [negb]. rewrite app_nil_r.
        split; [by rewrite Hc|exact Hd].
      - by rewrite database_after_app. }
    intros cerr.
    eapply (hoare_bind _ (fun _ t => created_so_far dts t /\ database_after "" t = db)).
    { destruct cerr; [|by apply hoare_ret].
      apply hoare_log. intros t [H1 H2]. split.
      - by apply created_so_far_neutral.
      - by rewrite neutral_database. }
    intros []. apply IH.
Qed.

Lemma databases_loop_created (ch : ClickHouse) (metadataPath : string)
    (files : list FileInfo) (dts : list RestoreTable) :
  hoare (created_so_far dts) (databases_loop c ch metadataPath files dts)
    (fun r t =>
       match r with
       | inr dts' => created_so_far dts' t
       | inl _ => created t = List.filter base_table (definitions_read "" t)
       end).
Proof.
  revert dts. induction files as [|file rest IH]; intros dts.
  { apply hoare_ret. intros t H. exact H. }
  cbn [databases_loop]. destruct (IsDir file); [|by apply IH].
  destruct (String.eqb (fi_Name file) "system"); [by apply IH|].
  eapply (hoare_bind _ (fun _ => created_so_far dts)).
  { apply hoare_log. intros t H. by apply created_so_far_neutral. }
  intros [].
  eapply (hoare_bind _ (fun _ t => created_so_far dts t
                                   /\ database_after "" t = fi_Name file)).
  { apply hoare_perform. intros cerr t [H1 H2]. split.
    - unfold created_so_far. rewrite created_app, definitions_read_app.
      cbn [definitions_read created omap]. by rewrite !app_nil_r.
    - by rewrite database_after_app. }
  intros cerr.
  eapply (hoare_bind _ (fun _ t => created_so_far dts t
                                   /\ database_after "" t = fi_Name file)).
  { apply hoare_log. intros t [H1 H2]. split.
    - by apply created_so_far_neutral.
    - by rewrite neutral_database. }
  intros [].
  eapply (hoare_bind _ (fun _ t => created_so_far dts t
                                   /\ database_after "" t = fi_Name file)).
  { apply hoare_perform. intros r t [H1 H2]. split.
    - by apply created_so_far_neutral.
    - by rewrite neutral_database. }
  intros [tableFiles [e|]].
  { apply hoare_ret. by intros t [[H _] _]. }
  eapply hoare_bind; [apply tables_loop_created|].
  intros [e|dts'].
  { apply hoare_ret. intros t H. exact H. }
  eapply hoare_pre; [apply IH|]. by intros t [H _].
Qed.

Lemma distributed_loop_created (ch : ClickHouse) (tables : list RestoreTable) :
  hoare (owed tables) (distributed_loop c ch tables) (fun _ => owed []).
Proof.
  induction tables as [|table rest IH].
  { apply hoare_ret. intros t H. exact H. }
  cbn [distributed_loop].
  eapply (hoare_bind _ (fun _ => owed rest)).
  { apply hoare_perform. intros cerr t H. unfold owed in *.
    rewrite created_app, definitions_read_app.
    cbn [definitions_read created omap]. rewrite app_nil_r, <- app_assoc. exact H. }
  intros cerr.
  eapply (hoare_bind _ (fun _ => owed rest)).
  { destruct cerr; [|by apply hoare_ret].
    apply hoare_log. intros t H. by apply owed_neutral. }
  intros []. apply IH.
Qed.

Lemma createTables_created (config : Config) (args : list string) (dryRun : bool) :
  hoare (fun t => t = []) (createTables c config args dryRun) all_created.
Proof.
  unfold createTables, defer. cbv zeta.
  eapply (hoare_bind _ (fun _ => created_so_far [])).
  { apply hoare_perform. by intros a t ->. }
  intros [e|].
  { apply hoare_ret. intros t [H _]. unfold all_created. by rewrite app_nil_r. }
  eapply (hoare_bind _ all_created).
  2:{ intros r. eapply (hoare_bind _ (fun _ => all_created r)).
      - apply hoare_perform. intros a t H. unfold all_created in *.
        by rewrite neutral_created, neutral_definitions.
      - intros []. apply hoare_ret. intros t H. exact H. }
  assert (Hstop : forall (e : error) (t : list event),
             created t = List.filter base_table (definitions_read "" t) ->
             all_created (Some e) t).
  { intros e t H. unfold all_created. by rewrite app_nil_r. }
  eapply (hoare_bind _ (fun _ => created_so_far [])).
  { apply hoare_perform. intros a t H. by apply created_so_far_neutral. }
  intros [dataPath err].
  destruct (_ || _).
  { apply hoare_ret. intros t [H _]. by apply Hstop. }
  eapply (hoare_bind _ (fun _ => created_so_far [])).
  { apply hoare_log. intros t H. by apply created_so_far_neutral. }
  intros [].
  eapply (hoare_bind _ (fun _ => created_so_far [])).
  { apply hoare_log. intros t H. by apply created_so_far_neutral. }
  intros [].
  eapply (hoare_bind _ (fun _ => created_so_far [])).
  { apply hoare_perform. intros a t H. by apply created_so_far_neutral. }
  intros [files [e|]].
  { apply hoare_ret. intros t [H _]. by apply Hstop. }
  eapply hoare_bind; [apply databases_loop_created|].
  intros [e|dts].
  { apply hoare_ret. intros t H. by apply Hstop. }
  eapply (hoare_bind _ (fun _ => owed dts)).
  { apply hoare_log. intros t [H1 H2]. apply owed_neutral; [done|].
    unfold owed. by rewrite H1, <- H2. }
  intros [].
  eapply hoare_bind; [apply distributed_loop_created|].
  intros []. apply hoare_ret. intros t H.
  unfold owed in H. unfold all_created. by rewrite app_nil_r in H.
Qed.

(** *** How a run is stopped *)

Lemma running_stopped (listed : bool) (tr : list event) (ev : event) (e : error) :
  running listed tr -> aborts ev = true -> abort_error tr ev = Some e ->
  (forall r, ev <> EvChConnect r) -> stopped e (tr ++ [ev]).
Proof. intros [H1 _] H2 H3 H4. exists tr, ev. by repeat split. Qed.

Lemma log_failure_running (listed : bool) (err : option error) :
  hoare (W:=W) (running listed) (log_failure err) (fun _ => running listed).
Proof.
  destruct err.
  - apply hoare_log. intros t H. by apply running_step.
  - apply hoare_ret. intros t H. exact H.
Qed.

Lemma tables_loop_stops (ch : ClickHouse) (db dir : string)
    (tableFiles : list FileInfo) (dts : list RestoreTable) :
  hoare (running true) (tables_loop c ch db dir tableFiles dts)
    (fun r t => match r with inr _ => running true t | inl e => stopped e t end).
Proof.
  revert dts. induction tableFiles as [|table rest IH]; intros dts.
  { apply hoare_ret. intros t H. exact H. }
  cbn [tables_loop]. destruct (strings_HasSuffix (fi_Name table) "sql"); [|by apply IH].
  eapply (hoare_bind _ (fun _ => running true)).
  { apply hoare_log. intros t H. by apply running_step. }
  intros [].
  eapply (hoare_bind _
            (fun r t =>
               match snd r with
               | Some e =>
                   stopped (Errorf ("can't read file "
                                    +:+ path_Join [dir; fi_Name table]
                                    +:+ ": " +:+ Error e)) t
               | None => running true t
               end)).
  { apply hoare_perform. intros [dat [e|]] t H; cbn [fst snd].
    - eapply running_stopped; [exact H|reflexivity|reflexivity|discriminate].
    - by apply running_step. }
  intros [dat [e|]]; cbn [fst snd].
  { apply hoare_ret. intros t H. exact H. }
  destruct (is_distributed (rewrite_query dat)).
  - eapply (hoare_bind _ (fun _ => running true)).
    { apply hoare_log. intros t H. by apply running_step. }
    intros []. apply IH.
  - eapply (hoare_bind _ (fun _ => running true)).
    { apply hoare_perform. intros cerr t H. by apply running_step. }
    intros cerr.
    eapply hoare_bind; [apply log_failure_running|]. intros []. apply IH.
Qed.

Lemma databases_loop_stops (ch : ClickHouse) (metadataPath : string)
    (files : list FileInfo) (dts : list RestoreTable) :
  hoare (running true) (databases_loop c ch metadataPath files dts)
    (fun r t => match r with inr _ => running true t | inl e => stopped e t end).
Proof.
  revert dts. induction files as [|file rest IH]; intros dts.
  { apply hoare_ret. intros t H. exact H. }
  cbn [databases_loop]. destruct (IsDir file); [|by apply IH].
  destruct (String.eqb (fi_Name file) "system"); [by apply IH|].
  eapply (hoare_bind _ (fun _ => running true)).
  { apply hoare_log. intros t H. by apply running_step. }
  intros [].
  eapply (hoare_bind _ (fun _ => running true)).
  { apply hoare_perform. intros cerr t H. by apply running_step. }
  intros cerr.
  eapply (hoare_bind _ (fun _ => running true)).
  { apply hoare_log. intros t H. by apply running_step. }
  intros [].
  eapply (hoare_bind _
            (fun r t =>
               match snd r with
               | Some e =>
                   stopped (Errorf ("can't read database directory in metadata dir: "
                                    +:+ Error e)) t
               | None => running true t
               end)).
  { apply hoare_perform. intros [tableFiles [e|]] t H; cbn [fst snd].
    - eapply running_stopped; [exact H| reflexivity | |discriminate].
      cbn [abort_error]. destruct H as [_ ->]. reflexivity.
    - destruct H as [H1 H2]. unfold running, aborted in *.
      rewrite !existsb_app, H1, H2. by cbn. }
  intros [tableFiles [e|]]; cbn [fst snd].
  { apply hoare_ret. intros t H. exact H. }
  eapply hoare_bind; [apply tables_loop_stops|].
  intros [e|dts'].
  { apply hoare_ret. intros t H. exact H. }
  apply IH.
Qed.

Lemma distributed_loop_runs (ch : ClickHouse) (tables : list RestoreTable) :
  hoare (running true) (distributed_loop c ch tables) (fun _ => running true).
Proof.
  induction tables as [|table rest IH].
  { apply hoare_ret. intros t H. exact H. }
  cbn [distributed_loop].
  eapply (hoare_bind _ (fun _ => running true)).
  { apply hoare_perform. intros cerr t H. by apply running_step. }
  intros cerr.
  eapply hoare_bind; [apply log_failure_running|]. intros []. apply IH.
Qed.

Lemma createTables_stops (config : Config) (args : list string) (dryRun : bool) :
  hoare (fun t => t = []) (createTables c config args dryRun) stops_at_once.
Proof.
  unfold createTables, defer. cbv zeta.
  eapply (hoare_bind _ (fun err t => t = [EvChConnect err])).
  { apply hoare_perform. by intros a t ->. }
  intros [e|].
  { apply hoare_ret. intros t -> _. exists [], (EvChConnect (Some e)), [].
    by repeat split. }
  eapply (hoare_bind _
            (fun r t => match r with
                        | None => aborted t = false
                        | Some e => stopped e t
                        end)).
  2:{ intros r.
      eapply (hoare_bind _ (fun _ => stops_at_once r)).
      - apply hoare_perform. intros [] t H Hab. destruct r as [e|].
        + destruct H as (pre & ev & -> & Hpre & Hev & Herr & Hconn).
          exists pre, ev, [EvChClose]. rewrite <- app_assoc.
          repeat split; try done.
          destruct ev; try reflexivity. by destruct (Hconn r).
        + unfold aborted in *. rewrite existsb_app, H in Hab. discriminate.
      - intros []. apply hoare_ret. intros t H. exact H. }
  eapply hoare_pre with (Pre' := running false); [|by intros t ->].
  eapply (hoare_bind _
            (fun r t =>
               if bool_decide (snd r <> None) || String.eqb (fst r) ""
               then stopped (data_path_error (snd r)) t
               else running false t)).
  { apply hoare_perform. intros [dataPath err] t H. cbn [fst snd].
    destruct (bool_decide (err <> None) || String.eqb dataPath "") eqn:E.
    - eapply running_stopped; [exact H|exact E| |discriminate].
      cbn [abort_error]. by rewrite E.
    - apply running_step; [exact E|reflexivity|exact H]. }
  intros [dataPath err]. cbn [fst snd].
  destruct (bool_decide (err <> None) || String.eqb dataPath "").
  { apply hoare_ret. intros t H. exact H. }
  eapply (hoare_bind _ (fun _ => running false)).
  { apply hoare_log. intros t H. by apply running_step. }
  intros [].
  eapply (hoare_bind _ (fun _ => running false)).
  { apply hoare_log. intros t H. by apply running_step. }
  intros [].
  eapply (hoare_bind _
            (fun r t =>
               match snd r with
               | Some e =>
                   stopped (Errorf ("can't read metadata directory for creating tables: "
                                    +:+ Error e)) t
               | None => running true t
               end)).
  { apply hoare_perform. intros [files [e|]] t H; cbn [fst snd].
    - eapply running_stopped; [exact H| reflexivity | |discriminate].
      cbn [abort_error]. destruct H as [_ ->]. reflexivity.
    - destruct H as [H1 H2]. unfold running, aborted in *.
      rewrite !existsb_app, H1, H2. by cbn. }
  intros [files [e|]]; cbn [fst snd].
  { apply hoare_ret. intros t H. exact H. }
  eapply hoare_bind; [apply databases_loop_stops|].
  intros [e|dts].
  { apply hoare_ret. intros t H. exact H. }
  eapply (hoare_bind _ (fun _ => running true)).
  { apply hoare_log. intros t H. by apply running_step. }
  intros [].
  eapply hoare_bind; [apply distributed_loop_runs|].
  intros []. apply hoare_ret. by intros t [H _].
Qed.

(** C6: in every run of [createTables], whatever the directory listings
    return and in whatever order, the trace splits into a first part that
    creates no distributed table and a second part that creates no other
    table, so the creation of a distributed table comes strictly after the
    creation of every table that is not distributed.  And the tables are
    created: the tables handed to [CreateTable] are, in this order, the
    tables of the definition files read that are not distributed and then,
    if the run was not stopped by an error, the distributed ones, each list
    in the order in which the files were read and each table in the database
    whose directory held the file.  In particular the table of a definition
    file is handed to [CreateTable] after the file was read, if it is not
    distributed or the run returns nil. *)
Theorem createTables_distributed_last
    (config : Config) (args : list string) (dryRun : bool) (w : W) :
  let run := createTables c config args dryRun w in
  let tr := trace run in
  let defs := definitions_read "" tr in
  base_then_distributed tr
  /\ (forall i j ti ri tj rj,
        tr !! i = Some (EvCreateTable ti ri) ->
        tr !! j = Some (EvCreateTable tj rj) ->
        is_distributed (rt_Query ti) = true ->
        is_distributed (rt_Query tj) = false ->
        (j < i)%nat)
  /\ created tr
     = List.filter base_table defs
       ++ match result run with
          | None => List.filter distributed_table defs
          | Some _ => []
          end
  /\ (forall pre file dat post,
        tr = pre ++ EvReadFile file (dat, None) :: post ->
        is_distributed (rewrite_query dat) = false \/ result run = None ->
        exists r,
          In (EvCreateTable
                (mkRestoreTable (database_after "" pre) (rewrite_query dat)) r)
            post).
Proof.
  intros run tr defs.
  pose proof (createTables_split c config args dryRun w) as Hsplit.
  split; [exact Hsplit|]. split.
  { destruct Hsplit as (pre & post & Htr & Hpre & Hpost).
    fold run in Htr. fold tr in Htr. rewrite Htr. clear Htr.
    intros i j ti ri tj rj Hi Hj Hdi Hdj.
    assert (Hige : (length pre <= i)%nat).
    { destruct (decide (i < length pre)%nat) as [Hlt|]; [|lia].
      rewrite lookup_app_l in Hi by done.
      unfold no_distributed in Hpre. rewrite Forall_forall in Hpre.
      apply list_elem_of_lookup_2, Hpre in Hi. simpl in Hi. congruence. }
    assert (Hjlt : (j < length pre)%nat).
    { destruct (decide (j < length pre)%nat) as [|Hge]; [done|].
      rewrite lookup_app_r in Hj by lia.
      unfold no_base in Hpost. rewrite Forall_forall in Hpost.
      apply list_elem_of_lookup_2, Hpost in Hj.
      simpl in Hj. rewrite Hdj in Hj. discriminate. }
    lia. }
  split.
  { exact (createTables_created config args dryRun w [] eq_refl). }
  intros pre file dat post Htr Hor.
  apply created_In.
  exact (createTables_reaches config args dryRun w [] eq_refl pre file dat post Htr Hor).
Qed.

(** C7, as amended: the answers of [CreateTable] do not matter to a run of
    [createTables].  Compared with the run where every [CreateTable] reports
    success, it returns the same value, leaves the same world and makes the
    same calls in the same order; every failed [CreateTable] is followed by
    its log line; and [createTables] returns an error exactly when
    connecting, resolving the data path, listing a directory or reading a
    definition file failed.  Such a failure stops the run at once: no call
    before it failed in this way, the value returned is the error made of
    the failure, and nothing follows the failing call but the closing of the
    connection, so the tables not yet read are not processed. *)
Theorem createTables_best_effort
    (config : Config) (args : list string) (dryRun : bool) (w : W) :
  let loud := createTables c config args dryRun w in
  let quiet := createTables (silence c) config args dryRun w in
  result loud = result quiet
  /\ world loud = world quiet
  /\ calls (trace loud) = calls (trace quiet)
  /\ failures_logged (trace loud) = true
  /\ returned_error (result loud) = aborted (trace loud)
  /\ (aborted (trace loud) = true ->
      exists pre ev post,
        trace loud = pre ++ ev :: post
        /\ aborted pre = false /\ aborts ev = true
        /\ result loud = abort_error pre ev
        /\ post = match ev with EvChConnect _ => [] | _ => [EvChClose] end).
Proof.
  intros loud quiet.
  destruct (sim_createTables c config args dryRun w) as (Hr & Hw & Ht).
  split; [exact Hr|]. split; [exact Hw|]. split; [exact Ht|].
  split; [apply createTables_logged|].
  split; [symmetry; apply createTables_aborted|].
  exact (createTables_stops config args dryRun w [] eq_refl).
Qed.

End CreateTables.

(** The run on [shop_world]: the distributed table is read first and created
    last, in the database of its directory. *)
Example createTables_creates_what_it_read :
  let run := createTables shop_world cfg [] false tt in
  definitions_read "" (trace run) = [all_orders; orders]
  /\ created (trace run) = [orders; all_orders]
  /\ result run = None.
Proof. vm_compute. repeat split; reflexivity. Qed.

(** The run on [unreadable_world]: the failing read is the last call before
    the connection is closed, and its error is the one returned. *)
Example createTables_stops_at_the_unreadable_file :
  let run := createTables unreadable_world cfg [] false tt in
  let file := metadata_dir +:+ "/shop/all_orders.sql" in
  exists pre,
    trace run = pre ++ [EvReadFile file ("", Some (permission_denied file)); EvChClose]
    /\ aborted pre = false
    /\ result run = abort_error pre (EvReadFile file ("", Some (permission_denied file)))
    /\ created (trace run) = [].
Proof.
  eexists (take 10 (trace (createTables unreadable_world cfg [] false tt))).
  vm_compute. repeat split; reflexivity.
Qed.

(** ** The answers of [CreateDatabase] *)

Section Databases.
Context {W : Type} (c : Collaborators W).

Lemma agree_refl {A : Type} (m : M W A) : agree m m.
Proof. by intros w. Qed.

Lemma agree_bind {A B : Type} (m1 m2 : M W A) (f1 f2 : A -> M W B) :
  agree m1 m2 -> (forall a, agree (f1 a) (f2 a)) -> agree (bind m1 f1) (bind m2 f2).
Proof.
  intros Hm Hf w. destruct (Hm w) as (Hr & Hw & Ht).
  unfold bind, result, world, trace in *.
  destruct (m1 w) as [[a1 w1] t1], (m2 w) as [[a2 w2] t2]. cbn [fst snd] in *.
  subst a2 w2. destruct (Hf a1 w1) as (Hr2 & Hw2 & Ht2).
  unfold result, world, trace in *.
  destruct (f1 a1 w1) as [[b1 w1'] t1'], (f2 a1 w1) as [[b2 w2'] t2'].
  cbn [fst snd] in *. by rewrite !map_app, Ht, Ht2.
Qed.

Lemma agree_tables_loop (ch : ClickHouse) (db dir : string)
    (tableFiles : list FileInfo) (dts : list RestoreTable) :
  agree (tables_loop c ch db dir tableFiles dts)
        (tables_loop (trusting c) ch db dir tableFiles dts).
Proof.
  revert dts. induction tableFiles as [|table rest IH]; intros dts;
    [apply agree_refl|].
  cbn [tables_loop]. destruct (strings_HasSuffix _ _); [|apply IH].
  apply agree_bind; [apply agree_refl|]. intros [].
  apply agree_bind; [apply agree_refl|]. intros [dat [e|]]; [apply agree_refl|].
  destruct (is_distributed _).
  - apply agree_bind; [apply agree_refl|]. intros []. apply IH.
  - apply agree_bind; [apply agree_refl|]. intros cerr.
    apply agree_bind; [apply agree_refl|]. intros []. apply IH.
Qed.

Lemma agree_CreateDatabase (ch : ClickHouse) (db : string)
    (k1 k2 : option error -> M W (error + list RestoreTable)) :
  (forall e1 e2, agree (k1 e1) (k2 e2)) ->
  agree (bind (CreateDatabase c ch db) k1) (bind (CreateDatabase (trusting c) ch db) k2).
Proof.
  intros Hk w. unfold bind, CreateDatabase, perform, result, world, trace.
  cbn [ch_CreateDatabase trusting].
  destruct (ch_CreateDatabase c ch db w) as [e w1]. cbn [snd].
  destruct (Hk e None w1) as (Hr & Hw & Ht). unfold result, world, trace in *.
  destruct (k1 e w1) as [[b1 w1'] t1], (k2 None w1) as [[b2 w2'] t2].
  cbn [fst snd map app] in *. by rewrite Ht.
Qed.

Lemma agree_databases_loop (ch : ClickHouse) (metadataPath : string)
    (files : list FileInfo) (dts : list RestoreTable) :
  agree (databases_loop c ch metadataPath files dts)
        (databases_loop (trusting c) ch metadataPath files dts).
Proof.
  revert dts. induction files as [|file rest IH]; intros dts; [apply agree_refl|].
  cbn [databases_loop]. destruct (IsDir file); [|apply IH].
  destruct (String.eqb _ "system"); [apply IH|].
  apply agree_bind; [apply agree_refl|]. intros [].
  apply agree_CreateDatabase. intros _ _.
  apply agree_bind; [apply agree_refl|]. intros [].
  apply agree_bind; [apply agree_refl|]. intros [tableFiles [e|]]; [apply agree_refl|].
  apply agree_bind; [apply agree_tables_loop|]. intros [e|dts']; [apply agree_refl|].
  apply IH.
Qed.

Lemma agree_distributed_loop (ch : ClickHouse) (tables : list RestoreTable) :
  agree (distributed_loop c ch tables) (distributed_loop (trusting c) ch tables).
Proof.
  induction tables as [|t rest IH]; [apply agree_refl|].
  cbn [distributed_loop]. apply agree_bind; [apply agree_refl|]. intros cerr.
  apply agree_bind; [apply agree_refl|]. intros []. apply IH.
Qed.

(** What [CreateDatabase] answers does not matter to [createTables]: compared
    with the run where every [CreateDatabase] reports success, it returns
    the same value, leaves the same world and makes the same calls with the
    same answers and the same log lines.  A failure to create a database
    is neither logged nor returned. *)
Theorem createTables_ignores_CreateDatabase_failures
    (config : Config) (args : list string) (dryRun : bool) (w : W) :
  let loud := createTables c config args dryRun w in
  let quiet := createTables (trusting c) config args dryRun w in
  result loud = result quiet
  /\ world loud = world quiet
  /\ map forget_database (trace loud) = map forget_database (trace quiet).
Proof.
  cbv zeta. revert w.
  change (agree (createTables c config args dryRun)
                (createTables (trusting c) config args dryRun)).
  unfold createTables, defer. cbv zeta.
  apply agree_bind; [apply agree_refl|]. intros [e|]; [apply agree_refl|].
  apply agree_bind; [|intros r; apply agree_refl].
  apply agree_bind; [apply agree_refl|]. intros [dataPath err].
  destruct (_ || _); [apply agree_refl|].
  apply agree_bind; [apply agree_refl|]. intros [].
  apply agree_bind; [apply agree_refl|]. intros [].
  apply agree_bind; [apply agree_refl|]. intros [files [e|]]; [apply agree_refl|].
  apply agree_bind; [apply agree_databases_loop|]. intros [e|dts]; [apply agree_refl|].
  apply agree_bind; [apply agree_refl|]. intros [].
  apply agree_bind; [apply agree_distributed_loop|]. intros []. apply agree_refl.
Qed.
End Databases.

(** ** [getTables] and [restore] *)

Section OtherRuns.
Context {W : Type} (c : Collaborators W) (h : Host W).

Lemma print_tables_run (tables : list Table) (w : W) :
  print_tables tables w = (tt, w, map (fun t => EvPrintf (table_line t)) tables).
Proof.
  induction tables as [|t tables IH]; [reflexivity|].
  cbn [print_tables]. unfold xbind, Printf. by rewrite IH.
Qed.

Lemma printed_lines (tables : list Table) :
  printed (map (fun t => EvPrintf (table_line t)) tables) = map table_line tables.
Proof. induction tables as [|t l IH]; [done|]. simpl. by rewrite <- IH. Qed.

(** [getTables] either prints one line [db.table] for every table of the
    catalog, in catalog order and whatever arguments it was given, and
    returns nil; or it returns an error and prints nothing. *)
Theorem getTables_prints_the_catalog
    (config : Config) (args : list string) (w : W) :
  let run := getTables c config args w in
  (exists allTables,
      In (Core (EvGetTables (allTables, None))) (xtrace run)
      /\ xresult run = None
      /\ printed (xtrace run) = map table_line allTables)
  \/ (xresult run <> None /\ printed (xtrace run) = []).
Proof.
  unfold getTables, xdefer, xbind, lift, Connect, GetTables, ChClose, perform, xret,
    xresult, xtrace.
  destruct (ch_Connect c _ w) as [[e|] w1]; cbn [fst snd map app].
  { by right. }
  destruct (ch_GetTables c _ w1) as [[tables [e|]] w2]; cbn [fst snd map app].
  { destruct (ch_Close c _ w2) as [[] w3]. cbn [fst snd map app]. by right. }
  rewrite print_tables_run.
  destruct (ch_Close c _ w2) as [[] w3]. cbn [fst snd map app].
  left. exists tables. rewrite app_nil_r. split; [right; by left|]. split; [done|].
  change (Core (EvChConnect None) :: Core (EvGetTables (tables, None))
          :: map (fun t => EvPrintf (table_line t)) tables ++ [Core EvChClose])
    with ([Core (EvChConnect None); Core (EvGetTables (tables, None))]
          ++ map (fun t => EvPrintf (table_line t)) tables ++ [Core EvChClose]).
  unfold printed. rewrite !omap_app. cbn [omap app]. rewrite app_nil_r.
  apply printed_lines.
Qed.

(** *** [restore] *)

Lemma copy_attach_loop_run (ch : ClickHouse) (move : bool)
    (tables : list BackupTable) (w : W) :
  let run := copy_attach_loop h ch move tables w in
  (xresult run = None /\ xtrace run = restore_plan move tables)
  \/ (exists done t e rest,
        tables = done ++ t :: rest
        /\ xresult run <> None
        /\ (xtrace run = restore_plan move done ++ [EvCopyData t move (Some e)]
            \/ xtrace run = restore_plan move done
                            ++ [EvCopyData t move None;
                                EvAttachPatritions t (Some e)])).
Proof.
  revert w. induction tables as [|t tables IH]; intros w; [by left|].
  cbn [copy_attach_loop].
  unfold xbind, CopyData, AttachPatritions, xperform, xret, xresult, xtrace.
  destruct (ch_CopyData h ch t move w) as [[e|] w1]; cbn [fst snd app].
  { right. exists [], t, e, tables. repeat split; [done|]. by left. }
  destruct (ch_AttachPatritions h ch t w1) as [[e|] w2]; cbn [fst snd app].
  { right. exists [], t, e, tables. repeat split; [done|]. by right. }
  specialize (IH w2). unfold xresult, xtrace in IH. cbv zeta in IH.
  destruct (copy_attach_loop h ch move tables w2) as [[r w3] tr]. cbn [fst snd] in *.
  destruct IH as [[-> ->]|(done & t' & e & rest & -> & Hr & Htr)].
  - by left.
  - right. exists (t :: done), t', e, rest. repeat split; [done|].
    destruct Htr as [-> | ->]; [by left|by right].
Qed.

Lemma restore_calls_plan (move : bool) (tables : list BackupTable) :
  restore_calls (restore_plan move tables) = restore_plan move tables.
Proof. induction tables as [|t l IH]; [done|]. simpl. by rewrite IH. Qed.

Lemma restore_calls_app (t1 t2 : list xevent) :
  restore_calls (t1 ++ t2) = restore_calls t1 ++ restore_calls t2.
Proof. apply List.filter_app. Qed.

Lemma copy_attach_loop_calls (ch : ClickHouse) (move : bool)
    (tables : list BackupTable) (w : W) :
  restore_calls (xtrace (copy_attach_loop h ch move tables w))
  = xtrace (copy_attach_loop h ch move tables w).
Proof.
  destruct (copy_attach_loop_run ch move tables w)
    as [[_ ->]|(done & t & e & rest & _ & _ & [-> | ->])].
  - apply restore_calls_plan.
  - by rewrite restore_calls_app, restore_calls_plan.
  - by rewrite restore_calls_app, restore_calls_plan.
Qed.

(** Once the backup tables are known, [restore] goes through the selected
    tables in order, copying the data of a table and then attaching its
    partitions.  Either every call succeeds and [restore] returns nil, or
    the first failing call is the last one and an error is returned: the
    partitions of a table are attached only after its data was copied, and
    no later table is touched. *)
Theorem restore_copies_then_attaches
    (iter : range_order) (config : Config) (args : list string) (dryRun : bool)
    (increments : list Z) (move : bool) (w : W)
    (allTables : gmap string BackupTable) :
  let run := restore c h iter config args dryRun increments move w in
  In (EvGetBackupTables (allTables, None)) (xtrace run) ->
  let selected := fst (parseArgsForRestore iter allTables args increments) in
  (xresult run = None /\ restore_calls (xtrace run) = restore_plan move selected)
  \/ (exists done t e rest,
        selected = done ++ t :: rest
        /\ xresult run <> None
        /\ (restore_calls (xtrace run)
              = restore_plan move done ++ [EvCopyData t move (Some e)]
            \/ restore_calls (xtrace run)
                 = restore_plan move done
                   ++ [EvCopyData t move None; EvAttachPatritions t (Some e)])).
Proof.
  unfold restore, xdefer, xbind, lift, Connect, GetBackupTables, ChClose, log, perform,
    xperform, xret, xresult, xtrace.
  destruct (ch_Connect c _ w) as [[e|] w1]; cbn [fst snd map app].
  { intros [Hin|[]]. discriminate. }
  destruct (ch_GetBackupTables h _ w1) as [[tables [e|]] w2]; cbn [fst snd map app].
  { destruct (ch_Close c _ w2) as [[] w3]. cbn [fst snd map app In].
    intros H. exfalso. intuition discriminate. }
  destruct (parseArgsForRestore iter tables args increments)
    as [restoreTables perr] eqn:Hsel.
  assert (Hperr : perr = None) by (by inversion Hsel). subst perr.
  destruct (length restoreTables =? 0)%nat eqn:Hlen.
  - destruct (ch_Close c _ w2) as [[] w3]. cbn [fst snd map app In].
    intros H. assert (allTables = tables) by (intuition congruence). subst.
    rewrite Hsel. cbn [fst]. left. split; [done|].
    apply Nat.eqb_eq in Hlen. by destruct restoreTables.
  - pose proof (copy_attach_loop_run (mkClickHouse dryRun (cfg_ClickHouse config))
                  move restoreTables w2) as Hloop.
    pose proof (copy_attach_loop_calls (mkClickHouse dryRun (cfg_ClickHouse config))
                  move restoreTables w2) as Hcalls.
    unfold xresult, xtrace in Hloop, Hcalls. cbv zeta in Hloop.
    destruct (copy_attach_loop h _ move restoreTables w2) as [[r w3] tr].
    cbn [fst snd] in *.
    destruct (ch_Close c _ w3) as [[] w4]. cbn [fst snd map app].
    intros H.
    assert (allTables = tables).
    { cbn [In] in H. destruct H as [H|[H|H]]; try discriminate; [congruence|].
      apply in_app_iff in H as [H|[H|[]]]; [|discriminate].
      rewrite <- Hcalls in H. apply filter_In in H as [_ H]. discriminate. }
    subst. rewrite Hsel. cbn [fst].
    change (Core (EvChConnect None) :: EvGetBackupTables (tables, None)
            :: tr ++ [Core EvChClose])
      with ([Core (EvChConnect None); EvGetBackupTables (tables, None)]
            ++ tr ++ [Core EvChClose]).
    rewrite !restore_calls_app, Hcalls. cbn [restore_calls List.filter app].
    rewrite app_nil_r. exact Hloop.
Qed.
End OtherRuns.

(** ** Footprints of the other commands *)

Section OtherFootprints.
Context {W : Type} (c : Collaborators W) (h : Host W).
Variable sort_Slice : (Object -> Object -> bool) -> list Object -> list Object.

Lemma xyields_ret {A : Type} (P : xevent -> Prop) (R : A -> Prop) (a : A) :
  R a -> xyields (W:=W) P R (xret a).
Proof. intros H w. split; [constructor|exact H]. Qed.

Lemma xyields_bind {A B : Type} (P : xevent -> Prop) (R1 : A -> Prop)
    (R : B -> Prop) (m : X W A) (f : A -> X W B) :
  xyields P R1 m -> (forall a, R1 a -> xyields P R (f a)) -> xyields P R (xbind m f).
Proof.
  intros Hm Hf w. destruct (Hm w) as [Ht Hr]. unfold xbind, xtrace, xresult in *.
  destruct (m w) as [[a w1] t1]. cbn [fst snd] in *.
  destruct (Hf a Hr w1) as [Ht2 Hr2].
  destruct (f a w1) as [[b w2] t2]. cbn [fst snd] in *.
  split; [by apply Forall_app|exact Hr2].
Qed.

Lemma xyields_perform {A : Type} (P : xevent -> Prop) (op : W -> A * W)
    (ev : A -> xevent) :
  (forall a, P (ev a)) -> xyields P (fun _ => True) (xperform op ev).
Proof.
  intros H w. unfold xperform, xtrace, xresult. destruct (op w) as [a w'].
  split; [by repeat constructor|exact I].
Qed.

Lemma xyields_lift {A : Type} (P : xevent -> Prop) (R : A -> Prop) (m : M W A) :
  yields (fun ev => P (Core ev)) R m -> xyields P R (lift m).
Proof.
  intros H w. destruct (H w) as [Ht Hr]. unfold lift, xtrace, xresult, trace, result in *.
  destruct (m w) as [[a w'] t]. cbn [fst snd] in *. split; [|exact Hr].
  by apply Forall_map.
Qed.

Lemma xyields_defer {A : Type} (P : xevent -> Prop) (R : A -> Prop)
    (cleanup : X W unit) (body : X W A) :
  xyields P R body -> xyields P (fun _ => True) cleanup ->
  xyields P R (xdefer cleanup body).
Proof.
  intros Hb Hc. unfold xdefer. apply (xyields_bind P R); [exact Hb|].
  intros a Ha. apply (xyields_bind P (fun _ => True)); [exact Hc|].
  intros [] _. by apply xyields_ret.
Qed.

Lemma xyields_log (P : xevent -> Prop) (msg : string) :
  P (Core (EvLog msg)) -> xyields (W:=W) P (fun _ => True) (lift (log msg)).
Proof. intros H. apply xyields_lift. by apply yields_log. Qed.

Lemma xyields_call {A : Type} (P : xevent -> Prop) (op : W -> A * W)
    (ev : A -> event) :
  (forall a, P (Core (ev a))) -> xyields P (fun _ => True) (lift (perform op ev)).
Proof. intros H. apply xyields_lift. by apply yields_perform. Qed.

Lemma removeOldBackups_yields (P : event -> Prop) (config : Config) (s3 : S3) :
  (forall msg, P (EvLog msg)) ->
  (forall p r, P (EvListObjects p r)) ->
  (forall o r, P (EvDeleteObjects o r)) ->
  yields P (fun _ => True) (removeOldBackups c sort_Slice config s3).
Proof.
  intros H1 H2 H3. unfold removeOldBackups. destruct (_ <? 1).
  { eapply yields_bind; [by apply yields_log|]. intros [] _. by apply yields_ret. }
  eapply yields_bind; [by apply yields_perform|]. intros [objects [e|]] _.
  { by apply yields_ret. }
  destruct (0 <? _); [|by apply yields_ret].
  eapply yields_bind; [by apply yields_log|]. intros [] _.
  eapply yields_bind; [by apply yields_perform|]. intros [e|] _; by apply yields_ret.
Qed.

Lemma print_tables_yields (P : xevent -> Prop) (tables : list Table) :
  (forall out, P (EvPrintf out)) ->
  xyields (W:=W) P (fun _ => True) (print_tables tables).
Proof.
  intros H. induction tables as [|t l IH]; [by apply xyields_ret|].
  cbn [print_tables]. apply (xyields_bind P (fun _ => True)).
  - intros w. split; [|exact I]. unfold Printf, xtrace. cbn [snd]. by repeat constructor.
  - intros [] _. exact IH.
Qed.

Lemma copy_attach_loop_yields (P : xevent -> Prop) (ch : ClickHouse) (move : bool)
    (tables : list BackupTable) :
  (forall t m r, P (EvCopyData t m r)) ->
  (forall t r, P (EvAttachPatritions t r)) ->
  xyields P (fun _ => True) (copy_attach_loop h ch move tables).
Proof.
  intros H1 H2. induction tables as [|t l IH]; [by apply xyields_ret|].
  cbn [copy_attach_loop].
  eapply xyields_bind; [by apply xyields_perform|]. intros [e|] _; [by apply xyields_ret|].
  eapply xyields_bind; [by apply xyields_perform|]. intros [e|] _; [by apply xyields_ret|].
  exact IH.
Qed.

Lemma DoTarDirs_yields (P : xevent -> Prop) (file : string) (dirs : list string) :
  (forall f d l r, P (EvTarDirs f d l r)) ->
  xyields P (fun _ => True) (DoTarDirs h file dirs).
Proof.
  intros H w. unfold DoTarDirs, xtrace, xresult.
  destruct (TarDirs _ _ _) as [[tw logs] r]. split; [by repeat constructor|exact I].
Qed.

Lemma uploadTree_yields (P : xevent -> Prop) (s3 : S3) (dataPath : string) :
  (forall msg, P (Core (EvLog msg))) ->
  (forall a b r, P (EvUploadDirectory a b r)) ->
  xyields P (fun _ => True) (uploadTree h s3 dataPath).
Proof.
  intros H1 H2. unfold uploadTree.
  eapply xyields_bind; [by apply xyields_log|]. intros [] _.
  eapply xyields_bind; [by apply xyields_perform|]. intros [e|] _; [by apply xyields_ret|].
  eapply xyields_bind; [by apply xyields_log|]. intros [] _.
  eapply xyields_bind; [by apply xyields_perform|]. intros [e|] _; by apply xyields_ret.
Qed.

Lemma uploadArchive_yields (P : xevent -> Prop) (s3 : S3) (dataPath : string) :
  (forall msg, P (Core (EvLog msg))) ->
  (forall f, P (Core (EvRemove f))) ->
  (forall a b r, P (EvTempFile a b r)) ->
  (forall f d l r, P (EvTarDirs f d l r)) ->
  (forall a b r, P (EvUploadFile a b r)) ->
  xyields P (fun _ => True) (uploadArchive c h s3 dataPath).
Proof.
  intros H1 H2 H3 H4 H5. unfold uploadArchive.
  eapply xyields_bind; [by apply xyields_perform|].
  intros [file [e|]] _; [by apply xyields_ret|].
  apply xyields_defer; [|by apply xyields_call].
  eapply xyields_bind; [by apply xyields_log|]. intros [] _.
  eapply xyields_bind; [by apply DoTarDirs_yields|].
  intros [[e|]|msg] _; try by apply xyields_ret.
  eapply xyields_bind; [by apply xyields_log|]. intros [] _.
  eapply xyields_bind; [by apply xyields_perform|]. intros [e|] _; by apply xyields_ret.
Qed.

Lemma upload_from_yields (P : xevent -> Prop) (config : Config) (dryRun : bool)
    (dataPath : string) :
  (forall msg, P (Core (EvLog msg))) ->
  (forall r, P (Core (EvS3Connect r))) ->
  (forall f, P (Core (EvRemove f))) ->
  (forall p r, P (Core (EvListObjects p r))) ->
  (forall o r, P (Core (EvDeleteObjects o r))) ->
  (forall a b r, P (EvUploadDirectory a b r)) ->
  (forall a b r, P (EvTempFile a b r)) ->
  (forall f d l r, P (EvTarDirs f d l r)) ->
  (forall a b r, P (EvUploadFile a b r)) ->
  xyields P (fun _ => True) (upload_from c h sort_Slice config dryRun dataPath).
Proof.
  intros H1 H2 H3 H4 H5 H6 H7 H8 H9. unfold upload_from.
  eapply xyields_bind; [by apply xyields_call|]. intros [e|] _; [by apply xyields_ret|].
  destruct (String.eqb _ "tree").
  { eapply xyields_bind; [by apply uploadTree_yields|].
    intros [e|] _; by apply xyields_ret. }
  destruct (String.eqb _ "archive"); [|by apply xyields_ret].
  eapply xyields_bind; [by apply uploadArchive_yields|].
  intros [[e|]|msg] _; try by apply xyields_ret.
  eapply xyields_bind.
  { apply xyields_lift. by apply removeOldBackups_yields. }
  intros [e|] _; by apply xyields_ret.
Qed.

Lemma clean_from_yields (P : xevent -> Prop) (dryRun : bool) (dataPath : string) :
  (forall msg, P (Core (EvLog msg))) ->
  (forall n r, P (EvStat n r)) ->
  (forall d r, P (EvCleanDir d r)) ->
  xyields P (fun _ => True) (clean_from h dryRun dataPath).
Proof.
  intros H1 H2 H3. unfold clean_from.
  eapply xyields_bind; [by apply xyields_perform|]. intros [fi err] _.
  destruct (os_IsNotExist err).
  { eapply xyields_bind; [by apply xyields_log|]. intros [] _. by apply xyields_ret. }
  eapply xyields_bind; [by apply xyields_log|]. intros [] _.
  destruct (negb dryRun); [|by apply xyields_ret].
  eapply xyields_bind; [by apply xyields_perform|]. intros [e|] _; by apply xyields_ret.
Qed.

Lemma xconnected_shape {A : Type} (ch : ClickHouse) (body : X W A)
    (fail : error -> A) (w : W) :
  xyields (fun ev => is_xconnection ev = false) (fun _ => True) body ->
  xopens_and_closes
    (xtrace ((let+ err := lift (Connect c ch) in
              match err with
              | Some e => xret (fail e)
              | None => xdefer (lift (ChClose c ch)) body
              end) w)).
Proof.
  intros Hbody. unfold xdefer, xbind, lift, Connect, ChClose, perform, xret, xtrace.
  destruct (ch_Connect c ch w) as [[e|] w1]; cbn [snd map].
  { left. by exists e. }
  destruct (Hbody w1) as [Hb _]. unfold xtrace in Hb.
  destruct (body w1) as [[a w2] tb]. cbn [snd] in *.
  destruct (ch_Close c ch w2) as [[] w3]. cbn [snd app map].
  right. exists tb. split; [reflexivity|exact Hb].
Qed.

(** [getTables], [restore] and, without a configured data path, [upload]
    and [clean] either fail to connect to ClickHouse and do nothing else,
    or connect first and close the connection last, on every path (a panic
    of [TarDirs] included).  With a configured data path [upload] and
    [clean] make no call to ClickHouse. *)
Theorem other_commands_close_the_connection
    (iter : range_order) (config : Config) (args : list string) (dryRun : bool)
    (increments : list Z) (move : bool) (w : W) :
  xopens_and_closes (xtrace (getTables c config args w))
  /\ xopens_and_closes
       (xtrace (restore c h iter config args dryRun increments move w))
  /\ (if String.eqb (DataPath (cfg_ClickHouse config)) ""
      then xopens_and_closes (xtrace (upload c h sort_Slice config dryRun w))
           /\ xopens_and_closes (xtrace (clean c h config dryRun w))
      else Forall (fun ev => is_xclickhouse ev = false)
             (xtrace (upload c h sort_Slice config dryRun w))
           /\ Forall (fun ev => is_xclickhouse ev = false)
                (xtrace (clean c h config dryRun w))).
Proof.
  split; [|split].
  - unfold getTables. cbv zeta. apply xconnected_shape.
    eapply xyields_bind; [by apply xyields_call|]. intros [allTables [e|]] _.
    { by apply xyields_ret. }
    eapply xyields_bind; [by apply print_tables_yields|]. intros [] _.
    by apply xyields_ret.
  - unfold restore. cbv zeta. apply xconnected_shape.
    eapply xyields_bind; [by apply xyields_perform|]. intros [allTables [e|]] _.
    { by apply xyields_ret. }
    destruct (parseArgsForRestore iter allTables args increments) as [tables [e|]].
    { by apply xyields_ret. }
    destruct (length tables =? 0)%nat.
    + eapply xyields_bind; [by apply xyields_log|]. intros [] _. by apply xyields_ret.
    + by apply copy_attach_loop_yields.
  - unfold upload, clean. cbv zeta.
    destruct (String.eqb (DataPath (cfg_ClickHouse config)) ""); split.
    + apply xconnected_shape.
      eapply xyields_bind; [by apply xyields_call|]. intros [dataPath err] _.
      destruct (_ || _); [by apply xyields_ret|]. by apply upload_from_yields.
    + apply xconnected_shape.
      eapply xyields_bind; [by apply xyields_call|]. intros [dataPath err] _.
      destruct (_ || _); [by apply xyields_ret|]. by apply clean_from_yields.
    + by apply upload_from_yields.
    + by apply clean_from_yields.
Qed.
End OtherFootprints.

(** ** [upload] *)

Lemma not_tar_not_panicked (tr : list xevent) (msg : string) :
  Forall (fun ev => is_tar ev = false) tr -> ~ panicked tr msg.
Proof.
  intros Hall (f & d & l & H). rewrite Forall_forall in Hall.
  apply list_elem_of_In, Hall in H. discriminate.
Qed.

Lemma clickhouse_quiet (evs : list event) :
  Forall (fun ev => is_clickhouse ev = true) evs ->
  Forall (fun ev => is_retention ev = false /\ is_tar ev = false
                    /\ is_upload ev = false) (map Core evs).
Proof.
  intros H. apply Forall_map. eapply Forall_impl; [exact H|].
  intros ev Hev. by destruct ev.
Qed.

Lemma uploaded_first_app_l (pre tr : list xevent) :
  Forall (fun ev => is_retention ev = false) pre ->
  uploaded_first tr -> uploaded_first (pre ++ tr).
Proof.
  intros Hpre [H|(p & f & r & q & -> & Hp)].
  - left. by apply Forall_app.
  - right. exists (pre ++ p), f, r, q. rewrite app_assoc. split; [done|].
    by apply Forall_app.
Qed.

Lemma uploaded_first_app_r (tr post : list xevent) :
  uploaded_first tr -> Forall (fun ev => is_retention ev = false) post ->
  uploaded_first (tr ++ post).
Proof.
  intros [H|(p & f & r & q & -> & Hp)] Hpost.
  - left. by apply Forall_app.
  - right. exists p, f, r, (q ++ post). by rewrite <- app_assoc.
Qed.

Lemma panicked_app (t1 t2 : list xevent) (msg : string) :
  panicked (t1 ++ t2) msg <-> panicked t1 msg \/ panicked t2 msg.
Proof.
  unfold panicked. split.
  - intros (f & d & l & H). apply in_app_iff in H as [H|H]; [left|right]; eauto.
  - intros [(f & d & l & H)|(f & d & l & H)]; exists f, d, l; apply in_app_iff; tauto.
Qed.

Lemma panicked_core (tr : list event) (msg : string) : ~ panicked (map Core tr) msg.
Proof. intros (f & d & l & H). apply in_map_iff in H as (ev & Hev & _). discriminate. Qed.

Section Uploads.
Context {W : Type} (c : Collaborators W) (h : Host W).
Variable sort_Slice : (Object -> Object -> bool) -> list Object -> list Object.

(** The runs of [uploadArchive], case by case. *)
Lemma uploadArchive_run (s3 : S3) (dataPath : string) (w : W) :
  let run := uploadArchive c h s3 dataPath w in
  let dirs := [path_Join [dataPath; "shadow"]; path_Join [dataPath; "metadata"]] in
  (exists file e,
      xtrace run = [EvTempFile "" "*.tar" (file, Some e)]
      /\ xresult run = Return (Some e))
  \/ (exists file logs r mid,
        xtrace run = EvTempFile "" "*.tar" (file, None)
                     :: Core (EvLog "archive data")
                     :: EvTarDirs file dirs logs r :: mid ++ [Core (EvRemove file)]
        /\ match r with
           | Panic msg => mid = [] /\ xresult run = Panic msg
           | Return (Some e) => mid = [] /\ exists e', xresult run = Return (Some e')
           | Return None =>
               exists u, mid = [Core (EvLog "upload data");
                                EvUploadFile file (filepath_Base file) u]
                         /\ match u with
                            | None => xresult run = Return None
                            | Some _ => exists e', xresult run = Return (Some e')
                            end
           end).
Proof.
  unfold uploadArchive, xdefer, xbind, TempFile, UploadFile, DoTarDirs, lift, Remove, log,
    perform, xperform, xret, xresult, xtrace.
  destruct (ioutil_TempFile h "" "*.tar" w) as [[file [e|]] w1]; cbn [fst snd map app].
  { left. by exists file, e. }
  right.
  destruct (TarDirs _ _ _) as [[tw logs] r].
  destruct r as [[e|]|msg]; cbn [fst snd map app].
  - destruct (os_Remove c file _) as [[] w3]. cbn [fst snd map app].
    exists file, logs, (Return (Some e)), []. split; [done|]. split; [done|]. by eexists.
  - destruct (s3_UploadFile h s3 file _ _) as [u w3].
    destruct u as [e|]; destruct (os_Remove c file w3) as [[] w4]; cbn [fst snd map app].
    + exists file, logs, (Return None), [Core (EvLog "upload data");
        EvUploadFile file (filepath_Base file) (Some e)].
      split; [done|]. exists (Some e). split; [done|]. by eexists.
    + exists file, logs, (Return None), [Core (EvLog "upload data");
        EvUploadFile file (filepath_Base file) None].
      split; [done|]. by exists None.
  - destruct (os_Remove c file _) as [[] w3]. cbn [fst snd map app].
    exists file, logs, (Panic msg), []. by repeat split.
Qed.

(** When [uploadArchive] got its temporary file, removing that file is its
    last step on every path: when archiving fails or panics, when the
    upload fails, and when all went well. *)
Theorem uploadArchive_removes_the_temporary_file (s3 : S3) (dataPath : string) (w : W) :
  let run := uploadArchive c h s3 dataPath w in
  (exists file e,
      xtrace run = [EvTempFile "" "*.tar" (file, Some e)]
      /\ xresult run = Return (Some e))
  \/ (exists file mid,
        xtrace run = EvTempFile "" "*.tar" (file, None)
                     :: mid ++ [Core (EvRemove file)]
        /\ Forall (fun ev => is_xremove ev = false) mid).
Proof.
  destruct (uploadArchive_run s3 dataPath w)
    as [(file & e & Ht & Hr)|(file & logs & r & mid & Ht & Hr)].
  { left. by exists file, e. }
  right. exists file. eexists (_ :: _ :: mid). split; [exact Ht|].
  repeat (constructor; [done|]).
  destruct r as [[e|]|msg].
  - destruct Hr as [-> _]. constructor.
  - destruct Hr as (u & -> & _). by repeat constructor.
  - destruct Hr as [-> _]. constructor.
Qed.

Lemma upload_from_cases (config : Config) (dryRun : bool) (dataPath : string) (w : W) :
  let run := upload_from c h sort_Slice config dryRun dataPath w in
  let s3 := mkS3 dryRun (cfg_S3 config) in
  (exists e e', xtrace run = [Core (EvS3Connect (Some e))]
                /\ xresult run = Return (Some e'))
  \/ (Strategy (cfg_Backup config) = "tree"
      /\ exists w1, xtrace run = Core (EvS3Connect None) :: xtrace (uploadTree h s3 dataPath w1)
                    /\ exists e, xresult run = Return e)
  \/ (Strategy (cfg_Backup config) <> "archive"
      /\ xtrace run = [Core (EvS3Connect None)]
      /\ xresult run = Return (Some ErrUnsupportedStrategy))
  \/ (Strategy (cfg_Backup config) = "archive"
      /\ exists w1,
           (xresult (uploadArchive c h s3 dataPath w1) <> Return None
            /\ xtrace run = Core (EvS3Connect None)
                            :: xtrace (uploadArchive c h s3 dataPath w1)
            /\ xresult run = xresult (uploadArchive c h s3 dataPath w1))
           \/ (xresult (uploadArchive c h s3 dataPath w1) = Return None
               /\ exists tr' e,
                    xtrace run = Core (EvS3Connect None)
                                 :: xtrace (uploadArchive c h s3 dataPath w1)
                                    ++ map Core tr'
                    /\ xresult run = Return e)).
Proof.
  unfold upload_from, xbind, lift, S3Connect, perform, xret, xresult, xtrace.
  destruct (s3_Connect c _ w) as [[e|] w1]; cbn [fst snd map app].
  { left. by eexists _, _. }
  right.
  destruct (String.eqb (Strategy (cfg_Backup config)) "tree") eqn:Etree.
  { left. apply String.eqb_eq in Etree. split; [exact Etree|]. exists w1.
    destruct (uploadTree h _ dataPath w1) as [[[e|] w2] tr]; cbn [fst snd app];
      rewrite app_nil_r; (split; [done|by eexists]). }
  right.
  destruct (String.eqb (Strategy (cfg_Backup config)) "archive") eqn:Earch.
  2:{ left. apply String.eqb_neq in Earch. cbn [fst snd app]. by repeat split. }
  right. apply String.eqb_eq in Earch. split; [exact Earch|]. exists w1.
  destruct (uploadArchive c h _ dataPath w1) as [[[[e|]|msg] w2] tr]; cbn [fst snd app].
  - left. rewrite app_nil_r. by repeat split.
  - right. split; [done|].
    destruct (removeOldBackups c sort_Slice config _ w2) as [[[e|] w3] tr'];
      cbn [fst snd app]; rewrite app_nil_r; by eexists _, _.
  - left. rewrite app_nil_r. by repeat split.
Qed.

Lemma upload_cases (config : Config) (dryRun : bool) (w : W) :
  let run := upload c h sort_Slice config dryRun w in
  (exists pre e,
      xtrace run = map Core pre /\ xresult run = Return (Some e)
      /\ Forall (fun ev => is_clickhouse ev = true) pre)
  \/ (exists pre post dataPath w',
        xtrace run = map Core pre
                     ++ xtrace (upload_from c h sort_Slice config dryRun dataPath w')
                     ++ map Core post
        /\ xresult run = xresult (upload_from c h sort_Slice config dryRun dataPath w')
        /\ Forall (fun ev => is_clickhouse ev = true) (pre ++ post)).
Proof.
  unfold upload. cbv zeta. destruct (String.eqb _ "").
  2:{ right. exists [], [], (DataPath (cfg_ClickHouse config)), w.
      cbn [map app]. rewrite app_nil_r. by repeat split. }
  unfold xdefer, xbind, lift, Connect, GetDataPath, ChClose, perform, xret, xresult,
    xtrace.
  destruct (ch_Connect c _ w) as [[e|] w1]; cbn [fst snd map app].
  { left. exists [EvChConnect (Some e)]. eexists. by repeat split; [repeat constructor]. }
  destruct (ch_GetDataPath c _ w1) as [[dataPath err] w2]; cbn [fst snd map app].
  destruct (_ || _).
  { left. destruct (ch_Close c _ w2) as [[] w3]. cbn [fst snd app map].
    exists [EvChConnect None; EvGetDataPath (dataPath, err); EvChClose]. eexists.
    by repeat split; [repeat constructor]. }
  right. exists [EvChConnect None; EvGetDataPath (dataPath, err)], [EvChClose], dataPath, w2.
  destruct (upload_from c h sort_Slice config dryRun dataPath w2) as [[r w3] tr].
  destruct (ch_Close c _ w3) as [[] w4]. cbn [fst snd app map].
  rewrite ?app_nil_r. by repeat split; [repeat constructor].
Qed.

Lemma uploadArchive_panics (s3 : S3) (dataPath : string) (w : W) (msg : string) :
  let run := uploadArchive c h s3 dataPath w in
  (xresult run = Panic msg <-> panicked (xtrace run) msg)
  /\ (xresult run = Panic msg ->
      Forall (fun ev => is_upload ev = false) (xtrace run)
      /\ exists file, In (EvTempFile "" "*.tar" (file, None)) (xtrace run)
                      /\ In (Core (EvRemove file)) (xtrace run)).
Proof.
  destruct (uploadArchive_run s3 dataPath w)
    as [(file & e & Ht & Hr)|(file & logs & r & mid & Ht & Hr)]; cbv zeta;
    rewrite Ht.
  { rewrite Hr. split; [|done]. split; [done|].
    intros (f & d & l & [H|[]]). discriminate. }
  destruct r as [[e|]|msg'].
  - destruct Hr as (-> & e' & ->). split; [|done]. split; [done|].
    intros (f & d & l & H). cbn [In app] in H. intuition discriminate.
  - destruct Hr as (u & -> & Hu).
    assert (Hr : exists e, xresult (uploadArchive c h s3 dataPath w) = Return e).
    { destruct u; [destruct Hu as [e' ->]|rewrite Hu]; by eexists. }
    destruct Hr as [e ->]. split; [|done]. split; [done|].
    intros (f & d & l & H). cbn [In app] in H. intuition discriminate.
  - destruct Hr as (-> & ->). split.
    + split.
      * intros [= ->]. eexists _, _, _. do 2 right. by left.
      * intros (f & d & l & H). cbn [In app] in H.
        destruct H as [H|[H|[H|[H|[]]]]]; try discriminate. by inversion H.
    + intros _. split; [by repeat constructor|].
      exists file. split; [by left|]. do 3 right. by left.
Qed.

Lemma uploadArchive_done (s3 : S3) (dataPath : string) (w : W) :
  xresult (uploadArchive c h s3 dataPath w) = Return None ->
  exists pre file remote post,
    xtrace (uploadArchive c h s3 dataPath w)
    = pre ++ EvUploadFile file remote None :: post
    /\ Forall (fun ev => is_retention ev = false) pre.
Proof.
  destruct (uploadArchive_run s3 dataPath w)
    as [(file & e & Ht & Hr)|(file & logs & r & mid & Ht & Hr)]; cbv zeta in *;
    rewrite Ht.
  { by rewrite Hr. }
  destruct r as [[e|]|msg'].
  - destruct Hr as (-> & e' & ->). done.
  - destruct Hr as (u & -> & Hu). destruct u as [e|]; [destruct Hu as [e' ->]; done|].
    intros _. eexists [_; _; _; _], file, _, _. split; [reflexivity|].
    by repeat constructor.
  - destruct Hr as (-> & ->). done.
Qed.

Lemma upload_from_facts (config : Config) (dryRun : bool) (dataPath : string)
    (w : W) (msg : string) :
  let run := upload_from c h sort_Slice config dryRun dataPath w in
  uploaded_first (xtrace run)
  /\ (Strategy (cfg_Backup config) <> "archive" ->
      Forall (fun ev => is_retention ev = false) (xtrace run))
  /\ (xresult run = Panic msg <-> panicked (xtrace run) msg)
  /\ (xresult run = Panic msg ->
      Forall (fun ev => is_upload ev = false) (xtrace run)
      /\ Forall (fun ev => is_retention ev = false) (xtrace run)
      /\ exists file, In (EvTempFile "" "*.tar" (file, None)) (xtrace run)
                      /\ In (Core (EvRemove file)) (xtrace run)).
Proof.
  cbv zeta.
  destruct (upload_from_cases config dryRun dataPath w)
    as [(e & e' & Ht & Hr)|[(Hs & w1 & Ht & e & Hr)|[(Hs & Ht & Hr)|(Hs & w1 & Hd)]]];
    cbv zeta in *.
  - rewrite Ht, Hr. split; [left; by repeat constructor|].
    split; [intros _; by repeat constructor|]. split; [|done]. split; [done|].
    intros (f & d & l & [H|[]]). discriminate.
  - rewrite Ht, Hr.
    pose proof (uploadTree_yields h
                  (fun ev => is_retention ev = false /\ is_tar ev = false)
                  (mkS3 dryRun (cfg_S3 config)) dataPath) as Hy.
    destruct (Hy ltac:(done) ltac:(done) w1) as [Hall _]. clear Hy.
    assert (Hnr : Forall (fun ev => is_retention ev = false)
                    (Core (EvS3Connect None)
                     :: xtrace (uploadTree h (mkS3 dryRun (cfg_S3 config)) dataPath w1))).
    { constructor; [done|]. eapply Forall_impl; [exact Hall|]. by intros ev []. }
    split; [by left|]. split; [done|]. split; [|done]. split; [done|].
    intros H. exfalso. eapply not_tar_not_panicked; [|exact H].
    constructor; [done|]. eapply Forall_impl; [exact Hall|]. by intros ev [].
  - rewrite Ht, Hr. split; [left; by repeat constructor|].
    split; [intros _; by repeat constructor|]. split; [|done]. split; [done|].
    intros (f & d & l & [H|[]]). discriminate.
  - pose proof (uploadArchive_panics (mkS3 dryRun (cfg_S3 config)) dataPath w1 msg)
      as [Hiff Hpanic]. cbv zeta in *.
    pose proof (uploadArchive_yields c h (fun ev => is_retention ev = false)
                  (mkS3 dryRun (cfg_S3 config)) dataPath
                  ltac:(done) ltac:(done) ltac:(done) ltac:(done) ltac:(done) w1)
      as [Hnr _].
    destruct Hd as [(Hne & Ht & Hr)|(Hok & tr' & e & Ht & Hr)]; rewrite Ht, Hr.
    + split; [left; by constructor|]. split; [intros _; by constructor|]. split.
      * rewrite Hiff. change (Core (EvS3Connect None) :: ?l)
          with ([Core (EvS3Connect None)] ++ l).
        rewrite panicked_app. split; [tauto|].
        intros [(f & d & l & [H|[]])|H]; [discriminate|exact H].
      * intros Hp. destruct (Hpanic Hp) as (Hup & file & H1 & H2).
        split; [by constructor|]. split; [by constructor|].
        exists file. split; by right.
    + apply uploadArchive_done in Hok as Hdone.
      destruct Hdone as (pre & file & remote & post & Hua & Hpre).
      split.
      { right. rewrite Hua. exists (Core (EvS3Connect None) :: pre), file, remote,
          (post ++ map Core tr').
        split; [by rewrite <- app_assoc|]. by constructor. }
      split; [done|]. split; [|done]. split; [done|].
      change (Core (EvS3Connect None) :: ?l) with ([Core (EvS3Connect None)] ++ l).
      rewrite !panicked_app. intros [(f & d & l & [H|[]])|[H|H]]; [discriminate| |].
      * apply Hiff in H. congruence.
      * by apply panicked_core in H.
Qed.

(** [upload] lists or deletes stored backups only after an archive was
    uploaded with success in the same run, and never under another strategy
    than "archive". *)
Theorem upload_prunes_only_after_uploading
    (config : Config) (dryRun : bool) (w : W) :
  let run := upload c h sort_Slice config dryRun w in
  uploaded_first (xtrace run)
  /\ (Strategy (cfg_Backup config) <> "archive" ->
      Forall (fun ev => is_retention ev = false) (xtrace run)).
Proof.
  cbv zeta.
  destruct (upload_cases config dryRun w)
    as [(pre & e & Ht & Hr & Hpre)|(pre & post & dataPath & w' & Ht & Hr & Hq)];
    cbv zeta in *; rewrite Ht.
  { apply clickhouse_quiet in Hpre.
    assert (H : Forall (fun ev => is_retention ev = false) (map Core pre))
      by (eapply Forall_impl; [exact Hpre|]; by intros ev (? & ?)).
    split; [by left|done]. }
  apply Forall_app in Hq as [Hpre Hpost].
  apply clickhouse_quiet in Hpre, Hpost.
  assert (H1 : Forall (fun ev => is_retention ev = false) (map Core pre))
    by (eapply Forall_impl; [exact Hpre|]; by intros ev (? & ?)).
  assert (H2 : Forall (fun ev => is_retention ev = false) (map Core post))
    by (eapply Forall_impl; [exact Hpost|]; by intros ev (? & ?)).
  destruct (upload_from_facts config dryRun dataPath w' "") as (Hu & Hn & _).
  split.
  - apply uploaded_first_app_l; [exact H1|]. by apply uploaded_first_app_r.
  - intros Hs. repeat (apply Forall_app; split); auto.
Qed.

(** [upload] panics exactly when [TarDirs] does, with the same message.
    Then nothing was uploaded, no stored backup was listed or deleted, and
    the temporary file was removed. *)
Theorem upload_panics_with_TarDirs
    (config : Config) (dryRun : bool) (w : W) (msg : string) :
  let run := upload c h sort_Slice config dryRun w in
  (xresult run = Panic msg <-> panicked (xtrace run) msg)
  /\ (xresult run = Panic msg ->
      Forall (fun ev => is_upload ev = false) (xtrace run)
      /\ Forall (fun ev => is_retention ev = false) (xtrace run)
      /\ exists file, In (EvTempFile "" "*.tar" (file, None)) (xtrace run)
                      /\ In (Core (EvRemove file)) (xtrace run)).
Proof.
  cbv zeta.
  destruct (upload_cases config dryRun w)
    as [(pre & e & Ht & Hr & Hpre)|(pre & post & dataPath & w' & Ht & Hr & Hq)];
    cbv zeta in *; rewrite Ht, Hr.
  { split; [|done]. split; [done|]. intros H. by apply panicked_core in H. }
  apply Forall_app in Hq as [Hpre Hpost].
  apply clickhouse_quiet in Hpre, Hpost.
  destruct (upload_from_facts config dryRun dataPath w' msg) as (_ & _ & Hiff & Hp).
  split.
  - rewrite Hiff, !panicked_app. split; [tauto|].
    intros [H|[H|H]]; [by apply panicked_core in H|exact H|by apply panicked_core in H].
  - intros Hpanic. destruct (Hp Hpanic) as (Hup & Hnr & file & H1 & H2).
    split; [|split].
    + repeat (apply Forall_app; split); [|exact Hup|];
        (eapply Forall_impl; [eassumption|]; by intros ev (? & ? & ?)).
    + repeat (apply Forall_app; split); [|exact Hnr|];
        (eapply Forall_impl; [eassumption|]; by intros ev (? & ? & ?)).
    + exists file. rewrite !in_app_iff. tauto.
Qed.

End Uploads.

(** *** [clean] *)

Section Clean.
Context {W : Type} (c : Collaborators W) (h : Host W).

Lemma clean_from_run (dryRun : bool) (dataPath : string) (w : W) :
  let run := clean_from h dryRun dataPath w in
  let shadowDir := path_Join [dataPath; "shadow"] in
  exists fi err log,
    os_Stat (files h w) shadowDir = (fi, err)
    /\ if os_IsNotExist err || dryRun
       then xtrace run = [EvStat shadowDir (fi, err); Core (EvLog log)]
            /\ xresult run = None
       else exists r, xtrace run = [EvStat shadowDir (fi, err); Core (EvLog log);
                                    EvCleanDir shadowDir r]
                      /\ (xresult run = None <-> r = None).
Proof.
  unfold clean_from, xbind, Stat, CleanDir, lift, log, xperform, xret, xresult, xtrace.
  destruct (os_Stat (files h w) _) as [fi err] eqn:Hstat.
  exists fi, err. destruct (os_IsNotExist err); cbn [orb fst snd map app].
  { eexists. split; [done|]. by split. }
  destruct dryRun; cbn [negb fst snd map app].
  { eexists. split; [done|]. by split. }
  destruct (cleanDir h _ w) as [[e|] w1]; cbn [fst snd map app];
    eexists; (split; [done|]); eexists; (split; [reflexivity|]); by split.
Qed.

(** Once [clean] has asked [os.Stat] about the shadow directory: when the
    answer is "does not exist", or in a dry run, [cleanDir] is not called
    and [clean] returns nil; otherwise (also when [os.Stat] failed for
    another reason) [cleanDir] is called once, on that directory, and
    [clean] returns nil exactly when it succeeded. *)
Theorem clean_removes_an_existing_shadow_only
    (config : Config) (dryRun : bool) (w : W)
    (name : string) (fi : FileInfo) (err : option error) :
  let run := clean c h config dryRun w in
  In (EvStat name (fi, err)) (xtrace run) ->
  if os_IsNotExist err || dryRun
  then cleaned (xtrace run) = [] /\ xresult run = None
  else exists r, cleaned (xtrace run) = [(name, r)]
                 /\ (xresult run = None <-> r = None).
Proof.
  assert (Hfrom : forall dataPath w',
            In (EvStat name (fi, err)) (xtrace (clean_from h dryRun dataPath w')) ->
            if os_IsNotExist err || dryRun
            then cleaned (xtrace (clean_from h dryRun dataPath w')) = []
                 /\ xresult (clean_from h dryRun dataPath w') = None
            else exists r, cleaned (xtrace (clean_from h dryRun dataPath w')) = [(name, r)]
                           /\ (xresult (clean_from h dryRun dataPath w') = None
                               <-> r = None)).
  { intros dataPath w'.
    destruct (clean_from_run dryRun dataPath w') as (fi' & err' & lg & _ & Hrun).
    cbv zeta in Hrun.
    destruct (os_IsNotExist err' || dryRun) eqn:E.
    - destruct Hrun as [-> ->]. intros [[= <- <- <-]|[|[]]]; [|discriminate].
      by rewrite E.
    - destruct Hrun as (r & -> & Hr). intros [[= <- <- <-]|[|[|[]]]]; try discriminate.
      rewrite E. by exists r. }
  unfold clean. cbv zeta. destruct (String.eqb _ ""); [|apply Hfrom].
  unfold xdefer, xbind, lift, Connect, GetDataPath, ChClose, perform, xret, xresult, xtrace.
  destruct (ch_Connect c _ w) as [[e|] w1]; cbn [fst snd map app].
  { intros [|[]]. discriminate. }
  destruct (ch_GetDataPath c _ w1) as [[dataPath derr] w2]; cbn [fst snd map app].
  destruct (bool_decide _ || _).
  { destruct (ch_Close c _ w2) as [[] w3]. cbn [fst snd map app In].
    intros H. exfalso. intuition discriminate. }
  specialize (Hfrom dataPath w2). unfold xresult, xtrace in Hfrom.
  destruct (clean_from h dryRun dataPath w2) as [[r w3] tr].
  destruct (ch_Close c _ w3) as [[] w4]. cbn [fst snd map app] in *.
  intros H. cbn [In] in H. destruct H as [H|[H|H]]; try discriminate.
  apply in_app_iff in H as [H|[H|[]]]; [|discriminate].
  specialize (Hfrom H).
  assert (Hc : cleaned (Core (EvChConnect None) :: Core (EvGetDataPath (dataPath, derr))
                        :: tr ++ [Core EvChClose]) = cleaned tr).
  { change (Core (EvChConnect None) :: Core (EvGetDataPath (dataPath, derr))
            :: tr ++ [Core EvChClose])
      with ([Core (EvChConnect None); Core (EvGetDataPath (dataPath, derr))]
            ++ tr ++ [Core EvChClose]).
    unfold cleaned. rewrite !omap_app. cbn [omap app]. by rewrite app_nil_r. }
  rewrite Hc. exact Hfrom.
Qed.
End Clean.

(** ** More runs of the example worlds *)

(** The backup table [b.t] of increment 2. *)
Lemma parseArgsForRestore_selects_witness :
  In btb (fst (parseArgsForRestore iter_stable two_backups ["b.*"] [2])) <->
    (exists k, two_backups !! k = Some btb)
    /\ (exists a, In a (if (length ["b.*"] =? 0)%nat then ["*"] else ["b.*"])
                  /\ matches a (backup_name btb) = true)
    /\ ([2] = [] \/ In (bt_Increment btb) [2]).
Proof.
  apply (parseArgsForRestore_selects iter_stable two_backups ["b.*"] [2] btb).
  intros i l. apply Permutation_refl.
Defined.

(** The map of two backup tables. *)
Lemma parseArgsForRestore_default_witness :
  Permutation (fst (parseArgsForRestore iter_stable two_backups [] []))
    (List.filter (fun t => negb (strings_Contains (backup_name t) "/"))
       (map snd (map_to_list two_backups))).
Proof.
  apply (parseArgsForRestore_default iter_stable two_backups).
  intros i l. apply Permutation_refl.
Defined.

(** A backup table of database [a/b] is not selected by default. *)
Example restore_default_skips_slashes :
  fst (parseArgsForRestore iter_stable
         (<["k3" := mkBackupTable "a/b" "t" 1 []]> two_backups) [] [])
  = fst (parseArgsForRestore iter_stable two_backups [] [])
  /\ length (fst (parseArgsForRestore iter_stable two_backups [] [])) = 2%nat.
Proof. vm_compute. split; reflexivity. Qed.

(** A symbolic link to a file of five bytes. *)
Example TarDirs_symlink :
  let '(tw, logs, r) := TarDirs link_fs disk ["/data/shadow"] in
  r = Return None
  /\ tw_entries tw
     = [mkEntry (mkHeader TypeSymlink "shadow/current" "" 0 511 0) ""].
Proof. vm_compute. split; reflexivity. Qed.

(** The two backup tables, where attaching the second fails. *)
Lemma restore_copies_then_attaches_witness :
  let run := restore shop_world shop_host iter_stable cfg [] false [] true tt in
  let selected := fst (parseArgsForRestore iter_stable two_backups [] []) in
  (xresult run = None /\ restore_calls (xtrace run) = restore_plan true selected)
  \/ (exists done t e rest,
        selected = done ++ t :: rest
        /\ xresult run <> None
        /\ (restore_calls (xtrace run)
              = restore_plan true done ++ [EvCopyData t true (Some e)]
            \/ restore_calls (xtrace run)
                 = restore_plan true done
                   ++ [EvCopyData t true None; EvAttachPatritions t (Some e)])).
Proof.
  apply (restore_copies_then_attaches shop_world shop_host iter_stable cfg [] false []
           true tt two_backups).
  vm_compute. tauto.
Defined.

(** The run ends with the failed attach, and closes the connection. *)
Example restore_stops_at_btb :
  let run := restore shop_world shop_host iter_stable cfg [] false [] true tt in
  xresult run
  = Some (Errorf "can't attach partitions for table b.t with code: 226, message: no such part")
  /\ last (restore_calls (xtrace run)) = Some (EvAttachPatritions btb (Some detached))
  /\ last (xtrace run) = Some (Core EvChClose).
Proof. vm_compute. repeat split; reflexivity. Qed.

(** The snapshot directory of [shadow_fs], which exists. *)
Lemma clean_removes_an_existing_shadow_only_witness :
  let run := clean shop_world shop_host (data_cfg "tree") false tt in
  if os_IsNotExist None || false
  then cleaned (xtrace run) = [] /\ xresult run = None
  else exists r, cleaned (xtrace run) = [("/data/shadow", r)]
                 /\ (xresult run = None <-> r = None).
Proof.
  apply (clean_removes_an_existing_shadow_only shop_world shop_host (data_cfg "tree")
           false tt "/data/shadow" (dir_info "shadow" 2) None).
  vm_compute. tauto.
Defined.

(** The catalog of [shop_world]; the argument plays no role. *)
Example getTables_on_shop_world :
  getTables shop_world cfg ["ignored.*"] tt
  = (None, tt,
     [Core (EvChConnect None);
      Core (EvGetTables ([mkTable "shop" "orders"], None));
      EvPrintf (table_line (mkTable "shop" "orders"));
      Core EvChClose]).
Proof. vm_compute. reflexivity. Qed.

(** An upload under the archive strategy: both roots are archived, the
    archive is uploaded, the temporary file removed, and the two oldest of
    the four stored backups deleted. *)
Example upload_archive_on_shop_host :
  let run := upload shop_world shop_host merge_sort_by (data_cfg "archive") false tt in
  xresult run = Return None
  /\ List.filter (fun ev => is_upload ev || is_retention ev || is_xremove ev) (xtrace run)
     = [EvUploadFile "/tmp/backup.tar" "backup.tar" None;
        Core (EvRemove "/tmp/backup.tar");
        Core (EvListObjects "backups/" (four_backups, None));
        Core (EvDeleteObjects [mkObject "a.tar" 1000; mkObject "b.tar" 2000] None)]
  /\ List.filter is_tar (xtrace run)
     = [EvTarDirs "/tmp/backup.tar" ["/data/shadow"; "/data/metadata"]
          [LogAdded 2 2; LogAdded 1 0] (Return None)].
Proof. vm_compute. repeat split; reflexivity. Qed.

(** A plain file in the place of the snapshot directory: [upload] panics,
    after removing the temporary file. *)
Example upload_panics_on_a_plain_shadow :
  let run :=
    upload shop_world (quiet_host plain_shadow_fs two_backups (fun _ => None))
      merge_sort_by (data_cfg "archive") false tt in
  xresult run
  = Panic "runtime error: invalid memory address or nil pointer dereference"
  /\ xtrace run
     = [Core (EvS3Connect None);
        EvTempFile "" "*.tar" ("/tmp/backup.tar", None);
        Core (EvLog "archive data");
        EvTarDirs "/tmp/backup.tar" ["/data/shadow"; "/data/metadata"]
          [LogAdded 0 0]
          (Panic "runtime error: invalid memory address or nil pointer dereference");
        Core (EvRemove "/tmp/backup.tar")].
Proof. vm_compute. split; reflexivity. Qed.
